(** * The task switcher (TaskManager): a shallow embedding and its properties

    The development follows [TaskManager] as it is written in
    [src/apps/email/build/gelam_worker.build.js] (second document of the
    bundle): the object's fields become a record, every method becomes a
    computation in a small state/exception/writer monad, the asynchronous
    parts (promises, [setTimeout], [eventSafety]) become entries of a
    pending-callback list that an explicit event loop resolves. *)

From Stdlib Require Import List Bool Arith ZArith QArith Qround Lia Lqa String.
Import ListNotations.

Local Close Scope Q_scope.
Local Open Scope nat_scope.
Local Open Scope list_scope.

Set Implicit Arguments.

(** ** Object references *)

(** An [AppWindow] is used by the code only through its identity (as a key
    of [Map] and [Set], as an argument of [indexOf]) and through a few
    properties looked up in the environment; it is modelled by its
    reference. DOM elements likewise. *)
Definition AppWindow := nat.
Definition Element := nat.

(** A JavaScript value that is [null], [undefined] or an object. *)
Inductive jsref (A : Type) : Type :=
| JNull
| JUndefined
| JObj (a : A).
Arguments JNull {A}.
Arguments JUndefined {A}.

(** ** Insertion-ordered maps (the JS [Map]) *)

Module JSMap.
Section Defs.
Variable V : Type.

Definition t := list (nat * V).

Definition empty : t := [].

Definition keys (m : t) : list nat := map fst m.

Fixpoint get (k : nat) (m : t) : option V :=
  match m with
  | [] => None
  | (k', v) :: m' => if Nat.eqb k k' then Some v else get k m'
  end.

Definition has (k : nat) (m : t) : bool :=
  match get k m with Some _ => true | None => false end.

(** [Map.prototype.set]: an existing key keeps its position, a new key is
    appended. *)
Fixpoint set (k : nat) (v : V) (m : t) : t :=
  match m with
  | [] => [(k, v)]
  | (k', v') :: m' =>
      if Nat.eqb k k' then (k, v) :: m' else (k', v') :: set k v m'
  end.

(** [Map.prototype.delete]. *)
Definition delete (k : nat) (m : t) : t :=
  filter (fun e => negb (Nat.eqb (fst e) k)) m.

(** The structural invariant of a [Map]: one entry per key. *)
Definition wf (m : t) : Prop := NoDup (keys m).
End Defs.
End JSMap.

(** [new Set(list).has(x)] and [list.indexOf(x)]. *)
Definition set_has (x : nat) (l : list nat) : bool := existsb (Nat.eqb x) l.

Fixpoint indexOf_from (i : Z) (x : nat) (l : list nat) : Z :=
  match l with
  | [] => (-1)%Z
  | y :: l' => if Nat.eqb y x then i else indexOf_from (i + 1)%Z x l'
  end.

Definition indexOf (l : list nat) (x : nat) : Z := indexOf_from 0%Z x l.

(** ** Numbers

    Viewport sizes are integers and the scroll offset is a finite number;
    the only operations applied to them are halving, sums, products with
    small integers, one division and [Math.floor]. They are modelled by
    exact rationals extended with the three non-finite values a division can
    produce. *)
Inductive jsnum : Type :=
| Fin (q : Q)
| PosInf
| NegInf
| NaN.

(** [x / y] for finite operands ([y] is never the negative zero here). *)
Definition js_div (x y : Q) : jsnum :=
  if Qeq_bool y 0 then
    match Qcompare x 0 with
    | Eq => NaN
    | Gt => PosInf
    | Lt => NegInf
    end
  else Fin (x / y)%Q.

Definition js_floor (x : jsnum) : jsnum :=
  match x with
  | Fin q => Fin (inject_Z (Qfloor q))
  | other => other
  end.

(** [Math.min(a, x)] with [a] finite. *)
Definition js_min (a : Q) (x : jsnum) : jsnum :=
  match x with
  | Fin q => Fin (if Qle_bool a q then a else q)
  | PosInf => Fin a
  | NegInf => NegInf
  | NaN => NaN
  end.

(** [a === b] on numbers. *)
Definition js_num_eq (a b : jsnum) : bool :=
  match a, b with
  | Fin x, Fin y => Qeq_bool x y
  | PosInf, PosInf => true
  | NegInf, NegInf => true
  | _, _ => false
  end.

(** [arr[x]]: defined only at an integral index within bounds. *)
Definition array_at (l : list nat) (x : jsnum) : option nat :=
  match x with
  | Fin q =>
      let z := Qfloor q in
      if Qeq_bool q (inject_Z z) && (0 <=? z)%Z then nth_error l (Z.to_nat z)
      else None
  | _ => None
  end.

Definition Qmax (a b : Q) : Q := if Qle_bool a b then b else a.

(** ** Cards *)

(** Modelled from the spec: the [Card] class lives in [js/card.js], which is
    not among the sources. The spec gives its interface: construction from
    (window, screenshot-disabled flag), an element handle, [translate]. A
    card is an object with its own identity holding the window it stands
    for and a DOM element of its own. *)
Record Card : Type := mkCard {
  card_ref : nat;
  card_app : AppWindow;
  card_element : Element;
  card_disableScreenshots : bool
}.

(** Object identity of cards ([card !== currentCard]). *)
Definition card_same (c1 c2 : Card) : bool := Nat.eqb (card_ref c1) (card_ref c2).

Definition ref_same (r1 r2 : jsref Card) : bool :=
  match r1, r2 with
  | JNull, JNull => true
  | JUndefined, JUndefined => true
  | JObj c1, JObj c2 => card_same c1 c2
  | _, _ => false
  end.

Definition of_lookup (o : option Card) : jsref Card :=
  match o with Some c => JObj c | None => JUndefined end.

(** ** The TaskManager object *)

Record TaskManager : Type := mkTM {
  appToCardMap : JSMap.t Card;        (* AppWindow -> Card *)
  elementToCardMap : JSMap.t Card;    (* <div.card> -> Card *)
  stack : list AppWindow;
  currentCard : jsref Card;
  _active : bool;
  disableScreenshots : bool;
  _isTransitioning : bool;            (* undefined (falsy) until first set *)
  _browserOnly : bool;                (* only its truthiness is ever used *)
  cardWidth : option Q;               (* undefined until the first layout *)
  cardHeight : option Q
}.

(** The constructor [function TaskManager()]. *)
Definition new_TaskManager : TaskManager :=
  {| appToCardMap := JSMap.empty Card;
     elementToCardMap := JSMap.empty Card;
     stack := [];
     currentCard := JNull;
     _active := false;
     disableScreenshots := false;
     _isTransitioning := false;
     _browserOnly := false;
     cardWidth := None;
     cardHeight := None |}.

Definition CARD_GUTTER : Q := 25%Q.

(** ** The environment: what the collaborators answer *)

Record Env : Type := mkEnv {
  snapshot : list AppWindow;            (* StackManager.snapshot() *)
  getCurrent : option AppWindow;        (* StackManager.getCurrent() *)
  isBrowser : AppWindow -> bool;        (* app.isBrowser() *)
  hasSearchRole : AppWindow -> bool;    (* app.manifest && app.manifest.role === 'search' *)
  isHomescreen : AppWindow -> bool;     (* app.isHomescreen, as a truth value *)
  getActiveWindow : option AppWindow;   (* Service.query('AppWindowManager.getActiveWindow') *)
  getHomescreen : option AppWindow;     (* Service.query('getHomescreen', true) *)
  innerWidth : Z;                       (* window.innerWidth *)
  innerHeight : Z;                      (* window.innerHeight *)
  scrollLeft : Q                        (* this.scrollElement.scrollLeft *)
}.


(** ** Observable effects *)

Inductive Node : Type := TaskManagerEl | ScreenEl.

Inductive AttrValue : Type :=
| AttrBool (b : bool)
| AttrNum (n : nat).

Inductive Event : Type :=
| L10nSetAttributes (id : string)            (* on noRecentWindowsEl *)
| ClassToggle (n : Node) (cls : string) (force : bool)
| ClassAdd (n : Node) (cls : string)
| ClassRemove (n : Node) (cls : string)
| CardCreated (c : Card)                     (* new Card(app, flag) *)
| AppendChild (e : Element)                  (* cardsList.appendChild *)
| RemoveChild (e : Element)                  (* cardsList.removeChild *)
| EnterTaskManager (a : AppWindow)
| LeaveTaskManager (a : AppWindow)
| Translate (c : Card) (x : Q)               (* card.translate({x: x + 'px'}) *)
| SetWidth (w : Q)                           (* cardsList.style.width *)
| SetAttribute (e : Element) (name : string) (v : AttrValue)
| Publish (type : string) (newStackPosition : option Z)
| AddListeners
| RemoveListeners
| AppOpen (a : AppWindow) (animation : string)
| AppClose (a : AppWindow) (animation : string)
| Kill (a : AppWindow)
| ScrollTo (left : jsnum) (behavior : string)
| ConsoleLog
| Uncaught (msg : string).

(** ** Pending callbacks *)

(** The callbacks the code hands to promises and timers, one constructor
    per closure of the source. *)
Inductive Continuation : Type :=
| KShowReady                 (* first [.then] of [show] *)
| KShowDone                  (* second [.then] of [show] *)
| KHideTeardown              (* the [eventSafety] callback of [hide] *)
| KKill (a : AppWindow)      (* [card.app.kill()] after the pan *)
| KHide (a : AppWindow)      (* [this.hide(card.app)] after the pan *)
| KClose (card : Card).      (* [this.cardAction(card, 'close')] after a drop *)

Inductive Pending : Type :=
| OnScreenReady (k : Continuation)
| OnAppClosed (a : option AppWindow) (k : Continuation)
| OnEventOrTimeout (target : AppWindow) (name : string) (deadline : nat)
    (k : Continuation)
| OnTimer (deadline : nat) (k : Continuation)
| OnMicrotask (k : Continuation).

(** What a method returns where the source returns a promise. *)
Inductive Promise : Type :=
| PResolved                  (* already resolved *)
| PTimer (deadline : nat)    (* resolved by [setTimeout(resolve, _)] *)
| PPending.                  (* resolved by a pending callback chain *)

Record World : Type := mkWorld {
  tm : TaskManager;
  pending : list Pending;
  now : nat;
  next_ref : nat               (* allocator of object identities *)
}.

(** ** The monad: state, exceptions, and a trace of effects *)

Inductive completion (A : Type) : Type :=
| Normal (a : A)
| Throw (msg : string).
Arguments Throw {A} msg.

Record Result (A : Type) : Type := mkResult {
  outcome : completion A;
  world : World;
  trace : list Event
}.

Definition M (A : Type) : Type := World -> Result A.

Definition ret {A} (a : A) : M A := fun w => mkResult (Normal a) w [].

Definition bind {A B} (m : M A) (f : A -> M B) : M B :=
  fun w =>
    let r := m w in
    match outcome r with
    | Normal a =>
        let r' := f a (world r) in
        mkResult (outcome r') (world r') (trace r ++ trace r')
    | Throw msg => mkResult (Throw msg) (world r) (trace r)
    end.

Declare Scope tm_scope.
Delimit Scope tm_scope with tm.
Notation "x <- m ;; k" := (bind m (fun x => k))
  (at level 61, m at next level, right associativity) : tm_scope.
Notation "m ;; k" := (bind m (fun _ => k))
  (at level 61, right associativity) : tm_scope.
Local Open Scope tm_scope.

Definition throw {A} (msg : string) : M A := fun w => mkResult (Throw msg) w [].

Definition emit (e : Event) : M unit := fun w => mkResult (Normal tt) w [e].

Definition this : M TaskManager := fun w => mkResult (Normal (tm w)) w [].

Definition modify (f : TaskManager -> TaskManager) : M unit :=
  fun w => mkResult (Normal tt)
             (mkWorld (f (tm w)) (pending w) (now w) (next_ref w)) [].

Definition fresh : M nat :=
  fun w => mkResult (Normal (next_ref w))
             (mkWorld (tm w) (pending w) (now w) (S (next_ref w))) [].

Definition clock : M nat := fun w => mkResult (Normal (now w)) w [].

Definition await (p : Pending) : M unit :=
  fun w => mkResult (Normal tt)
             (mkWorld (tm w) (pending w ++ [p]) (now w) (next_ref w)) [].

Fixpoint forEach {A} (l : list A) (f : A -> M unit) : M unit :=
  match l with
  | [] => ret tt
  | x :: l' => f x ;; forEach l' f
  end.

(** [arr.forEach((x, index) => ...)]. *)
Fixpoint forEach_from {A} (i : nat) (l : list A) (f : A -> nat -> M unit)
  : M unit :=
  match l with
  | [] => ret tt
  | x :: l' => f x i ;; forEach_from (S i) l' f
  end.

(** Field assignments. *)
Definition set_appToCardMap (m : JSMap.t Card) (t : TaskManager) :=
  mkTM m (elementToCardMap t) (stack t) (currentCard t) (_active t)
    (disableScreenshots t) (_isTransitioning t) (_browserOnly t)
    (cardWidth t) (cardHeight t).

Definition set_elementToCardMap (m : JSMap.t Card) (t : TaskManager) :=
  mkTM (appToCardMap t) m (stack t) (currentCard t) (_active t)
    (disableScreenshots t) (_isTransitioning t) (_browserOnly t)
    (cardWidth t) (cardHeight t).

Definition set_stack (s : list AppWindow) (t : TaskManager) :=
  mkTM (appToCardMap t) (elementToCardMap t) s (currentCard t) (_active t)
    (disableScreenshots t) (_isTransitioning t) (_browserOnly t)
    (cardWidth t) (cardHeight t).

Definition set_currentCard (c : jsref Card) (t : TaskManager) :=
  mkTM (appToCardMap t) (elementToCardMap t) (stack t) c (_active t)
    (disableScreenshots t) (_isTransitioning t) (_browserOnly t)
    (cardWidth t) (cardHeight t).

Definition set_active (b : bool) (t : TaskManager) :=
  mkTM (appToCardMap t) (elementToCardMap t) (stack t) (currentCard t) b
    (disableScreenshots t) (_isTransitioning t) (_browserOnly t)
    (cardWidth t) (cardHeight t).

Definition set_disableScreenshots (b : bool) (t : TaskManager) :=
  mkTM (appToCardMap t) (elementToCardMap t) (stack t) (currentCard t)
    (_active t) b (_isTransitioning t) (_browserOnly t)
    (cardWidth t) (cardHeight t).

Definition set_isTransitioning (b : bool) (t : TaskManager) :=
  mkTM (appToCardMap t) (elementToCardMap t) (stack t) (currentCard t)
    (_active t) (disableScreenshots t) b (_browserOnly t)
    (cardWidth t) (cardHeight t).

Definition set_browserOnly (b : bool) (t : TaskManager) :=
  mkTM (appToCardMap t) (elementToCardMap t) (stack t) (currentCard t)
    (_active t) (disableScreenshots t) (_isTransitioning t) b
    (cardWidth t) (cardHeight t).

Definition set_cardSize (w h : Q) (t : TaskManager) :=
  mkTM (appToCardMap t) (elementToCardMap t) (stack t) (currentCard t)
    (_active t) (disableScreenshots t) (_isTransitioning t) (_browserOnly t)
    (Some w) (Some h).

(** ** The methods of [TaskManager.prototype] *)

Section Methods.

Variable env : Env.

Definition publish (type : string) (detail : option Z) : M unit :=
  emit (Publish type detail).

Definition setScreenshotSetting (useScreenshots : bool) : M unit :=
  modify (set_disableScreenshots (negb useScreenshots)).

(** [_addApp(app)]: a new card, appended to the list and entered in both
    maps. *)
Definition _addApp (app : AppWindow) : M Card :=
  t <- this ;;
  r <- fresh ;;
  let card := mkCard r app r (disableScreenshots t) in
  emit (CardCreated card) ;;
  emit (AppendChild (card_element card)) ;;
  t <- this ;;
  modify (set_elementToCardMap
            (JSMap.set (card_element card) card (elementToCardMap t))) ;;
  t <- this ;;
  modify (set_appToCardMap (JSMap.set app card (appToCardMap t))) ;;
  ret card.

(** [_removeApp(app)]. *)
Definition _removeApp (app : AppWindow) : M unit :=
  t <- this ;;
  match JSMap.get app (appToCardMap t) with
  | Some card =>
      modify (set_appToCardMap (JSMap.delete app (appToCardMap t))) ;;
      t <- this ;;
      modify (set_elementToCardMap
                (JSMap.delete (card_element card) (elementToCardMap t))) ;;
      emit (RemoveChild (card_element card))
  | None => ret tt
  end.

(** [getCurrentIndex()]:
    [Math.min(stack.length - 1, Math.floor(scrollLeft / cardWidth))]. *)
Definition getCurrentIndex (t : TaskManager) : jsnum :=
  js_min (inject_Z (Z.of_nat (List.length (stack t)) - 1))
    (js_floor
       (match cardWidth t with
        | Some cw => js_div (scrollLeft env) cw
        | None => NaN
        end)).

(** The callback of the [forEach] of [updateScrollPosition]: the three
    accessibility attributes of one card. *)
Definition write_aria_card (currentCard' : jsref Card) (app : AppWindow)
  (idx : nat) : M unit :=
  t' <- this ;;
  match JSMap.get app (appToCardMap t') with
  | Some card =>
      emit (SetAttribute (card_element card) "aria-hidden"
              (AttrBool (negb (ref_same (JObj card) currentCard')))) ;;
      emit (SetAttribute (card_element card) "aria-setsize"
              (AttrNum (List.length (stack t')))) ;;
      emit (SetAttribute (card_element card) "aria-posinset"
              (AttrNum (idx + 1)))
  | None => throw "TypeError: card is undefined"
  end.

Definition write_aria (currentCard' : jsref Card) (l : list AppWindow) : M unit :=
  forEach_from 0 l (write_aria_card currentCard').

(** The card [updateScrollPosition] computes:
    [this.appToCardMap.get(this.stack[index])]. *)
Definition computed_currentCard (t : TaskManager) : jsref Card :=
  of_lookup
    (match array_at (stack t) (getCurrentIndex t) with
     | Some app => JSMap.get app (appToCardMap t)
     | None => None
     end).

(** [updateScrollPosition()]. *)
Definition updateScrollPosition : M unit :=
  t <- this ;;
  let currentCard' := computed_currentCard t in
  if negb (ref_same (currentCard t) currentCard') then
    modify (set_currentCard currentCard') ;;
    write_aria currentCard' (stack t)
  else ret tt.

(** The numbers [updateLayout] computes. *)
Definition layout_cardWidth : Q := (inject_Z (innerWidth env) / 2)%Q.

Definition layout_cardHeight : Q := (inject_Z (innerHeight env) / 2)%Q.

Definition layout_margins : Q := (inject_Z (innerWidth env) - layout_cardWidth)%Q.

Definition layout_contentWidth (count : nat) : Q :=
  let count := inject_Z (Z.of_nat count) in
  let cardStripWidth :=
    (layout_cardWidth * count + CARD_GUTTER * (count - 1))%Q in
  (layout_margins + Qmax layout_cardWidth cardStripWidth)%Q.

Definition layout_left (index : nat) : Q :=
  let offset := (layout_cardWidth + CARD_GUTTER)%Q in
  (layout_margins / 2 + offset * inject_Z (Z.of_nat index))%Q.

(** The callback of the [forEach] of [updateLayout]. *)
Definition translate_card (app : AppWindow) (index : nat) : M unit :=
  t' <- this ;;
  match JSMap.get app (appToCardMap t') with
  | Some card => emit (Translate card (layout_left index))
  | None => throw "TypeError: card is undefined"
  end.

Definition translate_cards (l : list AppWindow) : M unit :=
  forEach_from 0 l translate_card.

(** [updateLayout()]. *)
Definition updateLayout : M unit :=
  modify (set_cardSize layout_cardWidth layout_cardHeight) ;;
  t <- this ;;
  let count := List.length (stack t) in
  translate_cards (stack t) ;;
  emit (SetWidth (layout_contentWidth count)) ;;
  updateScrollPosition.

(** The first [forEach] of [updateStack], over the entries of
    [appToCardMap]. The callback deletes at most the entry it is visiting,
    so the entries visited are those present at the start, in insertion
    order. *)
Definition remove_stale (latestAppSet : list AppWindow)
  (entries : JSMap.t Card) : M unit :=
  forEach entries (fun entry =>
    let app := fst entry in
    if negb (set_has app latestAppSet) then _removeApp app else ret tt).

(** The second [forEach] of [updateStack], over the stack. *)
Definition add_missing (l : list AppWindow) : M unit :=
  forEach l (fun app =>
    t' <- this ;;
    match JSMap.get app (appToCardMap t') with
    | None => _addApp app ;; emit (EnterTaskManager app)
    | Some _ => ret tt
    end).

(** [updateStack()]. *)
Definition updateStack : M unit :=
  modify (set_stack (snapshot env)) ;;
  t <- this ;;
  (if _browserOnly t then
     modify (set_stack
               (filter (fun app => isBrowser env app || hasSearchRole env app)
                       (stack t)))
   else ret tt) ;;
  t <- this ;;
  emit (L10nSetAttributes
          (if _browserOnly t then "no-recent-browser-windows"
           else "no-recent-app-windows")) ;;
  emit (ClassToggle TaskManagerEl "filtered" (_browserOnly t)) ;;
  let latestAppSet := stack t in
  remove_stale latestAppSet (appToCardMap t) ;;
  t <- this ;;
  add_missing (stack t) ;;
  updateLayout.

(** [setActive(active)]. *)
Definition setActive (active : bool) : M unit :=
  t <- this ;;
  if Bool.eqb (_active t) active then ret tt
  else
    modify (set_isTransitioning false) ;;
    modify (set_active active) ;;
    publish (if active then "taskmanager-activated"
             else "taskmanager-deactivated") None ;;
    emit (ClassToggle TaskManagerEl "active" active) ;;
    t' <- this ;;
    emit (ClassToggle TaskManagerEl "empty"
            (active && Nat.eqb (List.length (stack t')) 0)).

Definition isActive (t : TaskManager) : bool := _active t.

Definition isShown (t : TaskManager) : bool := isActive t.

(** [panToApp(app, immediately)]; [app] may be [null] (from
    [StackManager.getCurrent()]). *)
Definition panToApp (app : option AppWindow) (immediately : bool) : M Promise :=
  t <- this ;;
  let idx :=
    match app with
    | Some a => indexOf (stack t) a
    | None => (-1)%Z
    end in
  let idx := if (idx =? -1)%Z then (Z.of_nat (List.length (stack t)) - 1)%Z else idx in
  let currentPosition := Fin (scrollLeft env) in
  let desiredPosition :=
    match cardWidth t with
    | Some cw => Fin ((cw + CARD_GUTTER) * inject_Z idx)%Q
    | None => NaN
    end in
  if js_num_eq currentPosition desiredPosition then ret PResolved
  else
    emit (ScrollTo desiredPosition (if immediately then "auto" else "smooth")) ;;
    n <- clock ;;
    ret (PTimer (n + 200)).

(** [promise.then(callback)] for the promises of [panToApp]. *)
Definition and_then (p : Promise) (k : Continuation) : M unit :=
  match p with
  | PResolved => await (OnMicrotask k)
  | PTimer deadline => await (OnTimer deadline k)
  | PPending => ret tt
  end.

(** Modelled from the spec: [TaskManagerUtils.waitForScreenToBeReady] is in
    [js/task_manager_utils.js], not among the sources. It returns a promise
    for the screen-orientation and keyboard-dismissal precondition; the
    environment resolves it. *)
Definition waitForScreenToBeReady_then (k : Continuation) : M unit :=
  await (OnScreenReady k).

(** Modelled from the spec: [TaskManagerUtils.waitForAppToClose] is in
    [js/task_manager_utils.js], not among the sources. It returns a promise
    for the close acknowledgment of the replaced window; the environment
    resolves it. *)
Definition waitForAppToClose_then (activeApp : option AppWindow)
  (k : Continuation) : M unit :=
  await (OnAppClosed activeApp k).

(** Modelled from the spec: [eventSafety] is in [shared/js/event_safety.js],
    not among the sources. It runs the callback once, when the event fires
    on the target or when the bounded wait has elapsed, whichever is
    first. *)
Definition eventSafety (target : AppWindow) (name : string)
  (k : Continuation) (timeout : nat) : M Promise :=
  n <- clock ;;
  await (OnEventOrTimeout target name (n + timeout) k) ;;
  ret PPending.

(** [show(opts)]; [opts] is [None] when absent, else the truth value of
    [opts.browserOnly]. *)
Definition show (opts : option bool) : M Promise :=
  t <- this ;;
  if isShown t || _isTransitioning t then ret PResolved
  else
    modify (set_isTransitioning true) ;;
    modify (set_browserOnly (match opts with Some b => b | None => false end)) ;;
    publish "cardviewbeforeshow" None ;;
    waitForScreenToBeReady_then KShowReady ;;
    ret PPending.

(** The first [.then] callback of [show]. *)
Definition show_ready : M unit :=
  emit AddListeners ;;
  updateStack ;;
  panToApp (getCurrent env) true ;;
  setActive true ;;
  let activeApp := getActiveWindow env in
  match activeApp with
  | Some a =>
      if isHomescreen env a then
        emit (AppClose a "home-to-cardview") ;;
        emit (ClassAdd TaskManagerEl "from-home")
      else ret tt
  | None => ret tt
  end ;;
  waitForAppToClose_then activeApp KShowDone.

(** The second [.then] callback of [show]. *)
Definition show_done : M unit :=
  publish "cardviewshown" None ;;
  emit (ClassAdd ScreenEl "cards-view") ;;
  emit (ClassRemove TaskManagerEl "from-home").

Definition or_else {A} (a b : option A) : option A :=
  match a with Some _ => a | None => b end.

(** [hide(newApp, animation)]. *)
Definition hide (newApp : option AppWindow) (animation : option string)
  : M Promise :=
  t <- this ;;
  if negb (isShown t) || _isTransitioning t then ret PResolved
  else
    modify (set_isTransitioning true) ;;
    emit RemoveListeners ;;
    let newApp :=
      or_else newApp (or_else (getActiveWindow env) (getHomescreen env)) in
    let latestStack := snapshot env in
    let newStackPosition :=
      match newApp with
      | Some a => indexOf latestStack a
      | None => (-1)%Z
      end in
    let detail :=
      if (newStackPosition =? -1)%Z then None else Some newStackPosition in
    emit (ClassRemove ScreenEl "cards-view") ;;
    publish "cardviewclosed" detail ;;
    match newApp with
    | None => throw "TypeError: newApp is null"
    | Some a =>
        (if isHomescreen env a then
           emit (ClassAdd TaskManagerEl "to-home") ;;
           emit (AppOpen a "home-from-cardview")
         else
           emit (AppOpen a
                   (match animation with
                    | Some s => if String.eqb s "" then "from-cardview" else s
                    | None => "from-cardview"
                    end))) ;;
        eventSafety a "_opened" KHideTeardown 1000
    end.

(** The [forEach] of the [eventSafety] callback of [hide]. *)
Definition remove_all (l : list AppWindow) : M unit :=
  forEach l (fun app =>
    _removeApp app ;;
    emit (LeaveTaskManager app)).

(** The [eventSafety] callback of [hide]. *)
Definition hide_teardown : M unit :=
  setActive false ;;
  emit (ClassRemove TaskManagerEl "to-home") ;;
  emit (ClassRemove TaskManagerEl "filtered") ;;
  t <- this ;;
  remove_all (stack t).

(** [cardAction(card, actionName)]. *)
Definition cardAction (card : Card) (actionName : string) : M unit :=
  if String.eqb actionName "close" then
    t <- this ;;
    let index := indexOf (stack t) (card_app card) in
    if (1 <? List.length (stack t)) &&
       (index =? Z.of_nat (List.length (stack t)) - 1)%Z then
      p <- panToApp (nth_error (stack t) (List.length (stack t) - 2)) false ;;
      and_then p (KKill (card_app card))
    else emit (Kill (card_app card))
  else if String.eqb actionName "favorite" then emit ConsoleLog
  else if String.eqb actionName "select" then
    p <- panToApp (Some (card_app card)) false ;;
    and_then p (KHide (card_app card))
  else ret tt.

(** ** The event loop *)

Definition run_continuation (k : Continuation) : M unit :=
  match k with
  | KShowReady => show_ready
  | KShowDone => show_done
  | KHideTeardown => hide_teardown
  | KKill a => emit (Kill a)
  | KHide a => hide (Some a) None ;; ret tt
  | KClose card => cardAction card "close"
  end.

(** An exception escaping a callback or a call is reported and the loop
    goes on; the state changes made before it stay. *)
Definition guarded {A} (m : M A) : M unit :=
  fun w =>
    let r := m w in
    match outcome r with
    | Normal _ => mkResult (Normal tt) (world r) (trace r)
    | Throw msg => mkResult (Normal tt) (world r) (trace r ++ [Uncaught msg])
    end.

Fixpoint select_pending (due : Pending -> option Continuation)
  (l : list Pending) : list Continuation * list Pending :=
  match l with
  | [] => ([], [])
  | p :: l' =>
      let (ks, rest) := select_pending due l' in
      match due p with
      | Some k => (k :: ks, rest)
      | None => (ks, p :: rest)
      end
  end.

(** Remove the callbacks that are due from the pending list and run them in
    the order they were registered. *)
Definition fire (due : Pending -> option Continuation) : M unit :=
  fun w =>
    let (ks, rest) := select_pending due (pending w) in
    forEach ks (fun k => guarded (run_continuation k))
      (mkWorld (tm w) rest (now w) (next_ref w)).

Definition is_microtask (p : Pending) : option Continuation :=
  match p with OnMicrotask k => Some k | _ => None end.

Definition is_screen_ready (p : Pending) : option Continuation :=
  match p with OnScreenReady k => Some k | _ => None end.

Definition is_app_closed (p : Pending) : option Continuation :=
  match p with OnAppClosed _ k => Some k | _ => None end.

Definition is_event (target : AppWindow) (name : string) (p : Pending)
  : option Continuation :=
  match p with
  | OnEventOrTimeout t' n' _ k =>
      if Nat.eqb t' target && String.eqb n' name then Some k else None
  | _ => None
  end.

Definition is_due (time : nat) (p : Pending) : option Continuation :=
  match p with
  | OnEventOrTimeout _ _ deadline k =>
      if deadline <=? time then Some k else None
  | OnTimer deadline k => if deadline <=? time then Some k else None
  | _ => None
  end.

Definition advance : M unit :=
  fun w => mkResult (Normal tt)
             (mkWorld (tm w) (pending w) (S (now w)) (next_ref w)) [].

(** What can happen to the task manager: a call of one of its methods or
    the resolution of something it waits for. *)
Inductive Input : Type :=
| CallShow (opts : option bool)
| CallHide (newApp : option AppWindow) (animation : option string)
| CallCardAction (card : Card) (actionName : string)
| CallUpdateStack
| CallUpdateLayout
| CallUpdateScrollPosition
| ScreenReady
| AppClosed
| DomEvent (target : AppWindow) (name : string)
| Tick.

(** The task an input runs. *)
Definition task (i : Input) : M unit :=
  match i with
  | CallShow opts => guarded (show opts)
  | CallHide newApp animation => guarded (hide newApp animation)
  | CallCardAction card actionName => guarded (cardAction card actionName)
  | CallUpdateStack => guarded updateStack
  | CallUpdateLayout => guarded updateLayout
  | CallUpdateScrollPosition => guarded updateScrollPosition
  | ScreenReady => fire is_screen_ready
  | AppClosed => fire is_app_closed
  | DomEvent target name => fire (is_event target name)
  | Tick => advance ;; n <- clock ;; fire (is_due n)
  end.

(** One turn of the event loop: the task, then the microtasks it queued. *)
Definition step (i : Input) : M unit :=
  task i ;; fire is_microtask.

End Methods.

(** A run of the event loop; every input comes with the environment it
    finds. *)
Fixpoint run (inputs : list (Env * Input)) : M unit :=
  match inputs with
  | [] => ret tt
  | (env, i) :: rest => step env i ;; run rest
  end.

Definition initial_world : World := mkWorld new_TaskManager [] 0 0.

(** ** Hierarchy events *)

Section Hierarchy.

Variable env : Env.

(** [respondToHierarchyEvent(evt)], on [evt.type]; the result is the
    boolean returned: [true] keeps the event flowing. *)
Definition respondToHierarchyEvent (type : string) : M bool :=
  t <- this ;;
  if negb (_isTransitioning t) then
    if String.eqb type "home" then
      if isShown t then
        hide env (getHomescreen env) None ;;
        ret false
      else ret true
    else if String.eqb type "holdhome" then
      if negb (isShown t) then
        show None ;;
        ret false
      else ret true
    else ret true
  else ret true.

End Hierarchy.

(** ** The input dispatcher

    [handleEvent] and [openNewSheet] read and write a few things beyond the
    fields above: the time of the last scroll, the [overflowX] style of the
    scroll element, the [empty] class of the task manager's element, the
    and the [display] style of a card's element. They are kept in a record
    around the world. *)

Inductive Overflow : Type :=
| OverflowInitial            (* never assigned *)
| OverflowHidden             (* 'hidden' *)
| OverflowScroll.            (* 'scroll' *)

Record Shell : Type := mkShell {
  core : World;
  _lastScrollTimestamp : option nat;     (* undefined until a scroll *)
  overflowX : Overflow;                  (* scrollElement.style.overflowX *)
  emptyClass : bool;                     (* element.classList has 'empty' *)
  displayNone : list Element             (* elements with display 'none' *)
}.

(** What the dispatcher asks its surroundings. *)
Record ShellEnv : Type := mkShellEnv {
  base : Env;
  dateNow : nat;                         (* Date.now() *)
  killable : AppWindow -> bool;          (* app.killable() *)
  newAppWindow : AppWindow               (* the object new AppWindow(...) returns *)
}.

(** The [empty] class after the class-list operations of a trace. *)
Definition class_step (b : bool) (e : Event) : bool :=
  match e with
  | ClassToggle TaskManagerEl cls force =>
      if String.eqb cls "empty" then force else b
  | ClassAdd TaskManagerEl cls => if String.eqb cls "empty" then true else b
  | ClassRemove TaskManagerEl cls => if String.eqb cls "empty" then false else b
  | _ => b
  end.

Definition class_after (tr : list Event) (b : bool) : bool :=
  fold_left class_step tr b.

Record SResult (A : Type) : Type := mkSResult {
  s_outcome : completion A;
  s_shell : Shell;
  s_trace : list Event
}.

Definition SM (A : Type) : Type := Shell -> SResult A.

Definition sret {A} (a : A) : SM A := fun s => mkSResult (Normal a) s [].

Definition sthrow {A} (msg : string) : SM A :=
  fun s => mkSResult (Throw msg) s [].

Definition sbind {A B} (m : SM A) (f : A -> SM B) : SM B :=
  fun s =>
    let r := m s in
    match s_outcome r with
    | Normal a =>
        let r' := f a (s_shell r) in
        mkSResult (s_outcome r') (s_shell r') (s_trace r ++ s_trace r')
    | Throw msg => mkSResult (Throw msg) (s_shell r) (s_trace r)
    end.

Declare Scope shell_scope.
Delimit Scope shell_scope with shell.
Notation "x <- m ;; k" := (sbind m (fun x => k))
  (at level 61, m at next level, right associativity) : shell_scope.
Notation "m ;; k" := (sbind m (fun _ => k))
  (at level 61, right associativity) : shell_scope.

(** A method of the task manager run from the dispatcher. *)
Definition lift {A} (m : M A) : SM A :=
  fun s =>
    let r := m (core s) in
    mkSResult (outcome r)
      (mkShell (world r) (_lastScrollTimestamp s) (overflowX s)
         (class_after (trace r) (emptyClass s)) (displayNone s))
      (trace r).

Definition sget : SM Shell := fun s => mkSResult (Normal s) s [].

Definition set_lastScrollTimestamp (n : nat) : SM unit :=
  fun s => mkSResult (Normal tt)
             (mkShell (core s) (Some n) (overflowX s) (emptyClass s)
                (displayNone s)) [].

Definition set_overflowX (o : Overflow) : SM unit :=
  fun s => mkSResult (Normal tt)
             (mkShell (core s) (_lastScrollTimestamp s) o (emptyClass s)
                (displayNone s)) [].

Definition hide_element (e : Element) : SM unit :=
  fun s => mkSResult (Normal tt)
             (mkShell (core s) (_lastScrollTimestamp s) (overflowX s)
                (emptyClass s) (e :: displayNone s)) [].

(** The events [handleEvent] receives, with the fields it reads. *)
Inductive ClickTarget : Type :=
| NewSheetButton
| NewPrivateSheetButton
| OtherTarget (closestCard : option Element) (buttonAction : option string).

Inductive Evt : Type :=
| Click (target : ClickTarget)
| Resize
| Scroll
| CardWillDrag (firstTouchTimestamp : nat)
| CardDropped (target : Element) (willKill : bool)
| Wheel (pageMode : bool) (deltaX deltaY : Z)
| LockscreenAppOpened
| AttentionOpened
| AppOpened
| TaskManagerShow (browserOnly : bool)
| AppTerminated
| OtherEvent (type : string).

Section Dispatcher.

Variable senv : ShellEnv.

Local Open Scope shell_scope.

(** [openNewSheet({ isPrivate })]; the flag only selects the configuration
    handed to [new AppWindow]. *)
Definition openNewSheet (isPrivate : bool) : SM unit :=
  let appWindow := newAppWindow senv in
  lift (emit (ClassRemove TaskManagerEl "empty")) ;;
  lift (updateStack (base senv)) ;;
  s <- sget ;;
  match JSMap.get appWindow (appToCardMap (tm (core s))) with
  | Some card =>
      hide_element (card_element card) ;;
      lift (panToApp (base senv) (Some appWindow) false) ;;
      lift (hide (base senv) (Some appWindow) (Some "from-new-card"%string)) ;;
      sret tt
  | None => sthrow "TypeError: card is undefined"
  end.

(** [handleEvent(evt)]; the result tells whether [evt.preventDefault()] was
    called. *)
Definition handleEvent (evt : Evt) : SM bool :=
  match evt with
  | Click target =>
      match target with
      | NewSheetButton => openNewSheet false ;; sret false
      | NewPrivateSheetButton => openNewSheet true ;; sret false
      | OtherTarget closestCard buttonAction =>
          s <- sget ;;
          if emptyClass s then
            lift (hide (base senv) (getHomescreen (base senv)) None) ;;
            sret false
          else
            match closestCard with
            | Some el =>
                match JSMap.get el (elementToCardMap (tm (core s))) with
                | Some card =>
                    lift (cardAction (base senv) card
                            (match buttonAction with
                             | Some a =>
                                 if String.eqb a "" then "select"%string else a
                             | None => "select"%string
                             end)) ;;
                    sret false
                | None => sret false
                end
            | None => sret false
            end
      end
  | Resize => lift (updateLayout (base senv)) ;; sret false
  | Scroll =>
      s <- sget ;;
      match overflowX s with
      | OverflowHidden => sret tt
      | _ => set_lastScrollTimestamp (dateNow senv)
      end ;;
      lift (updateScrollPosition (base senv)) ;;
      sret false
  | CardWillDrag firstTouchTimestamp =>
      s <- sget ;;
      if firstTouchTimestamp <?
         match _lastScrollTimestamp s with Some n => n | None => 0 end
      then sret true
      else set_overflowX OverflowHidden ;; sret false
  | CardDropped target willKill =>
      set_overflowX OverflowScroll ;;
      if willKill then
        s <- sget ;;
        match JSMap.get target (elementToCardMap (tm (core s))) with
        | Some card =>
            (* the wait is on the card's element: its reference stands
               where [hide] passes a window's, the event names differ *)
            lift (eventSafety (card_element card) "transitionend"
                    (KClose card) 400) ;;
            sret false
        | None => sthrow "TypeError: card is undefined"
        end
      else sret false
  | Wheel pageMode deltaX deltaY =>
      s <- sget ;;
      let t := tm (core s) in
      match pageMode, currentCard t with
      | true, JObj current =>
          let currentIndex := indexOf (stack t) (card_app current) in
          if (0 <? deltaY)%Z && killable senv (card_app current) then
            lift (emit (Kill (card_app current)))
          else if (deltaX <? 0)%Z && (1 <=? currentIndex)%Z then
            lift (panToApp (base senv)
                    (nth_error (stack t) (Z.to_nat (currentIndex - 1))) false) ;;
            sret tt
          else if (0 <? deltaX)%Z &&
                  (currentIndex <? Z.of_nat (List.length (stack t)) - 1)%Z then
            lift (panToApp (base senv)
                    (nth_error (stack t) (Z.to_nat (currentIndex + 1))) false) ;;
            sret tt
          else sret tt
      | _, _ => sret tt
      end ;;
      lift (updateScrollPosition (base senv)) ;;
      sret false
  | LockscreenAppOpened | AttentionOpened | AppOpened =>
      lift (hide (base senv) None None) ;; sret false
  | TaskManagerShow browserOnly =>
      lift (show (Some browserOnly)) ;; sret false
  | AppTerminated =>
      lift (updateStack (base senv)) ;;
      s <- sget ;;
      (if Nat.eqb (List.length (stack (tm (core s)))) 0 then
         lift (hide (base senv) None None) ;; sret tt
       else sret tt) ;;
      sret false
  | OtherEvent _ => sret false
  end.

End Dispatcher.

Definition initial_shell : Shell :=
  mkShell initial_world None OverflowInitial false [].

(** ** The event loop around the dispatcher *)

(** An exception escaping [handleEvent] or a callback is reported and the
    loop goes on; the state changes made before it stay. *)
Definition sguarded {A} (m : SM A) : SM unit :=
  fun s =>
    let r := m s in
    match s_outcome r with
    | Normal _ => mkSResult (Normal tt) (s_shell r) (s_trace r)
    | Throw msg =>
        mkSResult (Normal tt) (s_shell r) (s_trace r ++ [Uncaught msg])
    end.

(** What happens to the switcher: an event is delivered to [handleEvent],
    or the task manager's own event loop takes a turn (a call, a promise
    resolution, an event on a window or an element, a timer tick). *)
Inductive Happening : Type :=
| Handled (evt : Evt)
| Turn (i : Input).

Section Happenings.

Variable senv : ShellEnv.

Local Open Scope shell_scope.

(** One turn: the task, then the microtasks it queued. *)
Definition happen (h : Happening) : SM unit :=
  match h with
  | Handled evt =>
      sguarded (handleEvent senv evt) ;;
      lift (fire (base senv) is_microtask)
  | Turn i => lift (step (base senv) i)
  end.

End Happenings.

Local Open Scope shell_scope.

(** A sequence of happenings, each with the surroundings it finds. *)
Fixpoint play (l : list (ShellEnv * Happening)) : SM unit :=
  match l with
  | [] => sret tt
  | (senv, h) :: rest => happen senv h ;; play rest
  end.

Local Close Scope shell_scope.

(** ** The loader of the mail backend ([define('api', ...)]) *)

Module Api.

(** The module's state: the [callback] variable and [exports.MailAPI];
    callbacks and the backend object are known by a reference. *)
Record State : Type := mkState {
  callback : option nat;       (* undefined until whenLoaded *)
  MailAPI : option nat         (* null until loaded *)
}.

(** The module body up to the asynchronous load. *)
Definition init : State := mkState None None.

(** [exports.whenLoaded(cb)]. *)
Definition whenLoaded (cb : nat) (s : State) : State :=
  mkState (Some cb) (MailAPI s).

(** The function handed to [GelamLoader.loadMailAPI]: it stores the backend
    and calls the callback, if there is one; the result lists the calls
    made, as (callback, argument). *)
Definition loaded (api : nat) (s : State) : State * list (nat * nat) :=
  (mkState (callback s) (Some api),
   match callback s with
   | Some cb => [(cb, api)]
   | None => []
   end).

Inductive Action : Type :=
| WhenLoaded (cb : nat)
| Loaded (api : nat).

Definition act (a : Action) (s : State) : State * list (nat * nat) :=
  match a with
  | WhenLoaded cb => (whenLoaded cb s, [])
  | Loaded api => loaded api s
  end.

Fixpoint run (l : list Action) (s : State) : State * list (nat * nat) :=
  match l with
  | [] => (s, [])
  | a :: l' =>
      let (s1, c1) := act a s in
      let (s2, c2) := run l' s1 in
      (s2, c1 ++ c2)
  end.

End Api.

(** ** Vocabulary of the properties *)

(** The stack [updateStack] keeps: the snapshot, filtered when
    [_browserOnly] is set. *)
Definition latest_stack (env : Env) (browserOnly : bool) : list AppWindow :=
  if browserOnly then
    filter (fun app => isBrowser env app || hasSearchRole env app)
           (snapshot env)
  else snapshot env.

Definition with_maps (m em : JSMap.t Card) (t : TaskManager) : TaskManager :=
  set_elementToCardMap em (set_appToCardMap m t).

Definition with_tm (t : TaskManager) (w : World) : World :=
  mkWorld t (pending w) (now w) (next_ref w).

(** The windows told that they entered, resp. left, the switcher. *)
Fixpoint entered (tr : list Event) : list AppWindow :=
  match tr with
  | [] => []
  | EnterTaskManager a :: tr' => a :: entered tr'
  | _ :: tr' => entered tr'
  end.

Fixpoint left_ (tr : list Event) : list AppWindow :=
  match tr with
  | [] => []
  | LeaveTaskManager a :: tr' => a :: left_ tr'
  | _ :: tr' => left_ tr'
  end.

(** The windows a card was created for. *)
Fixpoint created (tr : list Event) : list AppWindow :=
  match tr with
  | [] => []
  | CardCreated c :: tr' => card_app c :: created tr'
  | _ :: tr' => created tr'
  end.

(** Effects on the card collection and on the windows' lifecycle. *)
Definition is_collection_effect (e : Event) : bool :=
  match e with
  | CardCreated _ | AppendChild _ | RemoveChild _
  | EnterTaskManager _ | LeaveTaskManager _ => true
  | _ => false
  end.

Definition is_attribute_write (e : Event) : bool :=
  match e with
  | SetAttribute _ _ _ => true
  | _ => false
  end.

Definition is_removal (e : Event) : bool :=
  match e with
  | RemoveChild _ => true
  | _ => false
  end.

Definition is_published (type : string) (e : Event) : bool :=
  match e with
  | Publish type' _ => String.eqb type' type
  | _ => false
  end.

Definition count_published (type : string) (tr : list Event) : nat :=
  List.length (filter (is_published type) tr).

Definition is_kill (e : Event) : bool :=
  match e with
  | Kill _ => true
  | _ => false
  end.

Definition is_scroll (e : Event) : bool :=
  match e with
  | ScrollTo _ _ => true
  | _ => false
  end.

(** [clamp(x, lo, hi)]. *)
Definition clamp (x lo hi : Z) : Z := Z.max lo (Z.min x hi).

(** Every window of the stack has a card. *)
Definition stack_covered (t : TaskManager) : Prop :=
  forall a, In a (stack t) -> JSMap.get a (appToCardMap t) <> None.

Definition show_calls (l : list (Env * option bool)) : list (Env * Input) :=
  map (fun c => (fst c, CallShow (snd c))) l.

Definition ticks (env : Env) (n : nat) : list (Env * Input) :=
  repeat (env, Tick) n.

(** ** Sample inputs *)

Definition sample_env (apps : list AppWindow) (width : Z) (scroll : Q) : Env :=
  {| snapshot := apps;
     getCurrent := None;
     isBrowser := fun _ => false;
     hasSearchRole := fun _ => false;
     isHomescreen := fun _ => false;
     getActiveWindow := None;
     getHomescreen := None;
     innerWidth := width;
     innerHeight := 480;
     scrollLeft := scroll |}.

(** Three windows in a 320x480 viewport, after one [updateStack]. *)
Definition three_cards : World :=
  Eval vm_compute in
    world (updateStack (sample_env [1; 2; 3] 320 0%Q) initial_world).

(** What the first loop of [updateStack] leaves of the map [m] after
    visiting the entries [es]. *)
Definition prune (latest : list AppWindow) (es m : JSMap.t Card) : JSMap.t Card :=
  fold_left
    (fun m e => if set_has (fst e) latest then m else JSMap.delete (fst e) m)
    es m.

(** The elements taken out of the card list. *)
Fixpoint removed (tr : list Event) : list Element :=
  match tr with
  | [] => []
  | RemoveChild e :: tr' => e :: removed tr'
  | _ :: tr' => removed tr'
  end.

(** The [translate] calls and the widths written by a layout pass. *)
Fixpoint translates (tr : list Event) : list (Card * Q) :=
  match tr with
  | [] => []
  | Translate c x :: tr' => (c, x) :: translates tr'
  | _ :: tr' => translates tr'
  end.

Fixpoint widths (tr : list Event) : list Q :=
  match tr with
  | [] => []
  | SetWidth x :: tr' => x :: widths tr'
  | _ :: tr' => widths tr'
  end.

(** The cards of the windows [l] in the map [m], in order. *)
Definition cards_of (m : JSMap.t Card) (l : list AppWindow) (cards : list Card)
  : Prop :=
  Forall2 (fun a c => JSMap.get a m = Some c) l cards.

(** The writes of a layout pass. *)
Definition is_layout_effect (e : Event) : bool :=
  match e with
  | Translate _ _ | SetWidth _ | SetAttribute _ _ _ => true
  | _ => false
  end.

(** The task manager mirrors the environment: a further [updateStack] finds
    nothing to do. *)
Definition synchronized (env : Env) (t : TaskManager) : Prop :=
  stack t = latest_stack env (_browserOnly t) /\
  (forall a, In a (JSMap.keys (appToCardMap t)) <-> In a (stack t)) /\
  cardWidth t = Some (layout_cardWidth env) /\
  cardHeight t = Some (layout_cardHeight env) /\
  ref_same (currentCard t) (computed_currentCard env t) = true.

(** What the teardown of [hide] leaves of the map [m]. *)
Definition delete_all (l : list AppWindow) (m : JSMap.t Card) : JSMap.t Card :=
  fold_left (fun m a => JSMap.delete a m) l m.

(** A computation whose effects all satisfy [P], whatever the state. *)
Definition emits_only {A} (P : Event -> bool) (m : M A) : Prop :=
  forall w, forallb P (trace (m w)) = true.

Definition not_published (type : string) (e : Event) : bool :=
  negb (is_published type e).

(** The position [panToApp] scrolls to. *)
Definition pan_target (env : Env) (t : TaskManager) (app : option AppWindow)
  : jsnum :=
  let idx := match app with
             | Some a => indexOf (stack t) a
             | None => (-1)%Z
             end in
  let idx := if (idx =? -1)%Z then (Z.of_nat (List.length (stack t)) - 1)%Z
             else idx in
  match cardWidth t with
  | Some cw => Fin ((cw + CARD_GUTTER) * inject_Z idx)%Q
  | None => NaN
  end.

(** The window [hide] returns to. *)
Definition hide_target (env : Env) (newApp : option AppWindow)
  : option AppWindow :=
  or_else newApp (or_else (getActiveWindow env) (getHomescreen env)).

Definition no_microtask (l : list Pending) : Prop :=
  forall p, In p l -> is_microtask p = None.

Definition with_now (n : nat) (w : World) : World :=
  mkWorld (tm w) (pending w) n (next_ref w).

Definition with_pending (l : list Pending) (w : World) : World :=
  mkWorld (tm w) l (now w) (next_ref w).

(** The switcher shown with three cards: [show], then the screen gets
    ready and the replaced window closes. *)
Definition shown_three : World :=
  Eval vm_compute in
    let env := sample_env [1; 2; 3] 320 0%Q in
    world (run [(env, CallShow None); (env, ScreenReady); (env, AppClosed)]
             initial_world).

(** ** Vocabulary of the lifecycle properties *)

Definition continuation_of (p : Pending) : Continuation :=
  match p with
  | OnScreenReady k => k
  | OnAppClosed _ k => k
  | OnEventOrTimeout _ _ _ k => k
  | OnTimer _ k => k
  | OnMicrotask k => k
  end.

(** No teardown of [hide] is waiting to run. *)
Definition teardown_free (l : list Pending) : Prop :=
  forall p, In p l -> continuation_of p <> KHideTeardown.

(** Shown, with the transition flag set and no teardown to come. *)
Definition stuck (w : World) : Prop :=
  _active (tm w) = true /\
  _isTransitioning (tm w) = true /\
  teardown_free (pending w).

(** Effects that do not belong to a teardown. *)
Definition not_teardown_effect (e : Event) : bool :=
  match e with
  | LeaveTaskManager _ => false
  | Publish type _ => negb (String.eqb type "taskmanager-deactivated")
  | _ => true
  end.

(** A computation that keeps a stuck switcher stuck. *)
Definition keeps_stuck {A} (m : M A) : Prop :=
  forall w, stuck w ->
    stuck (world (m w)) /\ forallb not_teardown_effect (trace (m w)) = true.

(** The selection of callbacks hands out the callback registered. *)
Definition selects_registered (due : Pending -> option Continuation) : Prop :=
  forall p k, due p = Some k -> k = continuation_of p.

(** The outcome of a completed [hide] started in the world [w0]: hidden, no
    transition in flight, nothing pending, every window of the stack told
    once that it left, and none of them with a card any more. *)
Definition torn_down (w0 : World) (r : Result unit) : Prop :=
  _active (tm (world r)) = false /\
  _isTransitioning (tm (world r)) = false /\
  pending (world r) = [] /\
  left_ (trace r) = stack (tm w0) /\
  (forall x, In x (stack (tm w0)) ->
             JSMap.get x (appToCardMap (tm (world r))) = None).

(** The teardown of [hide] up to the removal of the record of [a]: the
    windows [before] it in the stack have been dealt with, [a] has been
    handed to [_removeApp] and has not been notified yet. *)
Definition teardown_until (before : list AppWindow) (a : AppWindow) : M unit :=
  setActive false ;;
  emit (ClassRemove TaskManagerEl "to-home") ;;
  emit (ClassRemove TaskManagerEl "filtered") ;;
  remove_all before ;;
  _removeApp a.

(** Effects that do not expose a card to the screen reader: every write of
    [aria-hidden] writes [true]. *)
Definition hides_card (e : Event) : bool :=
  match e with
  | SetAttribute _ name v =>
      if String.eqb name "aria-hidden"
      then match v with AttrBool b => b | AttrNum _ => false end
      else true
  | _ => true
  end.

(** ** Vocabulary of the dispatcher properties *)

(** The app map and the element map hold the same cards: a window's card
    is found under its own element and an element's card under its own
    window; every element in use was allocated. *)
Definition maps_in_step (w : World) : Prop :=
  (forall a c, JSMap.get a (appToCardMap (tm w)) = Some c ->
     card_app c = a /\
     JSMap.get (card_element c) (elementToCardMap (tm w)) = Some c) /\
  (forall e c, JSMap.get e (elementToCardMap (tm w)) = Some c ->
     card_element c = e /\
     JSMap.get (card_app c) (appToCardMap (tm w)) = Some c) /\
  (forall e, In e (JSMap.keys (elementToCardMap (tm w))) -> e < next_ref w).

(** A computation that keeps the property [I] of the world. *)
Definition keeps (I : World -> Prop) {A} (m : M A) : Prop :=
  forall w, I w -> I (world (m w)).

(** Class-list operations that leave the [empty] class alone. *)
Definition keeps_empty_class (e : Event) : bool :=
  match e with
  | ClassToggle TaskManagerEl cls _ => negb (String.eqb cls "empty")
  | ClassAdd TaskManagerEl cls => negb (String.eqb cls "empty")
  | ClassRemove TaskManagerEl cls => negb (String.eqb cls "empty")
  | _ => true
  end.

(** The name of the action a click on a card asks for:
    [evt.target.dataset.buttonAction || 'select']. *)
Definition action_name (buttonAction : option string) : string :=
  match buttonAction with
  | Some a => if String.eqb a "" then "select"%string else a
  | None => "select"%string
  end.

Definition sample_shell_env (env : Env) : ShellEnv :=
  mkShellEnv env 50 (fun _ => true) 4.

(** A dispatcher computation that keeps the property [I] of its state. *)
Definition skeeps (I : Shell -> Prop) {A} (m : SM A) : Prop :=
  forall s, I s -> I (s_shell (m s)).

Definition is_drop (h : Happening) : bool :=
  match h with
  | Handled (CardDropped _ _) => true
  | _ => false
  end.

(** [this._lastScrollTimestamp || 0]. *)
Definition scroll_clock (s : Shell) : nat :=
  match _lastScrollTimestamp s with Some n => n | None => 0 end.

(** The maps of the dispatcher's task manager are in step. *)
Definition core_in_step (s : Shell) : Prop := maps_in_step (core s).

(** A drag in progress: scrolling is switched off and the time of the last
    scroll is [t0]. *)
Definition dragging (t0 : option nat) (s : Shell) : Prop :=
  overflowX s = OverflowHidden /\ _lastScrollTimestamp s = t0.

Definition is_app_open (e : Event) : bool :=
  match e with AppOpen _ _ => true | _ => false end.

(** The animation [hide] opens the window [a] with. *)
Definition open_animation (env : Env) (a : AppWindow)
  (animation : option string) : string :=
  if isHomescreen env a then "home-from-cardview"%string
  else match animation with
       | Some s => if String.eqb s "" then "from-cardview"%string else s
       | None => "from-cardview"%string
       end.

(** Turns of the task manager's own event loop, as happenings. *)
Definition turns (senv : ShellEnv) (inputs : list Input)
  : list (ShellEnv * Happening) :=
  map (fun i => (senv, Turn i)) inputs.

Definition inputs_in (env : Env) (inputs : list Input) : list (Env * Input) :=
  map (fun i => (env, i)) inputs.

(** The time the pan of a [close] takes before the window is killed: the
    card is the last of several and the list is not yet at the card before
    it. *)
Definition close_delay (env : Env) (t : TaskManager) (a : AppWindow) : nat :=
  if (1 <? List.length (stack t)) &&
     (indexOf (stack t) a =? Z.of_nat (List.length (stack t)) - 1)%Z &&
     negb (js_num_eq (Fin (scrollLeft env))
             (pan_target env t
                (nth_error (stack t) (List.length (stack t) - 2))))
  then 200 else 0.

(** The dispatcher around the switcher shown with three cards. *)
Definition shown_shell : Shell :=
  mkShell shown_three None OverflowInitial false [].

(** The switcher is marked empty only while it is active. *)
Definition empty_only_active (s : Shell) : Prop :=
  emptyClass s = true -> _active (tm (core s)) = true.

(** A computation after which the [empty] class is set only if the switcher
    is active, provided this was so before. *)
Definition marks_rightly {A} (m : M A) : Prop :=
  forall w b,
    (b = true -> _active (tm w) = true) ->
    class_after (trace (m w)) b = true -> _active (tm (world (m w))) = true.

(** Effects that do not set the [empty] class. *)
Definition never_marks (e : Event) : bool :=
  match e with
  | ClassToggle TaskManagerEl cls _ => negb (String.eqb cls "empty")
  | ClassAdd TaskManagerEl cls => negb (String.eqb cls "empty")
  | _ => true
  end.

(** The cards created carry the screenshot flag [b]. *)
Definition created_with (b : bool) (e : Event) : bool :=
  match e with
  | CardCreated c => Bool.eqb (card_disableScreenshots c) b
  | _ => true
  end.

(** A computation that leaves the screenshot setting [b] alone and creates
    cards with it only. *)
Definition follows_setting (b : bool) {A} (m : M A) : Prop :=
  forall w, disableScreenshots (tm w) = b ->
    disableScreenshots (tm (world (m w))) = b /\
    forallb (created_with b) (trace (m w)) = true.

Definition sfollows_setting (b : bool) {A} (m : SM A) : Prop :=
  forall s, disableScreenshots (tm (core s)) = b ->
    disableScreenshots (tm (core (s_shell (m s)))) = b /\
    forallb (created_with b) (s_trace (m s)) = true.

(** The dispatcher state after [setScreenshotSetting(useScreenshots)]. *)
Definition with_screenshot_setting (useScreenshots : bool) (s : Shell) : Shell :=
  mkShell (world (setScreenshotSetting useScreenshots (core s)))
    (_lastScrollTimestamp s) (overflowX s) (emptyClass s) (displayNone s).

(** * Properties *)

Unset Implicit Arguments.

(** ** Maps and sets *)

Section MapFacts.
Variable V : Type.
Implicit Types (m : JSMap.t V) (k : nat) (v : V).

Lemma get_In_keys k v m : JSMap.get k m = Some v -> In k (JSMap.keys m).
Proof.
  induction m as [|[k' v'] m IH]; simpl; [discriminate|].
  destruct (Nat.eqb_spec k k'); auto.
Qed.

Lemma get_None_keys k m : JSMap.get k m = None <-> ~ In k (JSMap.keys m).
Proof.
  induction m as [|[k' v'] m IH]; simpl; [tauto|].
  destruct (Nat.eqb_spec k k') as [->|Hne].
  - split; [discriminate | tauto].
  - rewrite IH. intuition congruence.
Qed.

Lemma get_Some_keys k m :
  In k (JSMap.keys m) <-> exists v, JSMap.get k m = Some v.
Proof.
  split.
  - intros Hin. destruct (JSMap.get k m) eqn:E; eauto.
    apply get_None_keys in E. contradiction.
  - intros [v Hv]. eapply get_In_keys; eauto.
Qed.

Lemma keys_set k v m :
  JSMap.keys (JSMap.set k v m) =
  if JSMap.has k m then JSMap.keys m else JSMap.keys m ++ [k].
Proof.
  unfold JSMap.has.
  induction m as [|[k' v'] m IH]; simpl; [reflexivity|].
  destruct (Nat.eqb_spec k k') as [->|Hne]; simpl; [reflexivity|].
  rewrite IH. destruct (JSMap.get k m); reflexivity.
Qed.

Lemma In_keys_set k' k v m :
  In k' (JSMap.keys (JSMap.set k v m)) <-> k' = k \/ In k' (JSMap.keys m).
Proof.
  rewrite keys_set. unfold JSMap.has.
  destruct (JSMap.get k m) eqn:E.
  - apply get_In_keys in E. intuition congruence.
  - rewrite in_app_iff. simpl. intuition.
Qed.

Lemma get_set_same k v m : JSMap.get k (JSMap.set k v m) = Some v.
Proof.
  induction m as [|[k' v'] m IH]; simpl.
  - now rewrite Nat.eqb_refl.
  - destruct (Nat.eqb_spec k k') as [->|Hne]; simpl.
    + now rewrite Nat.eqb_refl.
    + destruct (Nat.eqb_spec k k'); [contradiction | exact IH].
Qed.

Lemma get_set_other k' k v m :
  k' <> k -> JSMap.get k' (JSMap.set k v m) = JSMap.get k' m.
Proof.
  intros Hne.
  induction m as [|[k0 v0] m IH]; simpl.
  - destruct (Nat.eqb_spec k' k); [contradiction | reflexivity].
  - destruct (Nat.eqb_spec k k0) as [->|Hne0]; simpl.
    + destruct (Nat.eqb_spec k' k0); [contradiction | reflexivity].
    + destruct (Nat.eqb_spec k' k0); [reflexivity | exact IH].
Qed.

Lemma wf_set k v m : JSMap.wf m -> JSMap.wf (JSMap.set k v m).
Proof.
  unfold JSMap.wf. intros Hwf. rewrite keys_set. unfold JSMap.has.
  destruct (JSMap.get k m) eqn:E; [exact Hwf|].
  apply get_None_keys in E.
  apply NoDup_app; [exact Hwf | repeat constructor; simpl; tauto |].
  intros x Hx [<-|[]]. contradiction.
Qed.

Lemma keys_delete k m :
  JSMap.keys (JSMap.delete k m) =
  filter (fun x => negb (Nat.eqb x k)) (JSMap.keys m).
Proof.
  unfold JSMap.delete, JSMap.keys.
  induction m as [|[k' v'] m IH]; simpl; [reflexivity|].
  destruct (Nat.eqb k' k); simpl; now rewrite IH.
Qed.

Lemma In_keys_delete k' k m :
  In k' (JSMap.keys (JSMap.delete k m)) <-> In k' (JSMap.keys m) /\ k' <> k.
Proof.
  rewrite keys_delete, filter_In, negb_true_iff, Nat.eqb_neq. tauto.
Qed.

Lemma wf_delete k m : JSMap.wf m -> JSMap.wf (JSMap.delete k m).
Proof.
  unfold JSMap.wf. rewrite keys_delete. apply NoDup_filter.
Qed.

Lemma get_delete_other k' k m :
  k' <> k -> JSMap.get k' (JSMap.delete k m) = JSMap.get k' m.
Proof.
  intros Hne. unfold JSMap.delete.
  induction m as [|[k0 v0] m IH]; simpl; [reflexivity|].
  destruct (Nat.eqb_spec k0 k) as [->|Hne0]; simpl.
  - destruct (Nat.eqb_spec k' k); [contradiction | exact IH].
  - destruct (Nat.eqb_spec k' k0); [reflexivity | exact IH].
Qed.

Lemma get_delete_same k m : JSMap.get k (JSMap.delete k m) = None.
Proof.
  apply get_None_keys. rewrite In_keys_delete. tauto.
Qed.

Lemma delete_absent k m : JSMap.get k m = None -> JSMap.delete k m = m.
Proof.
  unfold JSMap.delete.
  induction m as [|[k0 v0] m IH]; simpl; [reflexivity|].
  destruct (Nat.eqb_spec k k0) as [->|Hne]; [discriminate|].
  intros H. destruct (Nat.eqb_spec k0 k); [congruence|].
  simpl. now rewrite IH.
Qed.

End MapFacts.

Lemma set_has_In x l : set_has x l = true <-> In x l.
Proof.
  unfold set_has. rewrite existsb_exists. split.
  - intros [y [Hy Heq]]. apply Nat.eqb_eq in Heq. now subst.
  - intros H. exists x. split; [exact H | apply Nat.eqb_refl].
Qed.

Lemma set_has_false x l : set_has x l = false <-> ~ In x l.
Proof.
  rewrite <- set_has_In. destruct (set_has x l); intuition congruence.
Qed.

(** ** Running computations *)

Lemma bind_normal {A B} (m : M A) (f : A -> M B) w a w1 t1 :
  m w = mkResult (Normal a) w1 t1 ->
  bind m f w =
  mkResult (outcome (f a w1)) (world (f a w1)) (t1 ++ trace (f a w1)).
Proof. intros H. unfold bind. now rewrite H. Qed.

Lemma bind_throw {A B} (m : M A) (f : A -> M B) w msg w1 t1 :
  m w = mkResult (Throw msg) w1 t1 ->
  bind m f w = mkResult (Throw msg) w1 t1.
Proof. intros H. unfold bind. now rewrite H. Qed.

Lemma bind_runs {A B} (m : M A) (f : A -> M B) w a w1 t1 b w2 t2 :
  m w = mkResult (Normal a) w1 t1 ->
  f a w1 = mkResult (Normal b) w2 t2 ->
  bind m f w = mkResult (Normal b) w2 (t1 ++ t2).
Proof. intros H1 H2. unfold bind. rewrite H1. simpl. rewrite H2. reflexivity. Qed.

Lemma bind_this {B} (f : TaskManager -> M B) w : bind this f w = f (tm w) w.
Proof. unfold bind, this. cbn [outcome world trace app]. now destruct (f (tm w) w). Qed.

Lemma forEach_cons {A} (x : A) l f :
  forEach (x :: l) f = bind (f x) (fun _ => forEach l f).
Proof. reflexivity. Qed.

(** Record eta for the task manager and the world. *)
Lemma with_maps_id t : with_maps (appToCardMap t) (elementToCardMap t) t = t.
Proof. now destruct t. Qed.

Lemma with_tm_id w : with_tm (tm w) w = w.
Proof. now destruct w. Qed.

Lemma set_stack_id t : set_stack (stack t) t = t.
Proof. now destruct t. Qed.

Lemma set_currentCard_id t : set_currentCard (currentCard t) t = t.
Proof. now destruct t. Qed.

Lemma set_cardSize_id t cw ch :
  cardWidth t = Some cw -> cardHeight t = Some ch -> set_cardSize cw ch t = t.
Proof. destruct t; simpl; intros -> ->; reflexivity. Qed.

(** Observers of traces distribute over concatenation. *)
Lemma entered_app t1 t2 : entered (t1 ++ t2) = entered t1 ++ entered t2.
Proof.
  induction t1 as [|e t1 IH]; simpl; [reflexivity|].
  destruct e; simpl; rewrite ?IH; reflexivity.
Qed.

Lemma left_app t1 t2 : left_ (t1 ++ t2) = left_ t1 ++ left_ t2.
Proof.
  induction t1 as [|e t1 IH]; simpl; [reflexivity|].
  destruct e; simpl; rewrite ?IH; reflexivity.
Qed.

Lemma created_app t1 t2 : created (t1 ++ t2) = created t1 ++ created t2.
Proof.
  induction t1 as [|e t1 IH]; simpl; [reflexivity|].
  destruct e; simpl; rewrite ?IH; reflexivity.
Qed.

Lemma removed_app t1 t2 : removed (t1 ++ t2) = removed t1 ++ removed t2.
Proof.
  induction t1 as [|e t1 IH]; simpl; [reflexivity|].
  destruct e; simpl; rewrite ?IH; reflexivity.
Qed.

(** A trace of one kind of event shows nothing to the other observers. *)
Lemma only_removals tr :
  forallb is_removal tr = true ->
  entered tr = [] /\ left_ tr = [] /\ created tr = [].
Proof.
  induction tr as [|e tr IH]; simpl; [auto|].
  destruct e; simpl; try discriminate. exact IH.
Qed.

Lemma no_collection_effect tr :
  filter is_collection_effect tr = [] ->
  entered tr = [] /\ left_ tr = [] /\ created tr = [] /\ removed tr = [].
Proof.
  induction tr as [|e tr IH]; simpl; [auto|].
  destruct e; simpl; try discriminate; exact IH.
Qed.

(** ** [_removeApp] and the first loop of [updateStack] *)

Lemma _removeApp_absent app w :
  JSMap.get app (appToCardMap (tm w)) = None ->
  _removeApp app w = mkResult (Normal tt) w [].
Proof.
  intros H. unfold _removeApp, bind, this. simpl. rewrite H. reflexivity.
Qed.

Lemma _removeApp_present app card w :
  JSMap.get app (appToCardMap (tm w)) = Some card ->
  _removeApp app w =
  mkResult (Normal tt)
    (with_tm (with_maps (JSMap.delete app (appToCardMap (tm w)))
                (JSMap.delete (card_element card) (elementToCardMap (tm w)))
                (tm w)) w)
    [RemoveChild (card_element card)].
Proof.
  intros H. unfold _removeApp, bind, this. simpl. rewrite H. reflexivity.
Qed.

Lemma _removeApp_run app w :
  exists em tr,
    _removeApp app w =
    mkResult (Normal tt)
      (with_tm (with_maps (JSMap.delete app (appToCardMap (tm w))) em (tm w)) w)
      tr /\
    forallb is_removal tr = true /\
    (forall e, In e (removed tr) ->
       exists c, JSMap.get app (appToCardMap (tm w)) = Some c /\
                 e = card_element c).
Proof.
  destruct (JSMap.get app (appToCardMap (tm w))) as [card|] eqn:E.
  - eexists _, _. split; [apply (_removeApp_present _ _ _ E)|].
    split; [reflexivity|]. simpl. intros e [<-|[]]. eauto.
  - exists (elementToCardMap (tm w)), []. rewrite (_removeApp_absent _ _ E).
    rewrite (delete_absent _ _ _ E), with_maps_id, with_tm_id.
    split; [reflexivity|]. split; [reflexivity|]. intros e [].
Qed.

Lemma remove_stale_run latest es : forall w,
  exists em tr,
    remove_stale latest es w =
    mkResult (Normal tt)
      (with_tm (with_maps (prune latest es (appToCardMap (tm w))) em (tm w)) w)
      tr /\
    forallb is_removal tr = true /\
    (forall e, In e (removed tr) ->
       exists a c, JSMap.get a (appToCardMap (tm w)) = Some c /\
                   e = card_element c /\ ~ In a latest).
Proof.
  induction es as [|[a c] es IH]; intros w.
  - exists (elementToCardMap (tm w)), []. unfold remove_stale, prune. simpl.
    rewrite with_maps_id, with_tm_id. unfold ret.
    split; [reflexivity|]. split; [reflexivity|]. intros e [].
  - unfold remove_stale. rewrite forEach_cons. fold (remove_stale latest es).
    unfold prune. simpl fold_left. simpl fst. fold (prune latest es).
    destruct (set_has a latest) eqn:Hin; simpl negb; cbv iota.
    + destruct (IH w) as (em & tr & Hrun & Htr & Hrem).
      exists em, tr. split; [|auto].
      erewrite bind_runs; [ | reflexivity | exact Hrun]. reflexivity.
    + destruct (_removeApp_run a w) as (em1 & tr1 & Hrun1 & Htr1 & Hrem1).
      destruct (IH (with_tm (with_maps (JSMap.delete a (appToCardMap (tm w)))
                              em1 (tm w)) w))
        as (em & tr & Hrun & Htr & Hrem).
      exists em, (tr1 ++ tr). split; [|split].
      * erewrite bind_runs; [ | exact Hrun1 | exact Hrun]. reflexivity.
      * rewrite forallb_app, Htr1, Htr. reflexivity.
      * intros e. rewrite removed_app, in_app_iff. intros [He|He].
        -- destruct (Hrem1 e He) as (c' & Hc' & ->).
           exists a, c'. apply set_has_false in Hin. auto.
        -- destruct (Hrem e He) as (a' & c' & Hc' & -> & Hn).
           exists a', c'. simpl in Hc'. split; [|auto].
           destruct (Nat.eq_dec a' a) as [->|Hne].
           ++ now rewrite get_delete_same in Hc'.
           ++ now rewrite get_delete_other in Hc'.
Qed.

Lemma prune_get latest es : forall m a,
  In a latest -> JSMap.get a (prune latest es m) = JSMap.get a m.
Proof.
  unfold prune. induction es as [|[k c] es IH]; intros m a Ha; simpl.
  - reflexivity.
  - destruct (set_has k latest) eqn:Hk; [now apply IH|].
    rewrite IH by exact Ha. apply get_delete_other.
    intros ->. apply set_has_false in Hk. contradiction.
Qed.

Lemma prune_keys latest es : forall m a,
  In a (JSMap.keys (prune latest es m)) <->
  In a (JSMap.keys m) /\ (In a latest \/ ~ In a (JSMap.keys es)).
Proof.
  unfold prune. induction es as [|[k c] es IH]; intros m a; simpl.
  - tauto.
  - destruct (set_has k latest) eqn:Hk.
    + apply set_has_In in Hk. rewrite IH.
      destruct (Nat.eq_dec k a) as [->|Hne]; [tauto|]. tauto.
    + apply set_has_false in Hk. rewrite IH, In_keys_delete.
      destruct (Nat.eq_dec k a) as [->|Hne]; [tauto|].
      intuition congruence.
Qed.

Lemma prune_wf latest es : forall m,
  JSMap.wf m -> JSMap.wf (prune latest es m).
Proof.
  unfold prune. induction es as [|[k c] es IH]; intros m Hwf; simpl.
  - exact Hwf.
  - destruct (set_has k latest); apply IH; [exact Hwf|].
    now apply wf_delete.
Qed.

Lemma prune_id latest es : forall m,
  (forall a, In a (JSMap.keys es) -> In a latest) -> prune latest es m = m.
Proof.
  unfold prune. induction es as [|[k c] es IH]; intros m H; simpl.
  - reflexivity.
  - assert (Hk : set_has k latest = true) by (apply set_has_In, H; simpl; auto).
    rewrite Hk. apply IH. intros a Ha. apply H. simpl. auto.
Qed.

Lemma remove_stale_noop latest es : forall w,
  (forall a, In a (JSMap.keys es) -> In a latest) ->
  remove_stale latest es w = mkResult (Normal tt) w [].
Proof.
  induction es as [|[k c] es IH]; intros w H.
  - reflexivity.
  - unfold remove_stale. rewrite forEach_cons. fold (remove_stale latest es).
    assert (Hk : set_has k latest = true) by (apply set_has_In, H; simpl; auto).
    simpl fst. rewrite Hk. simpl negb. cbv iota.
    erewrite bind_runs; [ | reflexivity | apply IH ]; [reflexivity|].
    intros a Ha. apply H. simpl. auto.
Qed.

(** ** [_addApp] and the second loop of [updateStack] *)

Lemma _addApp_run app w :
  let card := mkCard (next_ref w) app (next_ref w) (disableScreenshots (tm w)) in
  _addApp app w =
  mkResult (Normal card)
    (mkWorld
       (with_maps (JSMap.set app card (appToCardMap (tm w)))
          (JSMap.set (card_element card) card (elementToCardMap (tm w)))
          (tm w))
       (pending w) (now w) (S (next_ref w)))
    [CardCreated card; AppendChild (card_element card)].
Proof. reflexivity. Qed.

Lemma add_missing_run l : forall w,
  exists m em n tr,
    add_missing l w =
    mkResult (Normal tt)
      (mkWorld (with_maps m em (tm w)) (pending w) (now w) n) tr /\
    (forall a, In a (JSMap.keys m) <->
               In a (JSMap.keys (appToCardMap (tm w))) \/ In a l) /\
    (forall a c, JSMap.get a (appToCardMap (tm w)) = Some c ->
                 JSMap.get a m = Some c) /\
    (JSMap.wf (appToCardMap (tm w)) -> JSMap.wf m) /\
    created tr = entered tr /\ left_ tr = [] /\ removed tr = [] /\
    NoDup (entered tr) /\
    (forall a, In a (entered tr) <->
               In a l /\ ~ In a (JSMap.keys (appToCardMap (tm w)))).
Proof.
  induction l as [|a l IH]; intros w.
  - exists (appToCardMap (tm w)), (elementToCardMap (tm w)), (next_ref w), [].
    unfold add_missing. simpl. unfold ret. rewrite with_maps_id.
    destruct w; simpl.
    repeat split; auto; try tauto; constructor.
  - unfold add_missing. rewrite forEach_cons. fold (add_missing l).
    destruct (JSMap.get a (appToCardMap (tm w))) as [c|] eqn:E.
    + destruct (IH w) as (m & em & n & tr & Hrun & Hk & Hg & Hwf & Hc & Hl & Hr & Hnd & He).
      exists m, em, n, tr.
      assert (Ha : In a (JSMap.keys (appToCardMap (tm w))))
        by (eapply get_In_keys; eauto).
      split.
      { erewrite bind_runs; [ | | exact Hrun ].
        2: { unfold bind, this. simpl. rewrite E. reflexivity. }
        reflexivity. }
      repeat split; auto.
      * rewrite Hk. simpl. tauto.
      * rewrite Hk. simpl. intros [H|[<-|H]]; auto.
      * apply He in H. simpl. tauto.
      * apply He in H. tauto.
      * intros [[<-|H1] H2]; [contradiction|]. apply He. tauto.
    + pose (card := mkCard (next_ref w) a (next_ref w) (disableScreenshots (tm w))).
      pose (w1 := mkWorld
                    (with_maps (JSMap.set a card (appToCardMap (tm w)))
                       (JSMap.set (card_element card) card (elementToCardMap (tm w)))
                       (tm w))
                    (pending w) (now w) (S (next_ref w))).
      destruct (IH w1) as (m & em & n & tr & Hrun & Hk & Hg & Hwf & Hc & Hl & Hr & Hnd & He).
      simpl in Hk, Hg, Hwf, He.
      assert (Ha : ~ In a (JSMap.keys (appToCardMap (tm w))))
        by (now apply get_None_keys).
      exists m, em, n,
        ([CardCreated card; AppendChild (card_element card); EnterTaskManager a] ++ tr).
      split.
      { erewrite bind_runs; [ | | exact Hrun ].
        2: { unfold bind, this. simpl. rewrite E. reflexivity. }
        reflexivity. }
      split; [|split; [|split; [|split; [|split; [|split; [|split]]]]]].
      * intros x. rewrite Hk, In_keys_set. simpl. intuition.
      * intros x c Hx. apply Hg. rewrite get_set_other; [exact Hx|].
        intros ->. congruence.
      * intros H. apply Hwf. now apply wf_set.
      * simpl. now rewrite Hc.
      * simpl. exact Hl.
      * simpl. exact Hr.
      * simpl. constructor; [|exact Hnd].
        intros H. apply He in H. destruct H as [_ H]. apply H.
        apply In_keys_set. auto.
      * intros x. simpl. rewrite He, In_keys_set.
        destruct (Nat.eq_dec a x) as [->|Hne]; [tauto|].
        intuition congruence.
Qed.

Lemma add_missing_noop l : forall w,
  (forall a, In a l -> In a (JSMap.keys (appToCardMap (tm w)))) ->
  add_missing l w = mkResult (Normal tt) w [].
Proof.
  induction l as [|a l IH]; intros w H.
  - reflexivity.
  - unfold add_missing. rewrite forEach_cons. fold (add_missing l).
    destruct (proj1 (get_Some_keys _ a _) (H a (or_introl eq_refl))) as [c E].
    erewrite bind_runs; [ | | apply IH ].
    2: { unfold bind, this. simpl. rewrite E. reflexivity. }
    2: { intros x Hx. apply H. simpl. auto. }
    reflexivity.
Qed.

(** ** Layout and scroll position *)

Lemma ref_same_refl r : ref_same r r = true.
Proof. destruct r; simpl; auto. apply Nat.eqb_refl. Qed.

Lemma translates_app t1 t2 :
  translates (t1 ++ t2) = translates t1 ++ translates t2.
Proof.
  induction t1 as [|e t1 IH]; simpl; [reflexivity|].
  destruct e; simpl; rewrite ?IH; reflexivity.
Qed.

Lemma widths_app t1 t2 : widths (t1 ++ t2) = widths t1 ++ widths t2.
Proof.
  induction t1 as [|e t1 IH]; simpl; [reflexivity|].
  destruct e; simpl; rewrite ?IH; reflexivity.
Qed.

Lemma only_attribute_writes tr :
  forallb is_attribute_write tr = true ->
  filter is_collection_effect tr = [] /\ translates tr = [] /\ widths tr = [].
Proof.
  induction tr as [|e tr IH]; simpl; [auto|].
  destruct e; simpl; try discriminate. exact IH.
Qed.

Lemma translate_loop_run env (l : list AppWindow) : forall i w,
  (forall a, In a l -> JSMap.get a (appToCardMap (tm w)) <> None) ->
  exists cards,
    cards_of (appToCardMap (tm w)) l cards /\
    forEach_from i l (translate_card env) w =
    mkResult (Normal tt) w
      (map (fun p => Translate (fst p) (layout_left env (snd p)))
           (combine cards (seq i (List.length l)))).
Proof.
  induction l as [|a l IH]; intros i w H.
  - exists []. split; [constructor | reflexivity].
  - destruct (JSMap.get a (appToCardMap (tm w))) as [c|] eqn:E;
      [|exfalso; apply (H a); simpl; auto].
    destruct (IH (S i) w) as (cards & Hc & Hrun);
      [intros x Hx; apply H; simpl; auto|].
    exists (c :: cards). split; [constructor; assumption|].
    simpl forEach_from.
    erewrite bind_runs; [ | | exact Hrun ].
    2: { unfold translate_card, bind, this. simpl. rewrite E. reflexivity. }
    reflexivity.
Qed.

Lemma write_aria_loop_run cc (l : list AppWindow) : forall i w,
  (forall a, In a l -> JSMap.get a (appToCardMap (tm w)) <> None) ->
  exists tr,
    forEach_from i l (write_aria_card cc) w = mkResult (Normal tt) w tr /\
    forallb is_attribute_write tr = true.
Proof.
  induction l as [|a l IH]; intros i w H.
  - exists []. split; reflexivity.
  - destruct (JSMap.get a (appToCardMap (tm w))) as [c|] eqn:E;
      [|exfalso; apply (H a); simpl; auto].
    destruct (IH (S i) w) as (tr & Hrun & Htr);
      [intros x Hx; apply H; simpl; auto|].
    eexists. split.
    + simpl forEach_from.
      erewrite bind_runs; [ | | exact Hrun ].
      2: { unfold write_aria_card, bind, this, emit. simpl. rewrite E.
           reflexivity. }
      reflexivity.
    + simpl. exact Htr.
Qed.

Lemma computed_currentCard_set_currentCard env cc t :
  computed_currentCard env (set_currentCard cc t) = computed_currentCard env t.
Proof. reflexivity. Qed.

Lemma updateScrollPosition_unchanged env w :
  ref_same (currentCard (tm w)) (computed_currentCard env (tm w)) = true ->
  updateScrollPosition env w = mkResult (Normal tt) w [].
Proof.
  intros H. unfold updateScrollPosition, bind, this. simpl. rewrite H.
  reflexivity.
Qed.

Lemma updateScrollPosition_run env w :
  stack_covered (tm w) ->
  exists cc tr,
    updateScrollPosition env w =
    mkResult (Normal tt) (with_tm (set_currentCard cc (tm w)) w) tr /\
    ref_same cc (computed_currentCard env (tm w)) = true /\
    forallb is_attribute_write tr = true.
Proof.
  intros Hcov.
  destruct (ref_same (currentCard (tm w)) (computed_currentCard env (tm w)))
    eqn:E.
  - exists (currentCard (tm w)), [].
    rewrite (updateScrollPosition_unchanged _ _ E).
    rewrite set_currentCard_id, with_tm_id. auto.
  - exists (computed_currentCard env (tm w)).
    destruct (write_aria_loop_run (computed_currentCard env (tm w))
                (stack (tm w)) 0
                (with_tm (set_currentCard (computed_currentCard env (tm w)) (tm w)) w))
      as (tr & Hrun & Htr); [exact Hcov|].
    exists tr. split; [|split; [apply ref_same_refl | exact Htr]].
    unfold updateScrollPosition, bind, this. simpl. rewrite E. simpl.
    unfold write_aria. unfold with_tm in Hrun. simpl in Hrun. rewrite Hrun.
    reflexivity.
Qed.

Lemma updateLayout_run env w :
  stack_covered (tm w) ->
  exists cc cards tr_aria,
    cards_of (appToCardMap (tm w)) (stack (tm w)) cards /\
    updateLayout env w =
    mkResult (Normal tt)
      (with_tm (set_currentCard cc
                  (set_cardSize (layout_cardWidth env) (layout_cardHeight env)
                     (tm w))) w)
      (map (fun p => Translate (fst p) (layout_left env (snd p)))
           (combine cards (seq 0 (List.length (stack (tm w))))) ++
       SetWidth (layout_contentWidth env (List.length (stack (tm w)))) ::
       tr_aria) /\
    ref_same cc
      (computed_currentCard env
         (set_cardSize (layout_cardWidth env) (layout_cardHeight env) (tm w)))
    = true /\
    forallb is_attribute_write tr_aria = true.
Proof.
  intros Hcov.
  pose (w1 := with_tm (set_cardSize (layout_cardWidth env)
                         (layout_cardHeight env) (tm w)) w).
  destruct (translate_loop_run env (stack (tm w)) 0 w1) as (cards & Hc & Hrun1);
    [exact Hcov|].
  destruct (updateScrollPosition_run env w1) as (cc & tr & Hrun2 & Hcc & Htr);
    [exact Hcov|].
  exists cc, cards, tr. split; [exact Hc|]. split; [|split; assumption].
  unfold updateLayout.
  erewrite bind_runs; [ | reflexivity | ].
  2: { cbv beta. erewrite bind_runs; [ | reflexivity | ].
       2: { cbv beta. erewrite bind_runs; [ | exact Hrun1 | ].
            2: { cbv beta. erewrite bind_runs; [ | reflexivity | exact Hrun2 ].
                 reflexivity. }
            reflexivity. }
       reflexivity. }
  reflexivity.
Qed.

Tactic Notation "bind_step" tactic3(tac) :=
  erewrite bind_runs; [ | tac | cbv beta ]; cycle 1.

Lemma only_layout_effects tr :
  forallb is_layout_effect tr = true ->
  filter is_collection_effect tr = [].
Proof.
  induction tr as [|e tr IH]; simpl; [auto|].
  destruct e; simpl; try discriminate; exact IH.
Qed.

Lemma layout_trace_shape (f : Card * nat -> Q) l x tr_aria :
  forallb is_attribute_write tr_aria = true ->
  forallb is_layout_effect
    (map (fun p => Translate (fst p) (f p)) l ++ SetWidth x :: tr_aria) = true.
Proof.
  intros H. rewrite forallb_app. apply andb_true_iff. split.
  - induction l as [|p l IH]; simpl; auto.
  - simpl. induction tr_aria as [|e tr IH]; simpl in *; [reflexivity|].
    destruct e; simpl in *; try discriminate. auto.
Qed.

(** ** [updateStack] *)

Lemma updateStack_run env w :
  exists m em n cc tr,
    updateStack env w =
    mkResult (Normal tt)
      (mkWorld
         (set_currentCard cc
            (set_cardSize (layout_cardWidth env) (layout_cardHeight env)
               (with_maps m em
                  (set_stack (latest_stack env (_browserOnly (tm w))) (tm w)))))
         (pending w) (now w) n)
      tr /\
    (forall a, In a (JSMap.keys m) <->
               In a (latest_stack env (_browserOnly (tm w)))) /\
    (forall a c, In a (latest_stack env (_browserOnly (tm w))) ->
                 JSMap.get a (appToCardMap (tm w)) = Some c ->
                 JSMap.get a m = Some c) /\
    (JSMap.wf (appToCardMap (tm w)) -> JSMap.wf m) /\
    created tr = entered tr /\ left_ tr = [] /\ NoDup (entered tr) /\
    (forall a, In a (entered tr) <->
               In a (latest_stack env (_browserOnly (tm w))) /\
               ~ In a (JSMap.keys (appToCardMap (tm w)))) /\
    (forall e, In e (removed tr) ->
       exists a c, JSMap.get a (appToCardMap (tm w)) = Some c /\
                   e = card_element c /\
                   ~ In a (latest_stack env (_browserOnly (tm w)))) /\
    ref_same cc
      (computed_currentCard env
         (set_cardSize (layout_cardWidth env) (layout_cardHeight env)
            (with_maps m em
               (set_stack (latest_stack env (_browserOnly (tm w))) (tm w)))))
    = true.
Proof.
  remember (latest_stack env (_browserOnly (tm w))) as latest eqn:Hlatest.
  pose (wA := with_tm (set_stack latest (tm w)) w).
  destruct (remove_stale_run latest (appToCardMap (tm w)) wA)
    as (em1 & tr1 & Hrun1 & Htr1 & Hrem1).
  simpl in Hrun1, Hrem1.
  set (m1 := prune latest (appToCardMap (tm w)) (appToCardMap (tm w))) in *.
  pose (wB := with_tm (with_maps m1 em1 (tm wA)) wA).
  destruct (add_missing_run latest wB)
    as (m & em & n & tr2 & Hrun2 & Hk & Hg & Hwf & Hc & Hl & Hr & Hnd & He).
  simpl in Hrun2, Hk, Hg, Hwf, He.
  pose (wC := mkWorld (with_maps m em (tm wB)) (pending w) (now w) n).
  assert (Hcov : stack_covered (tm wC)).
  { intros a Ha. simpl in *. intros Hn. apply get_None_keys in Hn.
    apply Hn, Hk. auto. }
  destruct (updateLayout_run env wC Hcov)
    as (cc & cards & tr_aria & Hcards & Hrun3 & Hcc & Haria).
  simpl in Hrun3, Hcc.
  pose proof (layout_trace_shape
                (fun p => layout_left env (snd p))
                (combine cards (seq 0 (List.length latest)))
                (layout_contentWidth env (List.length latest)) _ Haria) as Hshape.
  apply only_layout_effects, no_collection_effect in Hshape.
  destruct Hshape as (HL1 & HL2 & HL3 & HL4).
  match type of Hrun3 with
  | _ = mkResult _ _ ?t => remember t as trL eqn:HtrL; clear HtrL
  end.
  destruct (only_removals _ Htr1) as (HR1 & HR2 & HR3).
  exists m, em, n, cc. eexists. split.
  { unfold updateStack.
    bind_step reflexivity.
    bind_step reflexivity.
    bind_step (instantiate (1 := []); instantiate (1 := wA);
               instantiate (1 := tt);
               unfold wA, with_tm; simpl; rewrite Hlatest; unfold latest_stack;
               destruct (_browserOnly (tm w)); reflexivity).
    bind_step reflexivity.
    bind_step reflexivity.
    bind_step reflexivity.
    bind_step (exact Hrun1).
    bind_step reflexivity.
    bind_step (exact Hrun2).
    exact Hrun3.
    all: reflexivity. }
  simpl.
  rewrite !created_app, !entered_app, !left_app, !removed_app.
  rewrite HR1, HR2, HR3, HL1, HL2, HL3, HL4, Hl, Hr, Hc, !app_nil_r. simpl.
  assert (Hk1 : forall a, In a (JSMap.keys m1) <->
                          In a (JSMap.keys (appToCardMap (tm w))) /\ In a latest).
  { intros a. unfold m1. rewrite prune_keys. tauto. }
  repeat split.
  - rewrite Hk, Hk1. tauto.
  - rewrite Hk, Hk1. tauto.
  - intros a c Ha Hget. apply Hg. unfold m1. now rewrite prune_get.
  - intros H. apply Hwf. unfold m1. now apply prune_wf.
  - exact Hnd.
  - apply He in H. tauto.
  - apply He in H. rewrite Hk1 in H. tauto.
  - intros [H1 H2]. apply He. rewrite Hk1. tauto.
  - intros e Hin. apply Hrem1. exact Hin.
  - exact Hcc.
Qed.

Lemma filter_translate_events (f : Event -> bool) (g : Card * nat -> Q) l :
  (forall c x, f (Translate c x) = false) ->
  filter f (map (fun p => Translate (fst p) (g p)) l) = [].
Proof.
  intros H. induction l as [|p l IH]; simpl; [reflexivity|].
  rewrite H. exact IH.
Qed.

Lemma covered_of_keys t :
  (forall a, In a (stack t) -> In a (JSMap.keys (appToCardMap t))) ->
  stack_covered t.
Proof.
  intros H a Ha Hn. apply get_None_keys in Hn. apply Hn, H, Ha.
Qed.

Lemma updateLayout_synchronized env w :
  stack_covered (tm w) ->
  cardWidth (tm w) = Some (layout_cardWidth env) ->
  cardHeight (tm w) = Some (layout_cardHeight env) ->
  ref_same (currentCard (tm w)) (computed_currentCard env (tm w)) = true ->
  exists tr,
    updateLayout env w = mkResult (Normal tt) w tr /\
    filter is_collection_effect tr = [] /\
    filter is_attribute_write tr = [].
Proof.
  intros Hcov Hw Hh Hcc.
  destruct (translate_loop_run env (stack (tm w)) 0 w Hcov) as (cards & _ & Hrun).
  eexists. split.
  - unfold updateLayout.
    bind_step (instantiate (1 := []); instantiate (1 := w);
               instantiate (1 := tt); unfold modify;
               rewrite (set_cardSize_id _ _ _ Hw Hh); now destruct w).
    bind_step reflexivity.
    bind_step (exact Hrun).
    bind_step reflexivity.
    apply updateScrollPosition_unchanged, Hcc.
    all: reflexivity.
  - simpl. rewrite !filter_app, !app_nil_r.
    rewrite !filter_translate_events by reflexivity. split; reflexivity.
Qed.

Lemma updateStack_synchronized env w :
  synchronized env (tm w) ->
  exists tr,
    updateStack env w = mkResult (Normal tt) w tr /\
    filter is_collection_effect tr = [] /\
    filter is_attribute_write tr = [].
Proof.
  intros (Hs & Hk & Hw & Hh & Hcc).
  assert (Hcov : stack_covered (tm w)) by (apply covered_of_keys; intros; now apply Hk).
  destruct (updateLayout_synchronized env w Hcov Hw Hh Hcc) as (tr & Hrun & H1 & H2).
  assert (HwA : with_tm (set_stack (latest_stack env (_browserOnly (tm w)))
                           (tm w)) w = w)
    by (rewrite <- Hs, set_stack_id; apply with_tm_id).
  eexists. split.
  - unfold updateStack.
    bind_step reflexivity.
    bind_step reflexivity.
    bind_step (transitivity
                 (mkResult (Normal tt)
                    (with_tm (set_stack (latest_stack env (_browserOnly (tm w)))
                                (tm w)) w) []);
               [ simpl; unfold latest_stack, with_tm;
                 destruct (_browserOnly (tm w)); reflexivity
               | rewrite HwA; reflexivity ]).
    bind_step reflexivity.
    bind_step reflexivity.
    bind_step reflexivity.
    bind_step (apply remove_stale_noop; intros a Ha; now apply Hk).
    bind_step reflexivity.
    bind_step (apply add_missing_noop; intros a Ha; now apply Hk).
    exact Hrun.
    all: reflexivity.
  - simpl. rewrite H1, H2. split; reflexivity.
Qed.

(** ** [setActive] and the teardown of [hide] *)

Lemma setActive_run active w :
  exists tr,
    setActive active w =
    mkResult (Normal tt)
      (with_tm (if Bool.eqb (_active (tm w)) active then tm w
                else set_active active (set_isTransitioning false (tm w))) w)
      tr /\
    filter is_collection_effect tr = [] /\
    (forall type, count_published type tr =
       if Bool.eqb (_active (tm w)) active then 0
       else if String.eqb (if active then "taskmanager-activated"
                           else "taskmanager-deactivated") type
            then 1 else 0).
Proof.
  unfold setActive, bind, this. simpl.
  destruct (Bool.eqb (_active (tm w)) active).
  - exists []. rewrite with_tm_id. auto.
  - eexists. split; [reflexivity|]. split; [reflexivity|].
    intros type. unfold count_published. simpl.
    destruct (String.eqb _ type); reflexivity.
Qed.

Lemma delete_all_get_none l : forall m a,
  JSMap.get a m = None -> JSMap.get a (delete_all l m) = None.
Proof.
  unfold delete_all. induction l as [|k l IH]; intros m a H; simpl.
  - exact H.
  - apply IH. destruct (Nat.eq_dec a k) as [->|Hne].
    + apply get_delete_same.
    + now rewrite get_delete_other.
Qed.

Lemma delete_all_get l : forall m a,
  In a l -> JSMap.get a (delete_all l m) = None.
Proof.
  induction l as [|k l IH]; intros m a Ha.
  - destruct Ha.
  - change (delete_all (k :: l) m) with (delete_all l (JSMap.delete k m)).
    destruct Ha as [->|Ha].
    + apply delete_all_get_none, get_delete_same.
    + now apply IH.
Qed.

Lemma remove_all_run l : forall w,
  exists em tr,
    remove_all l w =
    mkResult (Normal tt)
      (with_tm (with_maps (delete_all l (appToCardMap (tm w))) em (tm w)) w)
      tr /\
    left_ tr = l /\ entered tr = [] /\ created tr = [].
Proof.
  induction l as [|a l IH]; intros w.
  - exists (elementToCardMap (tm w)), []. unfold remove_all, delete_all. simpl.
    rewrite with_maps_id, with_tm_id. auto.
  - destruct (_removeApp_run a w) as (em1 & tr1 & Hrun1 & Htr1 & _).
    destruct (only_removals _ Htr1) as (H1 & H2 & H3).
    destruct (IH (with_tm (with_maps (JSMap.delete a (appToCardMap (tm w)))
                             em1 (tm w)) w))
      as (em & tr & Hrun & Hl & He & Hc).
    exists em, (tr1 ++ [LeaveTaskManager a] ++ tr). split.
    + unfold remove_all. rewrite forEach_cons. fold (remove_all l).
      bind_step (bind_step (exact Hrun1); [reflexivity | reflexivity]).
      exact Hrun.
      rewrite <- app_assoc. reflexivity.
    + rewrite !left_app, !entered_app, !created_app, H1, H2, H3, Hl, He, Hc.
      auto.
Qed.

Lemma hide_teardown_run w :
  exists em tr,
    hide_teardown w =
    mkResult (Normal tt)
      (with_tm
         (with_maps (delete_all (stack (tm w)) (appToCardMap (tm w))) em
            (if Bool.eqb (_active (tm w)) false then tm w
             else set_active false (set_isTransitioning false (tm w)))) w)
      tr /\
    left_ tr = stack (tm w) /\ entered tr = [] /\ created tr = [].
Proof.
  destruct (setActive_run false w) as (tr1 & Hrun1 & Hc1 & _).
  apply no_collection_effect in Hc1. destruct Hc1 as (C1 & C2 & C3 & _).
  set (T := if Bool.eqb (_active (tm w)) false then tm w
            else set_active false (set_isTransitioning false (tm w))) in *.
  assert (HT : stack T = stack (tm w) /\ appToCardMap T = appToCardMap (tm w)).
  { unfold T. destruct (Bool.eqb _ _); auto. }
  destruct HT as [HT1 HT2].
  destruct (remove_all_run (stack T) (with_tm T w)) as (em & tr & Hrun & Hl & He & Hc).
  simpl in Hrun. rewrite HT1, HT2 in Hrun.
  exists em. eexists. split.
  - unfold hide_teardown.
    bind_step (exact Hrun1).
    bind_step reflexivity.
    bind_step reflexivity.
    bind_step reflexivity.
    simpl. rewrite HT1. exact Hrun.
    all: reflexivity.
  - rewrite !left_app, !entered_app, !created_app, C1, C2, C3. simpl.
    rewrite Hl, He, Hc, HT1. auto.
Qed.

(** ** Numbers *)

Lemma js_min_inject a f :
  js_min (inject_Z a) (Fin (inject_Z f)) = Fin (inject_Z (Z.min a f)).
Proof.
  unfold js_min. destruct (Qle_bool (inject_Z a) (inject_Z f)) eqn:E.
  - apply Qle_bool_iff in E. rewrite <- Zle_Qle in E.
    now rewrite Z.min_l.
  - assert (H : ~ (a <= f)%Z).
    { intros H. rewrite Zle_Qle in H. apply Qle_bool_iff in H. congruence. }
    rewrite Z.min_r by lia. reflexivity.
Qed.

Lemma js_div_finite x y : (0 < y)%Q -> js_div x y = Fin (x / y)%Q.
Proof.
  intros Hy. unfold js_div. destruct (Qeq_bool y 0) eqn:E; [|reflexivity].
  apply Qeq_bool_iff in E. rewrite E in Hy. exfalso. revert Hy. apply Qlt_irrefl.
Qed.

Lemma Qfloor_nonneg x : (0 <= x)%Q -> (0 <= Qfloor x)%Z.
Proof.
  intros H. change 0%Z with (Qfloor 0). now apply Qfloor_resp_le.
Qed.

Lemma Qfloor_neg x : (x < 0)%Q -> (Qfloor x < 0)%Z.
Proof.
  intros H. rewrite Zlt_Qlt.
  eapply Qle_lt_trans; [apply Qfloor_le | exact H].
Qed.

Lemma Qdiv_nonneg x y : (0 <= x)%Q -> (0 < y)%Q -> (0 <= x / y)%Q.
Proof.
  intros Hx Hy. apply Qle_shift_div_l; [exact Hy|]. now rewrite Qmult_0_l.
Qed.

Lemma Qdiv_neg x y : (x < 0)%Q -> (0 < y)%Q -> (x / y < 0)%Q.
Proof.
  intros Hx Hy. apply Qlt_shift_div_r; [exact Hy|]. now rewrite Qmult_0_l.
Qed.

Lemma Qmax_spec a b : (a <= Qmax a b)%Q /\ (b <= Qmax a b)%Q.
Proof.
  unfold Qmax. destruct (Qle_bool a b) eqn:E.
  - apply Qle_bool_iff in E. split; [exact E | apply Qle_refl].
  - split; [apply Qle_refl|].
    destruct (Qlt_le_dec a b) as [H|H]; [|exact H].
    apply Qlt_le_weak, Qle_bool_iff in H. congruence.
Qed.

Lemma Qmax_left a b : (b <= a)%Q -> (Qmax a b == a)%Q.
Proof.
  intros H. unfold Qmax. destruct (Qle_bool a b) eqn:E; [|reflexivity].
  apply Qle_bool_iff in E. now apply Qle_antisym.
Qed.

(** ** The trace of a layout pass *)

Lemma translates_of_layout (f : nat -> Q) (l : list (Card * nat)) x tr_aria :
  forallb is_attribute_write tr_aria = true ->
  translates (map (fun p => Translate (fst p) (f (snd p))) l ++
              SetWidth x :: tr_aria) =
  map (fun p => (fst p, f (snd p))) l /\
  widths (map (fun p => Translate (fst p) (f (snd p))) l ++
          SetWidth x :: tr_aria) = [x].
Proof.
  intros H. destruct (only_attribute_writes _ H) as (_ & Ht & Hw).
  rewrite translates_app, widths_app. simpl. rewrite Ht, Hw.
  induction l as [|p l IH]; simpl; [auto|].
  destruct IH as [IH1 IH2]. rewrite app_nil_r in *.
  rewrite IH1. split; [reflexivity | exact IH2].
Qed.

Lemma map_fst_combine_seq (f : nat -> Q) (cards : list Card) : forall i,
  map fst (map (fun p : Card * nat => (fst p, f (snd p)))
             (combine cards (seq i (List.length cards)))) = cards.
Proof.
  induction cards as [|c cards IH]; intros i; simpl; [reflexivity|].
  now rewrite IH.
Qed.

Lemma map_snd_combine_seq (f : nat -> Q) (cards : list Card) : forall i,
  map snd (map (fun p : Card * nat => (fst p, f (snd p)))
             (combine cards (seq i (List.length cards)))) =
  map f (seq i (List.length cards)).
Proof.
  induction cards as [|c cards IH]; intros i; simpl; [reflexivity|].
  now rewrite IH.
Qed.

Lemma nth_error_map_seq (f : nat -> Q) n : forall i0 i x,
  nth_error (map f (seq i0 n)) i = Some x -> x = f (i0 + i) /\ i < n.
Proof.
  induction n as [|n IH]; intros i0 i x H; simpl in H.
  - destruct i; discriminate.
  - destruct i as [|i]; simpl in H.
    + injection H as <-. rewrite Nat.add_0_r. split; [reflexivity | lia].
    + apply IH in H. destruct H as [-> H]. split; [f_equal; lia | lia].
Qed.

Lemma cards_of_length m l cards :
  cards_of m l cards -> List.length cards = List.length l.
Proof. intros H. symmetry. eapply Forall2_length; eauto. Qed.

Lemma write_aria_loop_world cc (l : list AppWindow) : forall i w,
  world (forEach_from i l (write_aria_card cc) w) = w.
Proof.
  induction l as [|a l IH]; intros i w; [reflexivity|].
  simpl forEach_from. unfold bind at 1.
  destruct (JSMap.get a (appToCardMap (tm w))) as [c|] eqn:E.
  - assert (H : write_aria_card cc a i w =
                mkResult (Normal tt) w
                  [SetAttribute (card_element c) "aria-hidden"
                     (AttrBool (negb (ref_same (JObj c) cc)));
                   SetAttribute (card_element c) "aria-setsize"
                     (AttrNum (List.length (stack (tm w))));
                   SetAttribute (card_element c) "aria-posinset"
                     (AttrNum (i + 1))]).
    { unfold write_aria_card, bind, this, emit. simpl. rewrite E. reflexivity. }
    rewrite H. simpl. apply IH.
  - assert (H : write_aria_card cc a i w =
                mkResult (Throw "TypeError: card is undefined") w []).
    { unfold write_aria_card, bind, this, throw. simpl. rewrite E. reflexivity. }
    rewrite H. reflexivity.
Qed.

Lemma updateScrollPosition_settles env w :
  ref_same (currentCard (tm (world (updateScrollPosition env w))))
    (computed_currentCard env (tm (world (updateScrollPosition env w)))) = true.
Proof.
  destruct (ref_same (currentCard (tm w)) (computed_currentCard env (tm w)))
    eqn:E.
  - rewrite (updateScrollPosition_unchanged _ _ E). exact E.
  - unfold updateScrollPosition, bind at 1, this. simpl. rewrite E. simpl.
    unfold bind, modify. simpl. unfold write_aria.
    rewrite write_aria_loop_world. simpl. apply ref_same_refl.
Qed.

(** ** Which effects a computation can have *)

Section EmitsOnly.
Variable P : Event -> bool.

Lemma emits_only_ret {A} (a : A) : emits_only P (ret a).
Proof. intros w. reflexivity. Qed.

Lemma emits_only_throw {A} msg : emits_only P (@throw A msg).
Proof. intros w. reflexivity. Qed.

Lemma emits_only_this : emits_only P this.
Proof. intros w. reflexivity. Qed.

Lemma emits_only_modify f : emits_only P (modify f).
Proof. intros w. reflexivity. Qed.

Lemma emits_only_fresh : emits_only P fresh.
Proof. intros w. reflexivity. Qed.

Lemma emits_only_clock : emits_only P clock.
Proof. intros w. reflexivity. Qed.

Lemma emits_only_await p : emits_only P (await p).
Proof. intros w. reflexivity. Qed.

Lemma emits_only_advance : emits_only P advance.
Proof. intros w. reflexivity. Qed.

Lemma emits_only_emit e : P e = true -> emits_only P (emit e).
Proof. intros H w. simpl. now rewrite H. Qed.

Lemma emits_only_bind {A B} (m : M A) (f : A -> M B) :
  emits_only P m -> (forall a, emits_only P (f a)) -> emits_only P (bind m f).
Proof.
  intros Hm Hf w. unfold bind. specialize (Hm w).
  destruct (outcome (m w)); simpl; [|exact Hm].
  rewrite forallb_app, Hm. apply Hf.
Qed.

Lemma emits_only_forEach {A} (l : list A) f :
  (forall x, emits_only P (f x)) -> emits_only P (forEach l f).
Proof.
  intros H. induction l as [|x l IH]; simpl.
  - apply emits_only_ret.
  - apply emits_only_bind; auto.
Qed.

Lemma emits_only_forEach_from {A} (l : list A) f : forall i,
  (forall x i, emits_only P (f x i)) -> emits_only P (forEach_from i l f).
Proof.
  induction l as [|x l IH]; intros i H; simpl.
  - apply emits_only_ret.
  - apply emits_only_bind; auto.
Qed.

Lemma emits_only_guarded {A} (m : M A) :
  (forall msg, P (Uncaught msg) = true) ->
  emits_only P m -> emits_only P (guarded m).
Proof.
  intros HU Hm w. unfold guarded. specialize (Hm w).
  destruct (outcome (m w)); simpl; [exact Hm|].
  rewrite forallb_app, Hm. simpl. now rewrite HU.
Qed.

End EmitsOnly.

Ltac emits_step :=
  first
    [ apply emits_only_ret
    | apply emits_only_throw
    | apply emits_only_this
    | apply emits_only_modify
    | apply emits_only_fresh
    | apply emits_only_clock
    | apply emits_only_await
    | apply emits_only_advance
    | apply emits_only_emit; reflexivity
    | apply emits_only_bind; [|intro]
    | apply emits_only_forEach; intro
    | apply emits_only_forEach_from; intros
    | match goal with
      | |- emits_only _ (match ?x with _ => _ end) => destruct x
      end ].

Ltac emits := repeat emits_step.

Lemma count_published_app type t1 t2 :
  count_published type (t1 ++ t2) =
  count_published type t1 + count_published type t2.
Proof.
  unfold count_published. now rewrite filter_app, length_app.
Qed.

Lemma not_published_count type tr :
  forallb (not_published type) tr = true -> count_published type tr = 0.
Proof.
  unfold count_published, not_published.
  induction tr as [|e tr IH]; simpl; [reflexivity|].
  destruct (is_published type e); simpl; [discriminate | exact IH].
Qed.

Lemma updateStack_publishes_nothing env type :
  emits_only (not_published type) (updateStack env).
Proof.
  unfold updateStack, remove_stale, add_missing, _removeApp, _addApp,
    updateLayout, translate_cards, translate_card, updateScrollPosition,
    write_aria, write_aria_card.
  emits.
Qed.

Lemma panToApp_run env app immediately w :
  panToApp env app immediately w =
  if js_num_eq (Fin (scrollLeft env)) (pan_target env (tm w) app)
  then mkResult (Normal PResolved) w []
  else mkResult (Normal (PTimer (now w + 200))) w
         [ScrollTo (pan_target env (tm w) app)
            (if immediately then "auto" else "smooth")].
Proof.
  unfold panToApp, pan_target, bind, this. cbv beta zeta.
  cbn [outcome world trace].
  match goal with
  | |- context [js_num_eq ?a ?b] => destruct (js_num_eq a b)
  end; reflexivity.
Qed.

Lemma panToApp_world env app immediately w :
  exists p tr,
    panToApp env app immediately w = mkResult (Normal p) w tr /\
    forall type, count_published type tr = 0.
Proof.
  rewrite panToApp_run. destruct (js_num_eq _ _); eexists _, _; split;
    try reflexivity; intros; reflexivity.
Qed.

(** ** The event loop *)

Lemma select_pending_none due l :
  (forall p, In p l -> due p = None) -> select_pending due l = ([], l).
Proof.
  induction l as [|p l IH]; intros H; simpl; [reflexivity|].
  rewrite IH by (intros q Hq; apply H; simpl; auto).
  rewrite (H p) by (simpl; auto). reflexivity.
Qed.

Lemma fire_none env due w :
  (forall p, In p (pending w) -> due p = None) ->
  fire env due w = mkResult (Normal tt) w [].
Proof.
  intros H. unfold fire. rewrite (select_pending_none _ _ H).
  simpl. unfold ret. now destruct w.
Qed.

Lemma fire_single env due w p k :
  pending w = [p] -> due p = Some k ->
  fire env due w =
  bind (guarded (run_continuation env k)) (fun _ => ret tt) (with_pending [] w).
Proof.
  intros Hp Hk. unfold fire. rewrite Hp. simpl. rewrite Hk. reflexivity.
Qed.

Lemma guarded_normal {A} (m : M A) w : outcome (guarded m w) = Normal tt.
Proof. unfold guarded. destruct (outcome (m w)); reflexivity. Qed.

Lemma forEach_guarded_normal env ks : forall w,
  outcome (forEach ks (fun k => guarded (run_continuation env k)) w) = Normal tt.
Proof.
  induction ks as [|k ks IH]; intros w; [reflexivity|].
  simpl. unfold bind. rewrite guarded_normal. simpl. apply IH.
Qed.

Lemma fire_normal env due w : outcome (fire env due w) = Normal tt.
Proof.
  unfold fire. destruct (select_pending due (pending w)).
  apply forEach_guarded_normal.
Qed.

Lemma task_normal env i w : outcome (task env i w) = Normal tt.
Proof.
  destruct i; simpl; try apply guarded_normal; apply fire_normal.
Qed.

Lemma step_normal env i w : outcome (step env i w) = Normal tt.
Proof.
  unfold step, bind. rewrite task_normal. simpl. apply fire_normal.
Qed.

Lemma run_normal inputs : forall w, outcome (run inputs w) = Normal tt.
Proof.
  induction inputs as [|[env i] inputs IH]; intros w; [reflexivity|].
  simpl. unfold bind. rewrite step_normal. simpl. apply IH.
Qed.

Lemma run_cons env i inputs w :
  run ((env, i) :: inputs) w =
  mkResult (Normal tt)
    (world (run inputs (world (step env i w))))
    (trace (step env i w) ++ trace (run inputs (world (step env i w)))).
Proof.
  simpl. unfold bind. rewrite step_normal. simpl. now rewrite run_normal.
Qed.

Lemma run_app l1 : forall l2 w,
  run (l1 ++ l2) w =
  mkResult (Normal tt)
    (world (run l2 (world (run l1 w))))
    (trace (run l1 w) ++ trace (run l2 (world (run l1 w)))).
Proof.
  induction l1 as [|[env i] l1 IH]; intros l2 w.
  - simpl. pose proof (run_normal l2 w) as H.
    destruct (run l2 w); simpl in *. now subst.
  - rewrite <- app_comm_cons, !run_cons, IH. simpl.
    now rewrite app_assoc.
Qed.

(** *** [show] *)

Lemma show_noop opts w :
  isShown (tm w) || _isTransitioning (tm w) = true ->
  show opts w = mkResult (Normal PResolved) w [].
Proof.
  intros H. unfold show, bind, this. simpl. rewrite H. reflexivity.
Qed.

Lemma show_starts opts w :
  isShown (tm w) = false -> _isTransitioning (tm w) = false ->
  show opts w =
  mkResult (Normal PPending)
    (mkWorld
       (set_browserOnly (match opts with Some b => b | None => false end)
          (set_isTransitioning true (tm w)))
       (pending w ++ [OnScreenReady KShowReady]) (now w) (next_ref w))
    [Publish "cardviewbeforeshow" None].
Proof.
  intros H1 H2. unfold show, bind, this. simpl. rewrite H1, H2. reflexivity.
Qed.

Lemma step_show_noop env opts w :
  isShown (tm w) || _isTransitioning (tm w) = true ->
  no_microtask (pending w) ->
  step env (CallShow opts) w = mkResult (Normal tt) w [].
Proof.
  intros H Hm. unfold step.
  erewrite bind_runs; [ | | apply fire_none, Hm ].
  2: { simpl. unfold guarded. rewrite (show_noop _ _ H). reflexivity. }
  reflexivity.
Qed.

Lemma run_show_calls_noop calls : forall w,
  isShown (tm w) || _isTransitioning (tm w) = true ->
  no_microtask (pending w) ->
  run (show_calls calls) w = mkResult (Normal tt) w [].
Proof.
  induction calls as [|[env opts] calls IH]; intros w H Hm; [reflexivity|].
  simpl show_calls. rewrite run_cons, (step_show_noop _ _ _ H Hm). simpl.
  now rewrite (IH w H Hm).
Qed.

Lemma show_ready_publishes env :
  emits_only (not_published "cardviewshown") (show_ready env).
Proof.
  unfold show_ready.
  apply emits_only_bind; [emits | intro].
  apply emits_only_bind; [apply updateStack_publishes_nothing | intro].
  unfold panToApp, setActive, publish, waitForAppToClose_then.
  emits.
Qed.

Lemma show_ready_run env w :
  _active (tm w) = false ->
  exists T n tr,
    show_ready env w =
    mkResult (Normal tt)
      (mkWorld T
         (pending w ++ [OnAppClosed (getActiveWindow env) KShowDone])
         (now w) n)
      tr /\
    _active T = true /\ _isTransitioning T = false.
Proof.
  intros Hact.
  destruct (updateStack_run env w) as (m & em & n & cc & tr1 & Hrun1 & _).
  match type of Hrun1 with
  | _ = mkResult _ ?w1 _ =>
      destruct (panToApp_world env (getCurrent env) true w1)
        as (p & tr2 & Hrun2 & _);
      destruct (setActive_run true w1) as (tr3 & Hrun3 & _)
  end.
  simpl in Hrun3. rewrite Hact in Hrun3. simpl in Hrun3.
  match type of Hrun3 with
  | _ = mkResult _ ?w3 _ =>
      assert (exists tr4,
                 (match getActiveWindow env with
                  | Some a =>
                      if isHomescreen env a then
                        bind (emit (AppClose a "home-to-cardview"))
                          (fun _ => emit (ClassAdd TaskManagerEl "from-home"))
                      else ret tt
                  | None => ret tt
                  end) w3 = mkResult (Normal tt) w3 tr4) as (tr4 & Hrun4)
  end.
  { destruct (getActiveWindow env) as [a|];
      [destruct (isHomescreen env a)|]; eexists; reflexivity. }
  eexists _, _, _. split.
  - unfold show_ready.
    bind_step reflexivity.
    bind_step (exact Hrun1).
    bind_step (exact Hrun2).
    bind_step (exact Hrun3).
    bind_step (exact Hrun4).
    reflexivity.
    all: reflexivity.
  - simpl. auto.
Qed.

Lemma step_first_show env opts w :
  isShown (tm w) = false -> _isTransitioning (tm w) = false ->
  pending w = [] ->
  step env (CallShow opts) w =
  mkResult (Normal tt)
    (mkWorld
       (set_browserOnly (match opts with Some b => b | None => false end)
          (set_isTransitioning true (tm w)))
       [OnScreenReady KShowReady] (now w) (next_ref w))
    [Publish "cardviewbeforeshow" None].
Proof.
  intros H1 H2 Hp. unfold step.
  erewrite bind_runs; [ | | apply fire_none ].
  2: { simpl. unfold guarded. rewrite (show_starts _ _ H1 H2), Hp. reflexivity. }
  - reflexivity.
  - simpl. intros p [<-|[]]. reflexivity.
Qed.

Lemma step_screen_ready env w :
  _active (tm w) = false ->
  pending w = [OnScreenReady KShowReady] ->
  exists T n tr,
    step env ScreenReady w =
    mkResult (Normal tt)
      (mkWorld T [OnAppClosed (getActiveWindow env) KShowDone] (now w) n) tr /\
    _active T = true /\
    count_published "cardviewshown" tr = 0.
Proof.
  intros Hact Hp.
  destruct (show_ready_run env (with_pending [] w) Hact)
    as (T & n & tr & Hrun & HT & _).
  pose proof (show_ready_publishes env (with_pending [] w)) as Hpub.
  rewrite Hrun in Hpub. simpl in Hpub, Hrun.
  exists T, n, tr. split; [|split; [exact HT | now apply not_published_count]].
  unfold step.
  erewrite bind_runs; [ | | apply fire_none ].
  2: { simpl. rewrite (fire_single env _ w _ KShowReady Hp eq_refl).
       erewrite bind_runs; [ | | reflexivity ].
       2: { unfold guarded. simpl run_continuation. rewrite Hrun. reflexivity. }
       reflexivity. }
  - rewrite !app_nil_r. reflexivity.
  - simpl. intros p [<-|[]]. reflexivity.
Qed.

Lemma step_app_closed env a w :
  pending w = [OnAppClosed a KShowDone] ->
  step env AppClosed w =
  mkResult (Normal tt) (with_pending [] w)
    [Publish "cardviewshown" None; ClassAdd ScreenEl "cards-view";
     ClassRemove TaskManagerEl "from-home"].
Proof.
  intros Hp. unfold step.
  erewrite bind_runs; [ | | apply fire_none ].
  2: { simpl. rewrite (fire_single env _ w _ KShowDone Hp eq_refl).
       reflexivity. }
  - reflexivity.
  - simpl. intros p [].
Qed.

(** *** [hide] *)

Lemma hide_noop env newApp animation w :
  negb (isShown (tm w)) || _isTransitioning (tm w) = true ->
  hide env newApp animation w = mkResult (Normal PResolved) w [].
Proof.
  intros H. unfold hide, bind, this. simpl. rewrite H. reflexivity.
Qed.

Lemma hide_throws env newApp animation w :
  isShown (tm w) = true -> _isTransitioning (tm w) = false ->
  hide_target env newApp = None ->
  hide env newApp animation w =
  mkResult (Throw "TypeError: newApp is null")
    (with_tm (set_isTransitioning true (tm w)) w)
    [RemoveListeners; ClassRemove ScreenEl "cards-view";
     Publish "cardviewclosed" None].
Proof.
  intros H1 H2 Ht. unfold hide_target in Ht.
  unfold hide, bind, this. simpl. rewrite H1, H2. simpl. rewrite Ht.
  reflexivity.
Qed.

Lemma hide_starts env newApp animation w a :
  isShown (tm w) = true -> _isTransitioning (tm w) = false ->
  hide_target env newApp = Some a ->
  exists tr,
    hide env newApp animation w =
    mkResult (Normal PPending)
      (mkWorld (set_isTransitioning true (tm w))
         (pending w ++ [OnEventOrTimeout a "_opened" (now w + 1000) KHideTeardown])
         (now w) (next_ref w))
      tr /\
    left_ tr = [] /\
    exists anim, filter (fun e => match e with AppOpen _ _ => true | _ => false end) tr
                 = [AppOpen a anim].
Proof.
  intros H1 H2 Ht. unfold hide_target in Ht.
  unfold hide, bind, this. simpl. rewrite H1, H2. simpl. rewrite Ht.
  destruct (isHomescreen env a); simpl; eexists; split; try reflexivity;
    split; try reflexivity; eexists; reflexivity.
Qed.

(** *** [cardAction] *)

Lemma cardAction_close_last env w card :
  1 < List.length (stack (tm w)) ->
  indexOf (stack (tm w)) (card_app card)
  = (Z.of_nat (List.length (stack (tm w))) - 1)%Z ->
  let target := nth_error (stack (tm w)) (List.length (stack (tm w)) - 2) in
  cardAction env card "close" w =
  if js_num_eq (Fin (scrollLeft env)) (pan_target env (tm w) target)
  then mkResult (Normal tt)
         (with_pending (pending w ++ [OnMicrotask (KKill (card_app card))]) w)
         []
  else mkResult (Normal tt)
         (with_pending
            (pending w ++ [OnTimer (now w + 200) (KKill (card_app card))]) w)
         [ScrollTo (pan_target env (tm w) target) "smooth"].
Proof.
  intros Hn Hi. cbv zeta. unfold cardAction.
  change (String.eqb "close" "close") with true. cbv iota.
  unfold bind at 1, this. cbn [outcome world trace].
  apply Nat.ltb_lt in Hn. rewrite Hn, Hi, Z.eqb_refl. cbn [andb].
  unfold bind. cbv beta. rewrite panToApp_run.
  destruct (js_num_eq _ _); reflexivity.
Qed.

Lemma cardAction_close_other env w card :
  indexOf (stack (tm w)) (card_app card)
  <> (Z.of_nat (List.length (stack (tm w))) - 1)%Z ->
  cardAction env card "close" w =
  mkResult (Normal tt) w [Kill (card_app card)].
Proof.
  intros Hi. unfold cardAction.
  change (String.eqb "close" "close") with true. cbv iota.
  unfold bind at 1, this. cbn [outcome world trace].
  apply Z.eqb_neq in Hi. rewrite Hi, andb_false_r. reflexivity.
Qed.

Lemma step_tick_waiting env w d k :
  pending w = [OnTimer d k] -> S (now w) < d ->
  step env Tick w = mkResult (Normal tt) (with_now (S (now w)) w) [].
Proof.
  intros Hp Hd. unfold step.
  assert (Htask : task env Tick w = mkResult (Normal tt) (with_now (S (now w)) w) []).
  { simpl. unfold bind, advance, clock. simpl.
    rewrite fire_none; [reflexivity|].
    simpl. rewrite Hp. intros p [<-|[]]. simpl.
    destruct (Nat.leb_spec d (S (now w))); [lia | reflexivity]. }
  erewrite bind_runs; [ | exact Htask | apply fire_none ].
  - reflexivity.
  - simpl. rewrite Hp. intros p [<-|[]]. reflexivity.
Qed.

Lemma run_ticks_waiting env d k : forall j w,
  pending w = [OnTimer d k] -> now w + j < d ->
  run (ticks env j) w = mkResult (Normal tt) (with_now (now w + j) w) [].
Proof.
  induction j as [|j IH]; intros w Hp Hd.
  - simpl. unfold ret. rewrite Nat.add_0_r. now destruct w.
  - change (ticks env (S j)) with ((env, Tick) :: ticks env j).
    rewrite run_cons, (step_tick_waiting env w d k Hp) by lia.
    cbn [world trace]. rewrite IH; simpl; [|exact Hp|lia].
    unfold with_now. simpl. now rewrite Nat.add_succ_r.
Qed.

Lemma step_tick_kill env w d a :
  pending w = [OnTimer d (KKill a)] -> d <= S (now w) ->
  step env Tick w =
  mkResult (Normal tt) (mkWorld (tm w) [] (S (now w)) (next_ref w)) [Kill a].
Proof.
  intros Hp Hd. unfold step.
  assert (Htask : task env Tick w =
                  mkResult (Normal tt)
                    (mkWorld (tm w) [] (S (now w)) (next_ref w)) [Kill a]).
  { simpl. unfold bind, advance, clock. simpl.
    unfold fire. simpl. rewrite Hp. simpl.
    destruct (Nat.leb_spec d (S (now w))); [reflexivity | lia]. }
  erewrite bind_runs; [ | exact Htask | apply fire_none ].
  - reflexivity.
  - simpl. intros p [].
Qed.

Lemma ticks_snoc env n : ticks env (S n) = ticks env n ++ [(env, Tick)].
Proof.
  unfold ticks. induction n as [|n IH]; [reflexivity|].
  simpl in *. now rewrite <- IH.
Qed.

Lemma indexOf_from_nth (l : list AppWindow) : forall i0 i a,
  NoDup l -> nth_error l i = Some a ->
  indexOf_from i0 a l = (i0 + Z.of_nat i)%Z.
Proof.
  induction l as [|y l IH]; intros i0 i a Hnd Hn.
  - destruct i; discriminate.
  - inversion Hnd as [|? ? Hy Hnd']; subst. simpl.
    destruct i as [|i]; simpl in Hn.
    + injection Hn as ->. rewrite Nat.eqb_refl. lia.
    + destruct (Nat.eqb_spec y a) as [->|Hne].
      * exfalso. apply Hy. eapply nth_error_In; eauto.
      * rewrite (IH (i0 + 1)%Z i a Hnd' Hn). lia.
Qed.

Lemma step_close_last env w card :
  pending w = [] ->
  1 < List.length (stack (tm w)) ->
  indexOf (stack (tm w)) (card_app card)
  = (Z.of_nat (List.length (stack (tm w))) - 1)%Z ->
  let target := nth_error (stack (tm w)) (List.length (stack (tm w)) - 2) in
  step env (CallCardAction card "close") w =
  if js_num_eq (Fin (scrollLeft env)) (pan_target env (tm w) target)
  then mkResult (Normal tt) w [Kill (card_app card)]
  else mkResult (Normal tt)
         (with_pending [OnTimer (now w + 200) (KKill (card_app card))] w)
         [ScrollTo (pan_target env (tm w) target) "smooth"].
Proof.
  intros Hp Hn Hi. cbv zeta. unfold step.
  assert (Htask := cardAction_close_last env w card Hn Hi). cbv zeta in Htask.
  destruct (js_num_eq _ _).
  - erewrite bind_runs.
    2: { simpl. unfold guarded. rewrite Htask. reflexivity. }
    2: { rewrite (fire_single env _ _ (OnMicrotask (KKill (card_app card)))
                    (KKill (card_app card))).
         - reflexivity.
         - simpl. now rewrite Hp.
         - reflexivity. }
    destruct w; simpl in *; subst. reflexivity.
  - erewrite bind_runs.
    2: { simpl. unfold guarded. rewrite Htask. reflexivity. }
    2: { apply fire_none. simpl. rewrite Hp. intros p [<-|[]]. reflexivity. }
    rewrite Hp. reflexivity.
Qed.

Lemma step_close_other env w card :
  pending w = [] ->
  indexOf (stack (tm w)) (card_app card)
  <> (Z.of_nat (List.length (stack (tm w))) - 1)%Z ->
  step env (CallCardAction card "close") w =
  mkResult (Normal tt) w [Kill (card_app card)].
Proof.
  intros Hp Hi. unfold step.
  erewrite bind_runs.
  2: { simpl. unfold guarded. rewrite (cardAction_close_other env w card Hi).
       reflexivity. }
  2: { apply fire_none. simpl. rewrite Hp. intros p []. }
  reflexivity.
Qed.

(** * The stack synchronizer *)

(** C1: after [updateStack] has completed, the keys of the app-to-card map
    are exactly the windows of the (possibly filtered) snapshot: every
    handle of the stack has a card record, only one, and no record is left
    for a handle that is not in the stack. *)
Theorem updateStack_keys_equal_stack env w :
  JSMap.wf (appToCardMap (tm w)) ->
  let r := updateStack env w in
  outcome r = Normal tt /\
  stack (tm (world r)) = latest_stack env (_browserOnly (tm w)) /\
  (forall a, In a (JSMap.keys (appToCardMap (tm (world r)))) <->
             In a (stack (tm (world r)))) /\
  (forall a, In a (stack (tm (world r))) ->
             exists c, JSMap.get a (appToCardMap (tm (world r))) = Some c) /\
  NoDup (JSMap.keys (appToCardMap (tm (world r)))).
Proof.
  intros Hwf.
  destruct (updateStack_run env w)
    as (m & em & n & cc & tr & Hrun & Hk & _ & Hwf' & _).
  cbv zeta. rewrite Hrun. simpl.
  split; [reflexivity|]. split; [reflexivity|]. split; [exact Hk|].
  split; [|exact (Hwf' Hwf)].
  intros a Ha. apply get_Some_keys, Hk, Ha.
Qed.

Lemma updateStack_keys_equal_stack_witness :
  JSMap.wf (appToCardMap (tm initial_world)) /\
  let r := updateStack (sample_env [1; 2; 3] 320 0%Q) initial_world in
  outcome r = Normal tt /\
  stack (tm (world r)) = [1; 2; 3] /\
  (forall a, In a (JSMap.keys (appToCardMap (tm (world r)))) <->
             In a (stack (tm (world r)))) /\
  (forall a, In a (stack (tm (world r))) ->
             exists c, JSMap.get a (appToCardMap (tm (world r))) = Some c) /\
  NoDup (JSMap.keys (appToCardMap (tm (world r)))).
Proof.
  split.
  - constructor.
  - apply (updateStack_keys_equal_stack (sample_env [1; 2; 3] 320 0%Q)
             initial_world).
    constructor.
Defined.

(** C2: reconciling twice in a row against the same snapshot gives what
    reconciling once gives: the second pass leaves the whole state as the
    first left it, creates and removes no card, sends no lifecycle
    notification and writes no accessibility attribute. *)
Theorem updateStack_idempotent env w :
  let r1 := updateStack env w in
  let r2 := updateStack env (world r1) in
  outcome r2 = Normal tt /\
  world r2 = world r1 /\
  appToCardMap (tm (world r2)) = appToCardMap (tm (world r1)) /\
  filter is_collection_effect (trace r2) = [] /\
  entered (trace r2) = [] /\ left_ (trace r2) = [] /\
  created (trace r2) = [] /\ removed (trace r2) = [] /\
  filter is_attribute_write (trace r2) = [].
Proof.
  destruct (updateStack_run env w)
    as (m & em & n & cc & tr & Hrun & Hk & _ & _ & _ & _ & _ & _ & _ & Hcc).
  cbv zeta. rewrite Hrun. cbn [world].
  match goal with
  | |- context [updateStack env ?w1] =>
      destruct (updateStack_synchronized env w1) as (tr2 & Hrun2 & H1 & H2)
  end.
  { unfold synchronized. simpl. repeat split; try apply Hk; auto. }
  rewrite Hrun2. cbn [world outcome trace].
  destruct (no_collection_effect _ H1) as (E1 & E2 & E3 & E4).
  repeat split; auto.
Qed.

(** C10: a window that has a card before the pass and is in the new
    snapshot keeps that very card: the record it maps to is unchanged, no
    card is created for it, and the elements removed belong to records of
    windows absent from the snapshot; [enterTaskManager] is called only for
    windows that had no card before the pass. *)
Theorem updateStack_preserves_existing_cards env w a c :
  JSMap.get a (appToCardMap (tm w)) = Some c ->
  In a (latest_stack env (_browserOnly (tm w))) ->
  let r := updateStack env w in
  JSMap.get a (appToCardMap (tm (world r))) = Some c /\
  ~ In a (created (trace r)) /\
  ~ In a (entered (trace r)) /\
  (forall e, In e (removed (trace r)) ->
     exists a' c', JSMap.get a' (appToCardMap (tm w)) = Some c' /\
                   e = card_element c' /\
                   ~ In a' (latest_stack env (_browserOnly (tm w)))) /\
  (forall a', In a' (entered (trace r)) ->
              JSMap.get a' (appToCardMap (tm w)) = None).
Proof.
  intros Hget Hin.
  destruct (updateStack_run env w)
    as (m & em & n & cc & tr & Hrun & Hk & Hg & _ & Hc & _ & _ & He & Hr & _).
  cbv zeta. rewrite Hrun. simpl.
  assert (Hne : ~ In a (entered tr)).
  { intros H. apply He in H. destruct H as [_ H]. apply H.
    eapply get_In_keys; eauto. }
  split; [now apply Hg|]. split; [now rewrite Hc|]. split; [exact Hne|].
  split; [exact Hr|].
  intros a' Ha'. apply get_None_keys. now apply He in Ha'.
Qed.

Lemma updateStack_preserves_existing_cards_witness :
  let env := sample_env [1; 3; 4] 320 0%Q in
  let c := mkCard 0 1 0 false in
  let r := updateStack env three_cards in
  JSMap.get 1 (appToCardMap (tm three_cards)) = Some c /\
  JSMap.get 1 (appToCardMap (tm (world r))) = Some c /\
  ~ In 1 (created (trace r)) /\
  ~ In 1 (entered (trace r)).
Proof.
  cbv zeta.
  assert (H1 : JSMap.get 1 (appToCardMap (tm three_cards))
               = Some (mkCard 0 1 0 false)) by reflexivity.
  assert (H2 : In 1 (latest_stack (sample_env [1; 3; 4] 320 0%Q)
                       (_browserOnly (tm three_cards))))
    by (simpl; auto).
  pose proof (updateStack_preserves_existing_cards
                (sample_env [1; 3; 4] 320 0%Q) three_cards 1
                (mkCard 0 1 0 false) H1 H2) as H.
  cbv zeta in H. destruct H as (A & B & C & _).
  repeat split; assumption.
Defined.

(** A pass that removes a record calls no [leaveTaskManager]: window 2 has
    a card, is absent from the new snapshot, loses its card, and is told
    nothing. *)
Lemma updateStack_removal_without_leave :
  let env := sample_env [1; 3] 320 0%Q in
  let r := updateStack env three_cards in
  In 2 (JSMap.keys (appToCardMap (tm three_cards))) /\
  ~ In 2 (snapshot env) /\
  ~ In 2 (JSMap.keys (appToCardMap (tm (world r)))) /\
  removed (trace r) = [1] /\
  ~ In 2 (left_ (trace r)).
Proof.
  cbv zeta. vm_compute.
  repeat split; auto; intuition discriminate.
Qed.

Lemma remove_all_app l1 : forall l2 w w1 t1 w2 t2,
  remove_all l1 w = mkResult (Normal tt) w1 t1 ->
  remove_all l2 w1 = mkResult (Normal tt) w2 t2 ->
  remove_all (l1 ++ l2) w = mkResult (Normal tt) w2 (t1 ++ t2).
Proof.
  induction l1 as [|x l1 IH]; intros l2 w w1 t1 w2 t2 H1 H2.
  - unfold remove_all in H1. simpl in H1. injection H1 as <- <-. exact H2.
  - destruct (_removeApp_run x w) as (emx & trx & Hx & _).
    rewrite <- app_comm_cons.
    unfold remove_all in *. rewrite forEach_cons in *.
    fold (remove_all l1) in *. fold (remove_all (l1 ++ l2)).
    match type of Hx with _ = mkResult _ ?wx _ =>
      destruct (remove_all_run l1 wx) as (em1 & tr1 & Hr1 & _);
      assert (Hhead : bind (_removeApp x) (fun _ => emit (LeaveTaskManager x)) w
                      = mkResult (Normal tt) wx (trx ++ [LeaveTaskManager x]))
        by (erewrite bind_runs; [reflexivity | exact Hx | reflexivity])
    end.
    erewrite bind_runs in H1; [ | exact Hhead | exact Hr1 ].
    injection H1 as E1 E2. subst w1 t1.
    erewrite bind_runs; [ | exact Hhead | ].
    2: { eapply IH; [exact Hr1 | exact H2]. }
    now rewrite app_assoc.
Qed.

(** In the teardown of [hide] every window of the stack is notified right
    after its own record has been removed. *)
Lemma teardown_order w before a after :
  stack (tm w) = before ++ a :: after ->
  let p := teardown_until before a w in
  outcome p = Normal tt /\
  left_ (trace p) = before /\
  JSMap.get a (appToCardMap (tm (world p))) = None /\
  exists rest,
    trace (hide_teardown w) = trace p ++ LeaveTaskManager a :: rest /\
    left_ rest = after.
Proof.
  intros Hst. cbv zeta.
  destruct (setActive_run false w) as (tr0 & Hrun0 & Hc0 & _).
  apply no_collection_effect in Hc0. destruct Hc0 as (_ & L0 & _).
  match type of Hrun0 with _ = mkResult _ ?x _ => set (w0 := x) in * end.
  assert (Hst0 : stack (tm w0) = before ++ a :: after).
  { unfold w0. simpl. destruct (Bool.eqb _ _); exact Hst. }
  destruct (remove_all_run before w0) as (em1 & t1 & Hb & Hl1 & _).
  match type of Hb with _ = mkResult _ ?x _ => set (w1 := x) in * end.
  destruct (_removeApp_run a w1) as (em2 & t2 & Ha & Hrem & _).
  destruct (only_removals _ Hrem) as (_ & L2 & _).
  match type of Ha with _ = mkResult _ ?x _ => set (w2 := x) in * end.
  destruct (remove_all_run after w2) as (em3 & t3 & Hc & Hl3 & _).
  match type of Hc with _ = mkResult _ ?x _ => set (w3 := x) in * end.
  assert (Hp : teardown_until before a w =
               mkResult (Normal tt) w2
                 (tr0 ++ [ClassRemove TaskManagerEl "to-home"] ++
                  [ClassRemove TaskManagerEl "filtered"] ++ t1 ++ t2)).
  { unfold teardown_until.
    erewrite bind_runs; [reflexivity | exact Hrun0 | ].
    erewrite bind_runs; [reflexivity | reflexivity | ].
    erewrite bind_runs; [reflexivity | reflexivity | ].
    erewrite bind_runs; [reflexivity | exact Hb | exact Ha]. }
  assert (Hall : remove_all (before ++ a :: after) w0 =
                 mkResult (Normal tt) w3
                   (t1 ++ (t2 ++ [LeaveTaskManager a]) ++ t3)).
  { eapply remove_all_app; [exact Hb|].
    unfold remove_all. rewrite forEach_cons. fold (remove_all after).
    erewrite bind_runs; [reflexivity | | exact Hc].
    erewrite bind_runs; [reflexivity | exact Ha | reflexivity]. }
  assert (Ht : hide_teardown w =
               mkResult (Normal tt) w3
                 (tr0 ++ [ClassRemove TaskManagerEl "to-home"] ++
                  [ClassRemove TaskManagerEl "filtered"] ++ [] ++
                  t1 ++ (t2 ++ [LeaveTaskManager a]) ++ t3)).
  { unfold hide_teardown.
    erewrite bind_runs; [reflexivity | exact Hrun0 | ].
    erewrite bind_runs; [reflexivity | reflexivity | ].
    erewrite bind_runs; [reflexivity | reflexivity | ].
    erewrite bind_runs; [reflexivity | reflexivity | ].
    cbv beta. rewrite Hst0. exact Hall. }
  rewrite Hp, Ht. cbn [outcome world trace].
  split; [reflexivity|].
  split; [rewrite !left_app, L0, Hl1, L2; simpl; now rewrite app_nil_r|].
  split; [unfold w2; simpl; apply get_delete_same|].
  exists t3. split; [|exact Hl3].
  simpl. rewrite <- !app_assoc. simpl. rewrite <- !app_assoc. reflexivity.
Qed.

(** C3 (amended): in every reconciliation pass the windows that receive
    [enterTaskManager] are exactly the windows a card record is created
    for, each once; the pass itself calls no [leaveTaskManager].
    [leaveTaskManager] is called by the teardown of [hide], once for every
    entry of the stack, after its record is removed: the notification of
    an entry is the event that follows the removal of its own record, the
    entries before it, and no others, having been notified, and in the
    state it is sent in the window has no record. No record is left
    afterwards. *)
Theorem lifecycle_notifications env w :
  (let r := updateStack env w in
   entered (trace r) = created (trace r) /\
   NoDup (entered (trace r)) /\
   (forall a, In a (entered (trace r)) <->
              In a (JSMap.keys (appToCardMap (tm (world r)))) /\
              ~ In a (JSMap.keys (appToCardMap (tm w)))) /\
   left_ (trace r) = []) /\
  (let r := hide_teardown w in
   outcome r = Normal tt /\
   left_ (trace r) = stack (tm w) /\
   entered (trace r) = [] /\
   (forall a, In a (stack (tm w)) ->
              JSMap.get a (appToCardMap (tm (world r))) = None) /\
   (forall before a after, stack (tm w) = before ++ a :: after ->
      let p := teardown_until before a w in
      outcome p = Normal tt /\
      left_ (trace p) = before /\
      JSMap.get a (appToCardMap (tm (world p))) = None /\
      exists rest,
        trace r = trace p ++ LeaveTaskManager a :: rest /\
        left_ rest = after)).
Proof.
  split.
  - destruct (updateStack_run env w)
      as (m & em & n & cc & tr & Hrun & Hk & _ & _ & Hc & Hl & Hnd & He & _).
    cbv zeta. rewrite Hrun. simpl.
    split; [now rewrite Hc|]. split; [exact Hnd|]. split; [|exact Hl].
    intros a. rewrite He, Hk. tauto.
  - cbv zeta. split; [|split; [|split; [|split]]].
    + destruct (hide_teardown_run w) as (em & tr & Hrun & _).
      now rewrite Hrun.
    + destruct (hide_teardown_run w) as (em & tr & Hrun & Hl & _).
      now rewrite Hrun.
    + destruct (hide_teardown_run w) as (em & tr & Hrun & _ & He & _).
      now rewrite Hrun.
    + destruct (hide_teardown_run w) as (em & tr & Hrun & _).
      rewrite Hrun. simpl. intros a Ha. now apply delete_all_get.
    + intros before a after Hst. exact (teardown_order w before a after Hst).
Qed.

Lemma lifecycle_notifications_witness :
  let p := teardown_until [1] 2 shown_three in
  JSMap.get 2 (appToCardMap (tm (world p))) = None /\
  exists rest,
    trace (hide_teardown shown_three) = trace p ++ LeaveTaskManager 2 :: rest /\
    left_ rest = [3].
Proof.
  cbv zeta.
  destruct (proj2 (proj2 (proj2 (proj2
              (proj2 (lifecycle_notifications
                        (sample_env [1; 2; 3] 320 0%Q) shown_three)))))
              [1] 2 [3] eq_refl)
    as (_ & _ & Hget & Hrest).
  split; [exact Hget | exact Hrest].
Defined.

(** * The scroll-position tracker *)

(** The index [getCurrentIndex] computes: the floor of the offset in card
    widths, clamped from above only. *)
Lemma getCurrentIndex_value env t cw :
  cardWidth t = Some cw -> (0 < cw)%Q -> stack t <> [] ->
  let n := Z.of_nat (List.length (stack t)) in
  let f := Qfloor (scrollLeft env / cw)%Q in
  getCurrentIndex env t = Fin (inject_Z (Z.min (n - 1) f)) /\
  (1 <= n)%Z /\
  ((0 <= scrollLeft env)%Q -> (0 <= f)%Z) /\
  ((scrollLeft env < 0)%Q -> (f < 0)%Z).
Proof.
  intros Hcw Hpos Hne n f.
  split; [|split; [|split]].
  - unfold getCurrentIndex. rewrite Hcw, (js_div_finite _ _ Hpos).
    simpl js_floor. apply js_min_inject.
  - unfold n. destruct (stack t); [congruence | simpl List.length; lia].
  - intros Hs. apply Qfloor_nonneg, Qdiv_nonneg; assumption.
  - intros Hs. apply Qfloor_neg, Qdiv_neg; assumption.
Qed.

Lemma array_at_negative (l : list nat) i :
  (i < 0)%Z -> array_at l (Fin (inject_Z i)) = None.
Proof.
  intros Hi. unfold array_at. cbv zeta. rewrite Qfloor_Z.
  destruct (Z.leb_spec 0 i); [lia|]. now rewrite andb_false_r.
Qed.

Lemma write_aria_undefined_hides (l : list AppWindow) :
  emits_only hides_card (write_aria JUndefined l).
Proof. unfold write_aria, write_aria_card. emits. Qed.

(** C4: the claim holds for every scroll offset that is not negative, and
    fails for every negative one. For a non-empty stack of [n] cards and a
    positive card width the index computed is
    [min(n - 1, floor(scrollOffset / cardWidth))]: the lower end is not
    clamped. For a non-negative offset this is the floor clamped to
    [0, n - 1]. For a negative offset the clamped value is 0 but the index
    computed is negative; it is no index into the stack, so the card
    [updateScrollPosition] computes is [undefined]: the current card is
    lost and every [aria-hidden] it writes is [true]. *)
Theorem getCurrentIndex_lower_clamp_missing env t cw :
  cardWidth t = Some cw -> (0 < cw)%Q -> stack t <> [] ->
  let n := Z.of_nat (List.length (stack t)) in
  let f := Qfloor (scrollLeft env / cw)%Q in
  exists i,
    getCurrentIndex env t = Fin (inject_Z i) /\
    i = Z.min (n - 1) f /\
    (i <= n - 1)%Z /\
    ((0 <= scrollLeft env)%Q ->
       i = clamp f 0 (n - 1) /\ (0 <= i <= n - 1)%Z) /\
    ((scrollLeft env < 0)%Q ->
       (i < 0)%Z /\ clamp f 0 (n - 1) = 0%Z /\
       array_at (stack t) (getCurrentIndex env t) = None /\
       computed_currentCard env t = JUndefined /\
       forall w, tm w = t ->
         let r := updateScrollPosition env w in
         currentCard (tm (world r)) = JUndefined /\
         forallb hides_card (trace r) = true).
Proof.
  intros Hcw Hpos Hne n f.
  destruct (getCurrentIndex_value env t cw Hcw Hpos Hne)
    as (Hval & Hn & Hnonneg & Hneg).
  fold n in Hval, Hn. fold f in Hval, Hnonneg, Hneg.
  exists (Z.min (n - 1) f).
  split; [exact Hval|]. split; [reflexivity|]. split; [lia|]. split.
  - intros Hs. specialize (Hnonneg Hs). unfold clamp. lia.
  - intros Hs. specialize (Hneg Hs).
    assert (Hi : (Z.min (n - 1) f < 0)%Z) by lia.
    assert (Harr : array_at (stack t) (getCurrentIndex env t) = None)
      by (rewrite Hval; apply array_at_negative; exact Hi).
    assert (Hcc : computed_currentCard env t = JUndefined)
      by (unfold computed_currentCard; rewrite Harr; reflexivity).
    split; [exact Hi|]. split; [unfold clamp; lia|].
    split; [exact Harr|]. split; [exact Hcc|].
    intros w Hw. cbv zeta. unfold updateScrollPosition.
    rewrite bind_this, Hw, Hcc.
    assert (Hset : let r := bind (modify (set_currentCard JUndefined))
                              (fun _ => write_aria JUndefined (stack t)) w in
                   currentCard (tm (world r)) = JUndefined /\
                   forallb hides_card (trace r) = true).
    { pose proof (write_aria_undefined_hides (stack t)
                    (world (modify (set_currentCard JUndefined) w))) as Hh.
      cbv zeta. unfold bind. cbn [modify outcome world trace tm app] in *.
      split; [|exact Hh].
      unfold write_aria. rewrite write_aria_loop_world. reflexivity. }
    destruct (currentCard t) as [| |c] eqn:Hcur; cbn [ref_same negb].
    + exact Hset.
    + cbn [ret world trace tm forallb]. rewrite Hw. auto.
    + exact Hset.
Qed.

Lemma getCurrentIndex_lower_clamp_missing_witness :
  let env := sample_env [1; 2; 3] 320 (-160)%Q in
  getCurrentIndex env (tm three_cards) = Fin (inject_Z (-1)) /\
  clamp (Qfloor (scrollLeft env / (320 # 2))%Q) 0
    (Z.of_nat (List.length (stack (tm three_cards))) - 1) = 0%Z /\
  currentCard (tm three_cards) <> JUndefined /\
  currentCard (tm (world (updateScrollPosition env three_cards))) = JUndefined.
Proof.
  cbv zeta.
  assert (H1 : cardWidth (tm three_cards) = Some (320 # 2)%Q) by reflexivity.
  assert (H2 : (0 < 320 # 2)%Q) by reflexivity.
  assert (H3 : stack (tm three_cards) <> []) by discriminate.
  destruct (getCurrentIndex_lower_clamp_missing
              (sample_env [1; 2; 3] 320 (-160)%Q) (tm three_cards)
              (320 # 2)%Q H1 H2 H3)
    as (i & Hi & Hmin & _ & _ & Hneg).
  assert (Hs : Qlt (scrollLeft (sample_env [1; 2; 3] 320 (-160)%Q)) 0%Q)
    by reflexivity.
  destruct (Hneg Hs) as (_ & Hclamp & _ & _ & Hupd).
  destruct (Hupd three_cards eq_refl) as [Hcur _].
  vm_compute in Hmin. subst i.
  split; [exact Hi|]. split; [exact Hclamp|].
  split; [discriminate | exact Hcur].
Defined.

(** C9: when the card computed from the scroll position is the one
    recorded by the previous update, [updateScrollPosition] does nothing at
    all: the state is untouched and no attribute is written. An attribute
    is written only if the current card has changed, and an update that
    follows another one with nothing changed in between writes nothing. *)
Theorem updateScrollPosition_skips_unchanged env w :
  (ref_same (currentCard (tm w)) (computed_currentCard env (tm w)) = true ->
   updateScrollPosition env w = mkResult (Normal tt) w []) /\
  (filter is_attribute_write (trace (updateScrollPosition env w)) <> [] ->
   ref_same (currentCard (tm w)) (computed_currentCard env (tm w)) = false) /\
  (let r1 := updateScrollPosition env w in
   updateScrollPosition env (world r1) = mkResult (Normal tt) (world r1) []).
Proof.
  split; [apply updateScrollPosition_unchanged|]. split.
  - intros H.
    destruct (ref_same (currentCard (tm w)) (computed_currentCard env (tm w)))
      eqn:E; [|reflexivity].
    rewrite (updateScrollPosition_unchanged _ _ E) in H. now elim H.
  - cbv zeta. apply updateScrollPosition_unchanged, updateScrollPosition_settles.
Qed.

Lemma updateScrollPosition_skips_unchanged_witness :
  let env := sample_env [1; 2; 3] 320 100%Q in
  ref_same (currentCard (tm three_cards))
    (computed_currentCard env (tm three_cards)) = true /\
  updateScrollPosition env three_cards = mkResult (Normal tt) three_cards [].
Proof.
  cbv zeta. split.
  - reflexivity.
  - apply (proj1 (updateScrollPosition_skips_unchanged
                    (sample_env [1; 2; 3] 320 100%Q) three_cards)).
    reflexivity.
Defined.

(** * The layout engine *)

(** C5: for every viewport and every number [n >= 0] of cards, a layout
    pass completes, sets the card width to half the viewport width, sends
    to the card at position [i] the offset
    [margin / 2 + i * (cardWidth + gutter)] with
    [margin = viewportWidth - cardWidth], so that consecutive offsets
    differ by [cardWidth + gutter], and writes the total width
    [margin + max(cardWidth, cardWidth * n + gutter * (n - 1))], which is
    not negative; with no card at all the width is the viewport width. *)
Theorem updateLayout_geometry env w :
  stack_covered (tm w) -> (0 <= innerWidth env)%Z ->
  let r := updateLayout env w in
  let n := List.length (stack (tm w)) in
  let cardWidth' := (inject_Z (innerWidth env) / 2)%Q in
  let margin := (inject_Z (innerWidth env) - cardWidth')%Q in
  let offsets := map snd (translates (trace r)) in
  outcome r = Normal tt /\
  cardWidth (tm (world r)) = Some cardWidth' /\
  cards_of (appToCardMap (tm w)) (stack (tm w))
    (map fst (translates (trace r))) /\
  List.length offsets = n /\
  (forall i x, nth_error offsets i = Some x ->
     (x == margin / 2 + inject_Z (Z.of_nat i) * (cardWidth' + CARD_GUTTER))%Q) /\
  (forall i x y, nth_error offsets i = Some x ->
     nth_error offsets (S i) = Some y ->
     (y - x == cardWidth' + CARD_GUTTER)%Q) /\
  exists total,
    widths (trace r) = [total] /\
    (total == margin +
              Qmax cardWidth'
                (cardWidth' * inject_Z (Z.of_nat n) +
                 CARD_GUTTER * (inject_Z (Z.of_nat n) - 1)))%Q /\
    (0 <= total)%Q /\
    (n = 0 -> (total == inject_Z (innerWidth env))%Q).
Proof.
  intros Hcov Hw.
  destruct (updateLayout_run env w Hcov)
    as (cc & cards & tr_aria & Hcards & Hrun & _ & Haria).
  cbv zeta. rewrite Hrun. cbn [outcome world trace].
  destruct (translates_of_layout (layout_left env)
              (combine cards (seq 0 (List.length (stack (tm w)))))
              (layout_contentWidth env (List.length (stack (tm w))))
              tr_aria Haria) as [Ht Hwd].
  rewrite Ht, Hwd.
  pose proof (cards_of_length _ _ _ Hcards) as Hlen.
  rewrite <- Hlen, map_fst_combine_seq, map_snd_combine_seq.
  assert (Hoff : forall i x,
             nth_error (map (layout_left env) (seq 0 (List.length cards))) i
             = Some x -> x = layout_left env i).
  { intros i x H. apply nth_error_map_seq in H. now destruct H. }
  assert (H0 : (0 <= inject_Z (innerWidth env))%Q)
    by (change 0%Q with (inject_Z 0); now rewrite <- Zle_Qle).
  split; [reflexivity|]. split; [reflexivity|]. split; [exact Hcards|].
  split; [now rewrite length_map, length_seq|].
  split; [|split].
  - intros i x H. rewrite (Hoff i x H).
    unfold layout_left, layout_margins, layout_cardWidth. ring.
  - intros i x y Hx Hy. rewrite (Hoff i x Hx), (Hoff (S i) y Hy).
    unfold layout_left, layout_margins, layout_cardWidth.
    rewrite Nat2Z.inj_succ. unfold Z.succ. rewrite inject_Z_plus. ring.
  - exists (layout_contentWidth env (List.length cards)).
    split; [reflexivity|]. split; [reflexivity|].
    unfold layout_contentWidth, layout_margins, layout_cardWidth.
    split.
    + match goal with
      | |- (0 <= _ + Qmax ?a ?b)%Q => destruct (Qmax_spec a b) as [Hm _]
      end.
      lra.
    + intros Hn. rewrite Hn. simpl Z.of_nat.
      rewrite Qmax_left; [field|].
      unfold CARD_GUTTER. change (inject_Z 0) with 0%Q.
      pose proof (Qdiv_nonneg _ 2 H0 eq_refl) as Hhalf.
      rewrite Qmult_0_r. lra.
Qed.

Lemma updateLayout_geometry_witness :
  let r := updateLayout (sample_env [1; 2; 3] 320 0%Q) three_cards in
  outcome r = Normal tt /\
  cardWidth (tm (world r)) = Some (inject_Z 320 / 2)%Q /\
  widths (trace r) = [(2760 # 4)%Q] /\
  map snd (translates (trace r)) = [(640 # 8)%Q; (2120 # 8)%Q; (3600 # 8)%Q].
Proof.
  assert (Hcov : stack_covered (tm three_cards)).
  { intros a Ha. vm_compute in Ha.
    destruct Ha as [<-|[<-|[<-|[]]]]; discriminate. }
  assert (Hw : Z.le 0 (innerWidth (sample_env [1; 2; 3] 320 0%Q)))
    by (simpl; lia).
  pose proof (updateLayout_geometry (sample_env [1; 2; 3] 320 0%Q)
                three_cards Hcov Hw) as H.
  cbv zeta in H. destruct H as (Ho & Hc & _).
  cbv zeta. split; [exact Ho|]. split; [exact Hc|]. split; reflexivity.
Defined.

(** * The visibility lifecycle *)

(** C7: a call of [show] made while the switcher is shown or a transition
    is in flight returns a resolved promise, leaves the state as it is and
    has no effect at all. So when [show] is called on a hidden switcher and
    called again any number of times while the screen gets ready, while the
    replaced window closes, and afterwards, exactly one [cardviewshown] is
    published. *)
Theorem show_guarded_against_reentry :
  (forall opts w,
     isShown (tm w) || _isTransitioning (tm w) = true ->
     show opts w = mkResult (Normal PResolved) w []) /\
  (forall w env opts again1 ready again2 closed again3,
     isShown (tm w) = false -> _isTransitioning (tm w) = false ->
     pending w = [] ->
     count_published "cardviewshown"
       (trace
          (run ((env, CallShow opts) :: show_calls again1 ++
                (ready, ScreenReady) :: show_calls again2 ++
                (closed, AppClosed) :: show_calls again3) w)) = 1).
Proof.
  split; [exact show_noop|].
  intros w env0 opts0 again1 ready again2 closed again3 H1 H2 Hp.
  rewrite run_cons, (step_first_show _ _ _ H1 H2 Hp). cbn [world trace].
  rewrite run_app, run_show_calls_noop; cycle 1.
  { simpl. apply orb_true_r. }
  { intros p [<-|[]]. reflexivity. }
  cbn [world trace].
  rewrite run_cons.
  match goal with
  | |- context [step ready ScreenReady ?w1] =>
      destruct (step_screen_ready ready w1) as (T & n & tr & Hrun & HT & Hc)
  end.
  { simpl. exact H1. }
  { reflexivity. }
  rewrite Hrun. cbn [world trace].
  rewrite run_app, run_show_calls_noop; cycle 1.
  { simpl. unfold isShown, isActive. now rewrite HT. }
  { intros p [<-|[]]. reflexivity. }
  cbn [world trace].
  rewrite run_cons.
  erewrite step_app_closed by reflexivity. cbn [world trace].
  rewrite run_show_calls_noop; cycle 1.
  { simpl. unfold isShown, isActive. now rewrite HT. }
  { intros p []. }
  cbn [trace]. rewrite !count_published_app, Hc. reflexivity.
Qed.

Lemma show_guarded_against_reentry_witness :
  let env := sample_env [1; 2; 3] 320 0%Q in
  count_published "cardviewshown"
    (trace
       (run [(env, CallShow None); (env, CallShow (Some true));
             (env, ScreenReady); (env, CallShow None);
             (env, AppClosed); (env, CallShow None)] initial_world)) = 1.
Proof.
  cbv zeta.
  apply (proj2 show_guarded_against_reentry initial_world
           (sample_env [1; 2; 3] 320 0%Q) None
           [(sample_env [1; 2; 3] 320 0%Q, Some true)]
           (sample_env [1; 2; 3] 320 0%Q)
           [(sample_env [1; 2; 3] 320 0%Q, None)]
           (sample_env [1; 2; 3] 320 0%Q)
           [(sample_env [1; 2; 3] 320 0%Q, None)]);
    reflexivity.
Defined.

(** C6: evaluated where no target window can be resolved, [hide] does not
    skip the open transition and go on to the teardown: it throws at
    [newApp.isHomescreen] after it has set the transition flag and
    published [cardviewclosed]. No callback is registered, no card is
    removed, no window is told it left, the switcher stays shown with the
    transition flag set, and from then on [show] and [hide] are both
    no-ops. *)
Theorem hide_unresolvable_target_throws env w animation :
  isShown (tm w) = true -> _isTransitioning (tm w) = false ->
  getActiveWindow env = None -> getHomescreen env = None ->
  let r := hide env None animation w in
  outcome r = Throw "TypeError: newApp is null" /\
  _active (tm (world r)) = true /\
  _isTransitioning (tm (world r)) = true /\
  pending (world r) = pending w /\
  appToCardMap (tm (world r)) = appToCardMap (tm w) /\
  left_ (trace r) = [] /\
  count_published "cardviewclosed" (trace r) = 1 /\
  (forall opts, show opts (world r) = mkResult (Normal PResolved) (world r) []) /\
  (forall env' newApp animation',
     hide env' newApp animation' (world r)
     = mkResult (Normal PResolved) (world r) []).
Proof.
  intros H1 H2 Ha Hh.
  assert (Ht : hide_target env None = None)
    by (unfold hide_target; simpl; now rewrite Ha, Hh).
  cbv zeta. rewrite (hide_throws env None animation w H1 H2 Ht).
  cbn [outcome world trace].
  split; [reflexivity|]. split; [exact H1|].
  repeat split.
  - intros opts. apply show_noop. simpl. apply orb_true_r.
  - intros env' newApp animation'. apply hide_noop. simpl. apply orb_true_r.
Qed.

Lemma hide_unresolvable_target_throws_witness :
  let r := hide (sample_env [1; 2; 3] 320 0%Q) None None shown_three in
  isShown (tm shown_three) = true /\
  outcome r = Throw "TypeError: newApp is null" /\
  _active (tm (world r)) = true /\
  _isTransitioning (tm (world r)) = true /\
  left_ (trace r) = [].
Proof.
  pose proof (hide_unresolvable_target_throws
                (sample_env [1; 2; 3] 320 0%Q) shown_three None
                eq_refl eq_refl eq_refl eq_refl) as H.
  cbv zeta in H. destruct H as (Ho & Hact & Htr & _ & _ & Hl & _).
  cbv zeta. split; [reflexivity|]. repeat split; assumption.
Defined.

(** * Card actions *)

(** C8: a close action on a card of a stack of at least two cards. When
    the card is in the last position, the call itself kills nothing: it
    pans towards the second-to-last card and [kill] is the continuation of
    the pan, so that with a scroll to perform the trace shows the scroll
    alone until the pan's 200 time-units have elapsed and then the scroll
    followed by the kill (with no scroll to perform the kill follows in the
    same turn, after the call has returned). When the card is in an earlier
    position, [kill] is called at once and nothing is scrolled. *)
Theorem close_pans_before_kill env w card :
  2 <= List.length (stack (tm w)) -> pending w = [] ->
  let n := List.length (stack (tm w)) in
  let target := nth_error (stack (tm w)) (n - 2) in
  let close := (env, CallCardAction card "close") in
  (indexOf (stack (tm w)) (card_app card) = (Z.of_nat n - 1)%Z ->
   filter is_kill (trace (cardAction env card "close" w)) = [] /\
   (forall cw, NoDup (stack (tm w)) -> cardWidth (tm w) = Some cw ->
      pan_target env (tm w) target
      = Fin ((cw + CARD_GUTTER) * inject_Z (Z.of_nat n - 2))%Q) /\
   if js_num_eq (Fin (scrollLeft env)) (pan_target env (tm w) target)
   then trace (run [close] w) = [Kill (card_app card)]
   else
     (forall env' j, j < 200 ->
        trace (run (close :: ticks env' j) w)
        = [ScrollTo (pan_target env (tm w) target) "smooth"]) /\
     (forall env',
        trace (run (close :: ticks env' 200) w)
        = [ScrollTo (pan_target env (tm w) target) "smooth";
           Kill (card_app card)])) /\
  (indexOf (stack (tm w)) (card_app card) <> (Z.of_nat n - 1)%Z ->
   cardAction env card "close" w
   = mkResult (Normal tt) w [Kill (card_app card)] /\
   trace (run [close] w) = [Kill (card_app card)]).
Proof.
  intros Hn Hp. cbv zeta. split.
  - intros Hi.
    assert (Hn' : 1 < List.length (stack (tm w))) by lia.
    pose proof (cardAction_close_last env w card Hn' Hi) as Hca.
    pose proof (step_close_last env w card Hp Hn' Hi) as Hst.
    cbv zeta in Hca, Hst.
    split; [|split].
    + rewrite Hca. destruct (js_num_eq _ _); reflexivity.
    + intros cw Hnd Hcw. unfold pan_target. rewrite Hcw.
      destruct (nth_error (stack (tm w)) (List.length (stack (tm w)) - 2))
        as [a|] eqn:E.
      * unfold indexOf. rewrite (indexOf_from_nth _ 0 _ a Hnd E).
        destruct (Z.eqb_spec (0 + Z.of_nat (List.length (stack (tm w)) - 2)) (-1));
          [lia|].
        do 3 f_equal. lia.
      * apply nth_error_None in E. lia.
    + destruct (js_num_eq _ _).
      * rewrite run_cons, Hst. reflexivity.
      * split.
        -- intros env' j Hj. rewrite run_cons, Hst. cbn [world trace].
           rewrite (run_ticks_waiting env' (now w + 200) (KKill (card_app card)));
             [reflexivity | reflexivity | simpl; lia].
        -- intros env'. rewrite ticks_snoc, app_comm_cons, run_app.
           cbn [trace world]. rewrite run_cons, Hst. cbn [world trace].
           rewrite (run_ticks_waiting env' (now w + 200) (KKill (card_app card)));
             [|reflexivity | simpl; lia].
           cbn [world trace].
           rewrite run_cons,
             (step_tick_kill env' _ (now w + 200) (card_app card));
             [reflexivity | reflexivity | simpl; lia].
  - intros Hi. split.
    + apply cardAction_close_other, Hi.
    + rewrite run_cons, (step_close_other env w card Hp Hi). reflexivity.
Qed.

Lemma close_pans_before_kill_witness :
  let env := sample_env [1; 2; 3] 320 0%Q in
  let last := mkCard 2 3 2 false in
  let first := mkCard 0 1 0 false in
  trace (run ((env, CallCardAction last "close") :: ticks env 200) three_cards)
  = [ScrollTo (Fin (((320 # 2) + CARD_GUTTER) * inject_Z 1)%Q) "smooth";
     Kill 3] /\
  trace (run [(env, CallCardAction first "close")] three_cards) = [Kill 1].
Proof.
  pose proof (close_pans_before_kill (sample_env [1; 2; 3] 320 0%Q)
                three_cards (mkCard 2 3 2 false)) as HL.
  pose proof (close_pans_before_kill (sample_env [1; 2; 3] 320 0%Q)
                three_cards (mkCard 0 1 0 false)) as HF.
  cbv zeta in HL, HF.
  assert (Hn : 2 <= List.length (stack (tm three_cards))) by (simpl; lia).
  destruct (HL Hn eq_refl) as [HL1 _]. destruct (HF Hn eq_refl) as [_ HF2].
  destruct (HL1 eq_refl) as (_ & _ & HL3).
  change (js_num_eq (Fin (scrollLeft (sample_env [1; 2; 3] 320 0%Q)))
            (pan_target (sample_env [1; 2; 3] 320 0%Q) (tm three_cards)
               (nth_error (stack (tm three_cards))
                  (List.length (stack (tm three_cards)) - 2))))
    with false in HL3.
  destruct HL3 as [_ HL4].
  assert (Hne : indexOf (stack (tm three_cards)) (card_app (mkCard 0 1 0 false))
                <> (Z.of_nat (List.length (stack (tm three_cards))) - 1)%Z)
    by (vm_compute; discriminate).
  destruct (HF2 Hne) as [_ HF3].
  cbv zeta. split; [exact (HL4 (sample_env [1; 2; 3] 320 0%Q)) | exact HF3].
Defined.

(** * Further properties of the lifecycle *)

(** ** A failed [hide] is never recovered from *)

Section KeepsStuck.

Lemma ks_ret {A} (a : A) : keeps_stuck (ret a).
Proof. intros w H. split; [exact H | reflexivity]. Qed.

Lemma ks_throw {A} msg : keeps_stuck (@throw A msg).
Proof. intros w H. split; [exact H | reflexivity]. Qed.

Lemma ks_this : keeps_stuck this.
Proof. intros w H. split; [exact H | reflexivity]. Qed.

Lemma ks_clock : keeps_stuck clock.
Proof. intros w H. split; [exact H | reflexivity]. Qed.

Lemma ks_fresh : keeps_stuck fresh.
Proof. intros w H. split; [exact H | reflexivity]. Qed.

Lemma ks_advance : keeps_stuck advance.
Proof. intros w H. split; [exact H | reflexivity]. Qed.

Lemma ks_emit e : not_teardown_effect e = true -> keeps_stuck (emit e).
Proof. intros He w H. split; [exact H | simpl; now rewrite He]. Qed.

Lemma ks_modify f :
  (forall t, _active (f t) = _active t) ->
  (forall t, _isTransitioning t = true -> _isTransitioning (f t) = true) ->
  keeps_stuck (modify f).
Proof.
  intros Ha Ht w (H1 & H2 & H3). split; [|reflexivity].
  unfold stuck. simpl. rewrite Ha. auto.
Qed.

Lemma ks_await p : continuation_of p <> KHideTeardown -> keeps_stuck (await p).
Proof.
  intros Hp w (H1 & H2 & H3). split; [|reflexivity].
  unfold stuck. simpl. split; [exact H1|]. split; [exact H2|].
  intros q Hq. apply in_app_or in Hq. destruct Hq as [Hq|[<-|[]]]; auto.
Qed.

Lemma ks_bind {A B} (m : M A) (f : A -> M B) :
  keeps_stuck m -> (forall a, keeps_stuck (f a)) -> keeps_stuck (bind m f).
Proof.
  intros Hm Hf w H. unfold bind. destruct (Hm w H) as [H1 H2].
  destruct (outcome (m w)); simpl; [|auto].
  destruct (Hf a _ H1) as [H3 H4]. split; [exact H3|].
  now rewrite forallb_app, H2, H4.
Qed.

Lemma ks_forEach {A} (l : list A) f :
  (forall x, keeps_stuck (f x)) -> keeps_stuck (forEach l f).
Proof.
  intros H. induction l as [|x l IH]; simpl.
  - apply ks_ret.
  - apply ks_bind; auto.
Qed.

Lemma ks_forEach_from {A} (l : list A) f : forall i,
  (forall x i, keeps_stuck (f x i)) -> keeps_stuck (forEach_from i l f).
Proof.
  induction l as [|x l IH]; intros i H; simpl.
  - apply ks_ret.
  - apply ks_bind; auto.
Qed.

Lemma ks_guarded {A} (m : M A) : keeps_stuck m -> keeps_stuck (guarded m).
Proof.
  intros Hm w H. destruct (Hm w H) as [H1 H2]. unfold guarded.
  destruct (outcome (m w)); simpl; [auto|].
  split; [exact H1|]. now rewrite forallb_app, H2.
Qed.

End KeepsStuck.

Ltac ks_step :=
  first
    [ apply ks_ret
    | apply ks_throw
    | apply ks_this
    | apply ks_clock
    | apply ks_fresh
    | apply ks_advance
    | apply ks_emit; reflexivity
    | apply ks_modify; [reflexivity | intros ? ?; simpl; auto]
    | apply ks_await; discriminate
    | apply ks_bind; [|intro]
    | apply ks_forEach; intro
    | apply ks_forEach_from; intros
    | match goal with
      | |- keeps_stuck (match ?x with _ => _ end) => destruct x
      end ].

Ltac ks := repeat ks_step.

Tactic Notation "ks_with" tactic3(leaf) := repeat first [leaf | ks_step].

Lemma ks_updateScrollPosition env : keeps_stuck (updateScrollPosition env).
Proof. unfold updateScrollPosition, write_aria, write_aria_card. ks. Qed.

Lemma ks_updateLayout env : keeps_stuck (updateLayout env).
Proof.
  unfold updateLayout, translate_cards, translate_card.
  ks_with (apply ks_updateScrollPosition).
Qed.

Lemma ks_updateStack env : keeps_stuck (updateStack env).
Proof.
  unfold updateStack, remove_stale, add_missing, _removeApp, _addApp.
  ks_with (apply ks_updateLayout).
Qed.

Lemma ks_show opts : keeps_stuck (show opts).
Proof. unfold show, publish, waitForScreenToBeReady_then. ks. Qed.

Lemma ks_hide env newApp animation : keeps_stuck (hide env newApp animation).
Proof.
  intros w H. rewrite hide_noop.
  - split; [exact H | reflexivity].
  - destruct H as (_ & H & _). rewrite H. apply orb_true_r.
Qed.

Lemma ks_setActive_true : keeps_stuck (setActive true).
Proof.
  intros w H. destruct H as (H1 & H2 & H3).
  assert (E : setActive true w = mkResult (Normal tt) w []).
  { unfold setActive, bind, this. simpl. rewrite H1. reflexivity. }
  rewrite E. split; [repeat split; assumption | reflexivity].
Qed.

Lemma ks_panToApp env app immediately : keeps_stuck (panToApp env app immediately).
Proof.
  intros w H. rewrite panToApp_run. destruct (js_num_eq _ _); split; auto.
Qed.

Lemma ks_cardAction env card actionName :
  keeps_stuck (cardAction env card actionName).
Proof.
  unfold cardAction.
  destruct (String.eqb actionName "close").
  - unfold and_then. ks_with (apply ks_panToApp).
  - destruct (String.eqb actionName "favorite"); [ks|].
    destruct (String.eqb actionName "select"); [|ks].
    unfold and_then. ks_with (apply ks_panToApp).
Qed.

Lemma ks_show_ready env : keeps_stuck (show_ready env).
Proof.
  unfold show_ready, waitForAppToClose_then.
  ks_with (first [ apply ks_updateStack | apply ks_panToApp
                 | apply ks_setActive_true ]).
Qed.

Lemma ks_run_continuation env k :
  k <> KHideTeardown -> keeps_stuck (run_continuation env k).
Proof.
  intros Hk. destruct k; simpl; try congruence.
  - apply ks_show_ready.
  - unfold show_done, publish. ks.
  - ks.
  - apply ks_bind; [apply ks_hide | intro; ks].
  - apply ks_cardAction.
Qed.

Lemma select_pending_spec due l :
  (forall p, In p (snd (select_pending due l)) -> In p l) /\
  (forall k, In k (fst (select_pending due l)) ->
             exists p, In p l /\ due p = Some k).
Proof.
  induction l as [|p l [IH1 IH2]]; simpl; [split; intros ? []|].
  destruct (select_pending due l) as [ks rest]. simpl in *.
  destruct (due p) as [k|] eqn:E; simpl; split.
  - intros q Hq. auto.
  - intros k' [<-|Hk']; [exists p; auto|].
    destruct (IH2 k' Hk') as (q & Hq & Hd). exists q. auto.
  - intros q [<-|Hq]; auto.
  - intros k' Hk'. destruct (IH2 k' Hk') as (q & Hq & Hd). exists q. auto.
Qed.

Lemma ks_selected env ks' : forall w,
  (forall k, In k ks' -> k <> KHideTeardown) ->
  stuck w ->
  stuck (world (forEach ks' (fun k => guarded (run_continuation env k)) w)) /\
  forallb not_teardown_effect
    (trace (forEach ks' (fun k => guarded (run_continuation env k)) w)) = true.
Proof.
  induction ks' as [|k ks' IH]; intros w Hks Hw.
  - split; [exact Hw | reflexivity].
  - simpl forEach.
    assert (Hk : keeps_stuck (guarded (run_continuation env k)))
      by (apply ks_guarded, ks_run_continuation, Hks; simpl; auto).
    destruct (Hk w Hw) as [H1 H2].
    unfold bind. rewrite guarded_normal. simpl.
    destruct (IH (world (guarded (run_continuation env k) w))) as [H3 H4];
      [intros k' Hk'; apply Hks; simpl; auto | exact H1 |].
    split; [exact H3|]. now rewrite forallb_app, H2, H4.
Qed.

Lemma ks_fire env due : selects_registered due -> keeps_stuck (fire env due).
Proof.
  intros Hdue w (H1 & H2 & H3). unfold fire.
  destruct (select_pending_spec due (pending w)) as [Hrest Hks].
  destruct (select_pending due (pending w)) as [ks' rest]. simpl in *.
  apply ks_selected.
  - intros k Hk. destruct (Hks k Hk) as (p & Hp & Hd).
    rewrite (Hdue p k Hd). auto.
  - repeat split; auto. intros p Hp. simpl in Hp. auto.
Qed.

Lemma selects_registered_microtask : selects_registered is_microtask.
Proof. intros p k' H; destruct p; simpl in *; congruence. Qed.

Lemma selects_registered_screen_ready : selects_registered is_screen_ready.
Proof. intros p k' H; destruct p; simpl in *; congruence. Qed.

Lemma selects_registered_app_closed : selects_registered is_app_closed.
Proof. intros p k' H; destruct p; simpl in *; congruence. Qed.

Lemma selects_registered_event target name :
  selects_registered (is_event target name).
Proof.
  intros p k' H; destruct p; simpl in *; try congruence.
  destruct (_ && _); congruence.
Qed.

Lemma selects_registered_due time : selects_registered (is_due time).
Proof.
  intros p k' H; destruct p; simpl in *; try congruence;
    destruct (_ <=? _); congruence.
Qed.

Lemma stuck_task env i : keeps_stuck (task env i).
Proof.
  destruct i; simpl.
  - apply ks_guarded, ks_show.
  - apply ks_guarded, ks_hide.
  - apply ks_guarded, ks_cardAction.
  - apply ks_guarded, ks_updateStack.
  - apply ks_guarded, ks_updateLayout.
  - apply ks_guarded, ks_updateScrollPosition.
  - apply ks_fire, selects_registered_screen_ready.
  - apply ks_fire, selects_registered_app_closed.
  - apply ks_fire, selects_registered_event.
  - apply ks_bind; [apply ks_advance | intro].
    apply ks_bind; [apply ks_clock | intro].
    apply ks_fire, selects_registered_due.
Qed.

Lemma stuck_step env i : keeps_stuck (step env i).
Proof.
  unfold step. apply ks_bind; [apply stuck_task | intro].
  apply ks_fire, selects_registered_microtask.
Qed.

Lemma stuck_run inputs : keeps_stuck (run inputs).
Proof.
  induction inputs as [|[env i] inputs IH]; simpl.
  - apply ks_ret.
  - apply ks_bind; [apply stuck_step | intro; exact IH].
Qed.

Lemma not_teardown_trace tr :
  forallb not_teardown_effect tr = true ->
  left_ tr = [] /\ count_published "taskmanager-deactivated" tr = 0.
Proof.
  unfold count_published.
  induction tr as [|e tr IH]; simpl; [auto|].
  intros H. apply andb_true_iff in H. destruct H as [He H].
  destruct (IH H) as [IH1 IH2].
  destruct e; simpl in *; try discriminate; auto.
  split; [exact IH1|].
  destruct (String.eqb type "taskmanager-deactivated"); [discriminate | exact IH2].
Qed.

(** Once [hide] has thrown for want of a target window, nothing brings the
    switcher back: whatever calls, events, promise resolutions and timer
    ticks follow, it stays shown with the transition flag set, no window is
    told it left the switcher and [taskmanager-deactivated] is never
    published. *)
Theorem failed_hide_is_permanent env w animation inputs :
  isShown (tm w) = true -> _isTransitioning (tm w) = false ->
  getActiveWindow env = None -> getHomescreen env = None ->
  teardown_free (pending w) ->
  let r := run ((env, CallHide None animation) :: inputs) w in
  _active (tm (world r)) = true /\
  _isTransitioning (tm (world r)) = true /\
  left_ (trace r) = [] /\
  count_published "taskmanager-deactivated" (trace r) = 0.
Proof.
  intros H1 H2 Ha Hh Hp. cbv zeta.
  assert (Ht : hide_target env None = None)
    by (unfold hide_target; simpl; now rewrite Ha, Hh).
  pose proof (hide_throws env None animation w H1 H2 Ht) as Hthrow.
  assert (Htask : task env (CallHide None animation) w =
                  mkResult (Normal tt)
                    (with_tm (set_isTransitioning true (tm w)) w)
                    [RemoveListeners; ClassRemove ScreenEl "cards-view";
                     Publish "cardviewclosed" None;
                     Uncaught "TypeError: newApp is null"]).
  { simpl. unfold guarded. rewrite Hthrow. reflexivity. }
  assert (Hst : stuck (with_tm (set_isTransitioning true (tm w)) w)).
  { repeat split; auto. }
  destruct (ks_fire env is_microtask selects_registered_microtask _ Hst)
    as [Hst1 Htr1].
  rewrite run_cons. cbn [world trace].
  assert (Hstep : step env (CallHide None animation) w =
                  mkResult (Normal tt)
                    (world (fire env is_microtask
                              (with_tm (set_isTransitioning true (tm w)) w)))
                    ([RemoveListeners; ClassRemove ScreenEl "cards-view";
                      Publish "cardviewclosed" None;
                      Uncaught "TypeError: newApp is null"] ++
                     trace (fire env is_microtask
                              (with_tm (set_isTransitioning true (tm w)) w)))).
  { unfold step, bind. rewrite Htask. cbn [outcome world trace].
    now rewrite fire_normal. }
  rewrite Hstep. cbn [world trace].
  destruct (stuck_run inputs _ Hst1) as [(A & B & _) Htr2].
  split; [exact A|]. split; [exact B|].
  apply not_teardown_trace.
  rewrite !forallb_app, Htr1, Htr2. reflexivity.
Qed.

Lemma failed_hide_is_permanent_witness :
  let env := sample_env [1; 2; 3] 320 0%Q in
  let r := run [(env, CallHide None None); (env, Tick); (env, CallHide (Some 1) None);
                (env, CallShow None); (env, DomEvent 1 "_opened")]
             shown_three in
  _active (tm (world r)) = true /\
  _isTransitioning (tm (world r)) = true /\
  left_ (trace r) = [] /\
  count_published "taskmanager-deactivated" (trace r) = 0.
Proof.
  apply (failed_hide_is_permanent (sample_env [1; 2; 3] 320 0%Q) shown_three
           None).
  - reflexivity.
  - reflexivity.
  - reflexivity.
  - reflexivity.
  - intros p [].
Defined.

(** ** [hide] with a target window *)

Lemma step_tick_idle env w p :
  pending w = [p] -> is_due (S (now w)) p = None -> is_microtask p = None ->
  step env Tick w = mkResult (Normal tt) (with_now (S (now w)) w) [].
Proof.
  intros Hp Hd Hm. unfold step.
  assert (Htask : task env Tick w = mkResult (Normal tt) (with_now (S (now w)) w) []).
  { simpl. unfold bind, advance, clock. simpl.
    rewrite fire_none; [reflexivity|].
    simpl. rewrite Hp. intros q [<-|[]]. exact Hd. }
  erewrite bind_runs; [ | exact Htask | apply fire_none ].
  - reflexivity.
  - simpl. rewrite Hp. intros q [<-|[]]. exact Hm.
Qed.

Lemma run_ticks_safety_waiting env a name d k : forall j w,
  pending w = [OnEventOrTimeout a name d k] -> now w + j < d ->
  run (ticks env j) w = mkResult (Normal tt) (with_now (now w + j) w) [].
Proof.
  induction j as [|j IH]; intros w Hp Hd.
  - simpl. unfold ret. rewrite Nat.add_0_r. now destruct w.
  - change (ticks env (S j)) with ((env, Tick) :: ticks env j).
    rewrite run_cons, (step_tick_idle env w _ Hp).
    + cbn [world trace]. rewrite IH; simpl; [|exact Hp|lia].
      unfold with_now. simpl. now rewrite Nat.add_succ_r.
    + simpl. destruct (Nat.leb_spec d (S (now w))); [lia | reflexivity].
    + reflexivity.
Qed.

Lemma run_ticks_nothing_pending env : forall j w,
  pending w = [] ->
  run (ticks env j) w = mkResult (Normal tt) (with_now (now w + j) w) [].
Proof.
  induction j as [|j IH]; intros w Hp.
  - simpl. unfold ret. rewrite Nat.add_0_r. now destruct w.
  - change (ticks env (S j)) with ((env, Tick) :: ticks env j).
    rewrite run_cons.
    assert (Hstep : step env Tick w
                    = mkResult (Normal tt) (with_now (S (now w)) w) []).
    { unfold step. erewrite bind_runs; [ | | apply fire_none ].
      2: { simpl. unfold bind, advance, clock. simpl.
           rewrite fire_none; [reflexivity|]. simpl. rewrite Hp. intros q []. }
      - reflexivity.
      - simpl. rewrite Hp. intros q []. }
    rewrite Hstep. cbn [world trace]. rewrite IH by exact Hp.
    unfold with_now. simpl. now rewrite Nat.add_succ_r.
Qed.

Lemma step_hide_starts env newApp animation w a :
  isShown (tm w) = true -> _isTransitioning (tm w) = false ->
  hide_target env newApp = Some a -> pending w = [] ->
  exists tr,
    step env (CallHide newApp animation) w =
    mkResult (Normal tt)
      (mkWorld (set_isTransitioning true (tm w))
         [OnEventOrTimeout a "_opened" (now w + 1000) KHideTeardown]
         (now w) (next_ref w))
      tr /\
    left_ tr = [].
Proof.
  intros H1 H2 Ht Hp.
  destruct (hide_starts env newApp animation w a H1 H2 Ht) as (tr & Hrun & Hl & _).
  exists tr. split; [|exact Hl].
  unfold step. erewrite bind_runs; [ | | apply fire_none ].
  2: { simpl. unfold guarded. rewrite Hrun, Hp. reflexivity. }
  - now rewrite app_nil_r.
  - simpl. intros p [<-|[]]. reflexivity.
Qed.

(** The state and the trace once the teardown of [hide] has run on a shown
    switcher. *)
Lemma teardown_fires env due w a name d :
  pending w = [OnEventOrTimeout a name d KHideTeardown] ->
  due (OnEventOrTimeout a name d KHideTeardown) = Some KHideTeardown ->
  _active (tm w) = true ->
  exists em tr,
    fire env due w =
    mkResult (Normal tt)
      (mkWorld
         (with_maps (delete_all (stack (tm w)) (appToCardMap (tm w))) em
            (set_active false (set_isTransitioning false (tm w))))
         [] (now w) (next_ref w))
      tr /\
    left_ tr = stack (tm w) /\ entered tr = [].
Proof.
  intros Hp Hd Hact.
  destruct (hide_teardown_run (with_pending [] w)) as (em & tr & Hrun & Hl & He & _).
  simpl in Hrun, Hl. rewrite Hact in Hrun. simpl in Hrun.
  exists em, tr. split; [|split; [exact Hl | exact He]].
  rewrite (fire_single env due w _ KHideTeardown Hp Hd).
  erewrite bind_runs; [ | | reflexivity ].
  2: { unfold guarded. simpl run_continuation. rewrite Hrun. reflexivity. }
  now rewrite app_nil_r.
Qed.

Lemma step_tick_teardown env w a name d :
  pending w = [OnEventOrTimeout a name d KHideTeardown] ->
  d <= S (now w) -> _active (tm w) = true ->
  exists em tr,
    step env Tick w =
    mkResult (Normal tt)
      (mkWorld
         (with_maps (delete_all (stack (tm w)) (appToCardMap (tm w))) em
            (set_active false (set_isTransitioning false (tm w))))
         [] (S (now w)) (next_ref w))
      tr /\
    left_ tr = stack (tm w) /\ entered tr = [].
Proof.
  intros Hp Hd Hact.
  destruct (teardown_fires env (is_due (S (now w))) (with_now (S (now w)) w)
              a name d) as (em & tr & Hrun & Hl & He).
  { exact Hp. }
  { simpl. destruct (Nat.leb_spec d (S (now w))); [reflexivity | lia]. }
  { exact Hact. }
  exists em, tr. split; [|split; assumption].
  unfold step. erewrite bind_runs; [ | | apply fire_none ].
  2: { simpl. unfold bind, advance, clock. cbn [outcome world trace now].
       unfold with_now in Hrun. cbn [now tm pending next_ref] in Hrun.
       rewrite Hrun. reflexivity. }
  - now rewrite app_nil_r.
  - simpl. intros p [].
Qed.

Lemma step_event_teardown env w a name d :
  pending w = [OnEventOrTimeout a name d KHideTeardown] ->
  _active (tm w) = true ->
  exists em tr,
    step env (DomEvent a name) w =
    mkResult (Normal tt)
      (mkWorld
         (with_maps (delete_all (stack (tm w)) (appToCardMap (tm w))) em
            (set_active false (set_isTransitioning false (tm w))))
         [] (now w) (next_ref w))
      tr /\
    left_ tr = stack (tm w) /\ entered tr = [].
Proof.
  intros Hp Hact.
  destruct (teardown_fires env (is_event a name) w a name d)
    as (em & tr & Hrun & Hl & He).
  { exact Hp. }
  { simpl. now rewrite Nat.eqb_refl, String.eqb_refl. }
  { exact Hact. }
  exists em, tr. split; [|split; assumption].
  unfold step. erewrite bind_runs; [ | | apply fire_none ].
  2: { simpl. exact Hrun. }
  - now rewrite app_nil_r.
  - simpl. intros p [].
Qed.

(** A [hide] whose target window resolves always completes. Until the
    target acknowledges, and for fewer than 1000 time-units, the switcher
    stays shown and in transition and no window is told it left. When the
    1000 time-units have elapsed without acknowledgment, or as soon as the
    target's [_opened] event arrives, the teardown runs: the switcher is
    hidden, the transition flag is cleared, every window of the stack is
    told it left and has no card any more. The teardown runs once: ticks
    after the acknowledgment, the deadline among them, add nothing. *)
Theorem hide_completes env env' w newApp animation a :
  isShown (tm w) = true -> _isTransitioning (tm w) = false ->
  hide_target env newApp = Some a -> pending w = [] ->
  let call := (env, CallHide newApp animation) in
  (forall j, j < 1000 ->
     let r := run (call :: ticks env' j) w in
     _active (tm (world r)) = true /\
     _isTransitioning (tm (world r)) = true /\
     left_ (trace r) = []) /\
  torn_down w (run (call :: ticks env' 1000) w) /\
  (forall j m, j < 1000 ->
     torn_down w
       (run (call :: ticks env' j ++ (env', DomEvent a "_opened") ::
             ticks env' m) w)).
Proof.
  intros H1 H2 Ht Hp. cbv zeta.
  destruct (step_hide_starts env newApp animation w a H1 H2 Ht Hp)
    as (tr0 & Hstep & Hl0).
  set (w1 := mkWorld (set_isTransitioning true (tm w))
               [OnEventOrTimeout a "_opened" (now w + 1000) KHideTeardown]
               (now w) (next_ref w)) in *.
  assert (Hwait : forall j, j < 1000 ->
            run (ticks env' j) w1
            = mkResult (Normal tt) (with_now (now w + j) w1) []).
  { intros j Hj.
    apply (run_ticks_safety_waiting env' a "_opened" (now w + 1000)
             KHideTeardown j w1);
      [reflexivity | simpl; lia]. }
  split; [|split].
  - intros j Hj. rewrite run_cons, Hstep. cbn [world trace].
    rewrite (Hwait j Hj). simpl. rewrite app_nil_r. auto.
  - change 1000 with (S 999) at 1. rewrite ticks_snoc, app_comm_cons, run_app.
    rewrite (run_cons env (CallHide newApp animation) (ticks env' 999) w), Hstep.
    cbn [world trace].
    rewrite (Hwait 999) by lia. cbn [world trace].
    rewrite run_cons.
    destruct (step_tick_teardown env' (with_now (now w + 999) w1) a "_opened"
                (now w + 1000)) as (em & tr & Hrun & Hl & _);
      [reflexivity | simpl; lia | exact H1 |].
    rewrite Hrun. unfold torn_down. cbn [world trace tm pending].
    rewrite !left_app, Hl0, Hl. simpl. rewrite ?app_nil_r.
    split; [reflexivity|]. split; [reflexivity|]. split; [reflexivity|].
    split; [reflexivity|]. intros x Hx. now apply delete_all_get.
  - intros j m Hj. rewrite app_comm_cons, run_app.
    rewrite (run_cons env (CallHide newApp animation) (ticks env' j) w), Hstep.
    cbn [world trace].
    rewrite (Hwait j Hj). cbn [world trace].
    rewrite run_cons.
    destruct (step_event_teardown env' (with_now (now w + j) w1) a "_opened"
                (now w + 1000)) as (em & tr & Hrun & Hl & _);
      [reflexivity | exact H1 |].
    rewrite Hrun. cbn [world trace].
    rewrite run_ticks_nothing_pending by reflexivity.
    unfold torn_down. cbn [world trace tm pending with_now].
    rewrite !left_app, Hl0, Hl. simpl. rewrite ?app_nil_r.
    split; [reflexivity|]. split; [reflexivity|]. split; [reflexivity|].
    split; [reflexivity|]. intros x Hx. now apply delete_all_get.
Qed.

Lemma hide_completes_witness :
  let env := sample_env [1; 2; 3] 320 0%Q in
  torn_down shown_three
    (run ((env, CallHide (Some 2) None) :: ticks env 1000) shown_three).
Proof.
  pose proof (hide_completes (sample_env [1; 2; 3] 320 0%Q)
                (sample_env [1; 2; 3] 320 0%Q) shown_three (Some 2) None 2
                eq_refl eq_refl eq_refl eq_refl) as H.
  cbv zeta in H. exact (proj1 (proj2 H)).
Defined.

(** ** [show] brings the switcher up *)

Lemma setActive_observers active w :
  entered (trace (setActive active w)) = [] /\
  created (trace (setActive active w)) = [] /\
  left_ (trace (setActive active w)) = [].
Proof.
  destruct (setActive_run active w) as (tr & Hrun & Hc & _).
  rewrite Hrun. simpl. apply no_collection_effect in Hc. tauto.
Qed.

Lemma show_ready_cards env w :
  _active (tm w) = false ->
  exists T n tr,
    show_ready env w =
    mkResult (Normal tt)
      (mkWorld T
         (pending w ++ [OnAppClosed (getActiveWindow env) KShowDone])
         (now w) n)
      tr /\
    _active T = true /\ _isTransitioning T = false /\
    _browserOnly T = _browserOnly (tm w) /\
    stack T = latest_stack env (_browserOnly (tm w)) /\
    (forall a, In a (JSMap.keys (appToCardMap T)) <-> In a (stack T)) /\
    entered tr = created tr /\ left_ tr = [] /\ NoDup (entered tr) /\
    (forall a, In a (entered tr) <->
               In a (stack T) /\ ~ In a (JSMap.keys (appToCardMap (tm w)))) /\
    (forall type, count_published type tr =
                  if String.eqb "taskmanager-activated" type then 1 else 0).
Proof.
  intros Hact.
  destruct (updateStack_run env w)
    as (m & em & n & cc & tr1 & Hrun1 & Hk & _ & _ & Hc & Hl & Hnd & He & _).
  pose proof (updateStack_publishes_nothing env) as Hpub1.
  match type of Hrun1 with
  | _ = mkResult _ ?w1 _ =>
      destruct (panToApp_world env (getCurrent env) true w1)
        as (p & tr2 & Hrun2 & Hpub2);
      pose proof (panToApp_run env (getCurrent env) true w1) as Hpan;
      destruct (setActive_run true w1) as (tr3 & Hrun3 & Hc3 & Hpub3)
  end.
  simpl in Hrun3. rewrite Hact in Hrun3. simpl in Hrun3.
  cbn [tm _active set_currentCard set_cardSize with_maps set_elementToCardMap
         set_appToCardMap set_stack] in Hpub3.
  rewrite Hact in Hpub3. cbn [Bool.eqb] in Hpub3.
  apply no_collection_effect in Hc3. destruct Hc3 as (E3 & L3 & C3 & _).
  assert (Htr2 : entered tr2 = [] /\ created tr2 = [] /\ left_ tr2 = []).
  { rewrite Hrun2 in Hpan. destruct (js_num_eq _ _); inversion Hpan; auto. }
  destruct Htr2 as (E2 & C2 & L2).
  match type of Hrun3 with
  | _ = mkResult _ ?w3 _ =>
      assert (exists tr4,
                 (match getActiveWindow env with
                  | Some a =>
                      if isHomescreen env a then
                        bind (emit (AppClose a "home-to-cardview"))
                          (fun _ => emit (ClassAdd TaskManagerEl "from-home"))
                      else ret tt
                  | None => ret tt
                  end) w3 = mkResult (Normal tt) w3 tr4 /\
                 entered tr4 = [] /\ created tr4 = [] /\ left_ tr4 = [] /\
                 forall type, count_published type tr4 = 0)
        as (tr4 & Hrun4 & E4 & C4 & L4 & Hpub4)
  end.
  { destruct (getActiveWindow env) as [a|];
      [destruct (isHomescreen env a)|]; eexists; repeat split. }
  eexists _, _, _. split.
  - unfold show_ready.
    bind_step reflexivity.
    bind_step (exact Hrun1).
    bind_step (exact Hrun2).
    bind_step (exact Hrun3).
    bind_step (exact Hrun4).
    reflexivity.
    all: reflexivity.
  - cbn [_active _isTransitioning _browserOnly stack appToCardMap
           set_active set_isTransitioning set_currentCard set_cardSize
           with_maps set_elementToCardMap set_appToCardMap set_stack].
    split; [reflexivity|]. split; [reflexivity|]. split; [reflexivity|].
    split; [reflexivity|]. split; [exact Hk|].
    simpl app.
    change (AddListeners :: tr1 ++ tr2 ++ tr3 ++ tr4 ++ [])
      with ([AddListeners] ++ tr1 ++ tr2 ++ tr3 ++ tr4 ++ []).
    rewrite !entered_app, !created_app, !left_app.
    rewrite E2, E3, E4, C2, C3, C4, L2, L3, L4, Hl, Hc.
    cbn [app entered created left_].
    rewrite !app_nil_r.
    split; [reflexivity|]. split; [reflexivity|]. split; [exact Hnd|].
    split; [exact He|].
    intros type.
    match goal with
    | |- context [count_published type (AddListeners :: ?rest)] =>
        change (count_published type (AddListeners :: rest))
          with (count_published type rest)
    end.
    rewrite !count_published_app, Hpub2, Hpub3, Hpub4.
    specialize (Hpub1 type w). rewrite Hrun1 in Hpub1. simpl in Hpub1.
    rewrite (not_published_count _ _ Hpub1).
    destruct (String.eqb "taskmanager-activated" type); reflexivity.
Qed.

Lemma step_screen_ready_cards env w :
  _active (tm w) = false ->
  pending w = [OnScreenReady KShowReady] ->
  exists T n tr,
    step env ScreenReady w =
    mkResult (Normal tt)
      (mkWorld T [OnAppClosed (getActiveWindow env) KShowDone] (now w) n) tr /\
    _active T = true /\ _isTransitioning T = false /\
    _browserOnly T = _browserOnly (tm w) /\
    stack T = latest_stack env (_browserOnly (tm w)) /\
    (forall a, In a (JSMap.keys (appToCardMap T)) <-> In a (stack T)) /\
    entered tr = created tr /\ left_ tr = [] /\ NoDup (entered tr) /\
    (forall a, In a (entered tr) <->
               In a (stack T) /\ ~ In a (JSMap.keys (appToCardMap (tm w)))) /\
    (forall type, count_published type tr =
                  if String.eqb "taskmanager-activated" type then 1 else 0).
Proof.
  intros Hact Hp.
  destruct (show_ready_cards env (with_pending [] w) Hact)
    as (T & n & tr & Hrun & Hfacts).
  simpl in Hrun. cbn [with_pending tm] in Hfacts.
  exists T, n, tr. split; [|exact Hfacts].
  unfold step.
  erewrite bind_runs; [ | | apply fire_none ].
  2: { simpl. rewrite (fire_single env _ w _ KShowReady Hp eq_refl).
       erewrite bind_runs; [ | | reflexivity ].
       2: { unfold guarded. simpl run_continuation. rewrite Hrun. reflexivity. }
       reflexivity. }
  - rewrite !app_nil_r. reflexivity.
  - simpl. intros p [<-|[]]. reflexivity.
Qed.

Lemma show_run_shape env1 env2 env3 w opts :
  isShown (tm w) = false -> _isTransitioning (tm w) = false ->
  pending w = [] ->
  exists T n tr,
    run [(env1, CallShow opts); (env2, ScreenReady); (env3, AppClosed)] w =
    mkResult (Normal tt) (mkWorld T [] (now w) n)
      ([Publish "cardviewbeforeshow" None] ++ tr ++
       [Publish "cardviewshown" None; ClassAdd ScreenEl "cards-view";
        ClassRemove TaskManagerEl "from-home"]) /\
    _active T = true /\ _isTransitioning T = false /\
    stack T = latest_stack env2 (match opts with Some b => b | None => false end) /\
    (forall a, In a (JSMap.keys (appToCardMap T)) <-> In a (stack T)) /\
    entered tr = created tr /\ left_ tr = [] /\ NoDup (entered tr) /\
    (forall a, In a (entered tr) <->
               In a (stack T) /\ ~ In a (JSMap.keys (appToCardMap (tm w)))) /\
    (forall type, count_published type tr =
                  if String.eqb "taskmanager-activated" type then 1 else 0).
Proof.
  intros H1 H2 Hp.
  pose proof (step_first_show env1 opts w H1 H2 Hp) as Hs1.
  match type of Hs1 with
  | _ = mkResult _ ?w1 _ =>
      destruct (step_screen_ready_cards env2 w1)
        as (T & n & tr & Hs2 & HA & HT & HB & HS & HK & HC & HL & HN & HE & HP);
        [exact H1 | reflexivity |]
  end.
  cbn [tm _browserOnly set_browserOnly set_isTransitioning appToCardMap now]
    in Hs2, HB, HS, HE.
  pose proof (step_app_closed env3 (getActiveWindow env2)
                (mkWorld T [OnAppClosed (getActiveWindow env2) KShowDone]
                   (now w) n) eq_refl) as Hs3.
  exists T, n, tr. split.
  - rewrite run_cons, Hs1. cbn [world trace].
    rewrite run_cons, Hs2. cbn [world trace].
    rewrite run_cons, Hs3. reflexivity.
  - split; [exact HA|]. split; [exact HT|]. split; [exact HS|].
    split; [exact HK|]. split; [exact HC|]. split; [exact HL|].
    split; [exact HN|]. split; [exact HE | exact HP].
Qed.

(** A [show] on a hidden switcher, followed by the screen getting ready and
    the replaced window closing, ends shown with no transition in flight
    and nothing pending: the stack is the snapshot taken when the screen
    was ready (filtered if asked), the cards are exactly those of its
    windows, the windows told they entered are exactly the windows a card
    was created for, namely the windows of the stack that had none, and
    [cardviewbeforeshow], [taskmanager-activated] and [cardviewshown] are
    each published once. *)
Theorem show_completes env1 env2 env3 w opts :
  isShown (tm w) = false -> _isTransitioning (tm w) = false ->
  pending w = [] ->
  let r := run [(env1, CallShow opts); (env2, ScreenReady); (env3, AppClosed)] w in
  let browserOnly := match opts with Some b => b | None => false end in
  let t := tm (world r) in
  isShown t = true /\ _isTransitioning t = false /\ pending (world r) = [] /\
  stack t = latest_stack env2 browserOnly /\
  (forall a, In a (JSMap.keys (appToCardMap t)) <-> In a (stack t)) /\
  entered (trace r) = created (trace r) /\
  left_ (trace r) = [] /\
  NoDup (entered (trace r)) /\
  (forall a, In a (entered (trace r)) <->
             In a (stack t) /\ ~ In a (JSMap.keys (appToCardMap (tm w)))) /\
  count_published "cardviewbeforeshow" (trace r) = 1 /\
  count_published "taskmanager-activated" (trace r) = 1 /\
  count_published "cardviewshown" (trace r) = 1.
Proof.
  intros H1 H2 Hp.
  destruct (show_run_shape env1 env2 env3 w opts H1 H2 Hp)
    as (T & n & tr & Hrun & HA & HT & HS & HK & HC & HL & HN & HE & HP).
  cbv zeta. rewrite Hrun. cbn [world trace tm pending].
  unfold isShown, isActive.
  rewrite !entered_app, !created_app, !left_app, !count_published_app, !HP.
  rewrite HL.
  split; [exact HA|]. split; [exact HT|]. split; [reflexivity|].
  split; [exact HS|]. split; [exact HK|].
  split; [cbn [entered created app]; now rewrite !app_nil_r, HC|].
  split; [reflexivity|].
  split; [cbn [entered app]; now rewrite app_nil_r|].
  split; [cbn [entered app]; rewrite app_nil_r; exact HE|].
  split; [vm_compute; reflexivity|]. split; vm_compute; reflexivity.
Qed.

Lemma show_completes_witness :
  let env := sample_env [1; 2; 3] 320 0%Q in
  let r := run [(env, CallShow None); (env, ScreenReady); (env, AppClosed)]
             initial_world in
  isShown (tm (world r)) = true /\
  stack (tm (world r)) = [1; 2; 3] /\
  count_published "cardviewshown" (trace r) = 1.
Proof.
  pose proof (show_completes (sample_env [1; 2; 3] 320 0%Q)
                (sample_env [1; 2; 3] 320 0%Q) (sample_env [1; 2; 3] 320 0%Q)
                initial_world None eq_refl eq_refl eq_refl) as H.
  cbv zeta in H.
  destruct H as (A & _ & _ & B & _ & _ & _ & _ & _ & _ & _ & C).
  cbv zeta. split; [exact A|]. split; [exact B | exact C].
Defined.

(** ** From hidden to shown and back *)

Lemma delete_all_keys l : forall m a,
  In a (JSMap.keys (delete_all l m)) -> In a (JSMap.keys m) /\ ~ In a l.
Proof.
  unfold delete_all. induction l as [|k l IH]; intros m a H; simpl in *.
  - tauto.
  - apply IH in H. destruct H as [H1 H2].
    apply In_keys_delete in H1. intuition.
Qed.

Lemma delete_all_empty l (m : JSMap.t Card) :
  (forall a, In a (JSMap.keys m) -> In a l) -> delete_all l m = [].
Proof.
  intros H. destruct (delete_all l m) as [|[k c] rest] eqn:E; [reflexivity|].
  exfalso.
  assert (Hk : In k (JSMap.keys (delete_all l m))) by (rewrite E; simpl; auto).
  apply delete_all_keys in Hk. destruct Hk as [H1 H2]. apply H2, H, H1.
Qed.

Lemma hide_run_shape env env' w newApp animation a :
  isShown (tm w) = true -> _isTransitioning (tm w) = false ->
  hide_target env newApp = Some a -> pending w = [] ->
  exists em tr,
    run ((env, CallHide newApp animation) :: ticks env' 1000) w =
    mkResult (Normal tt)
      (mkWorld
         (with_maps (delete_all (stack (tm w)) (appToCardMap (tm w))) em
            (set_active false (set_isTransitioning false (tm w))))
         [] (now w + 1000) (next_ref w))
      tr /\
    left_ tr = stack (tm w) /\ entered tr = [].
Proof.
  intros H1 H2 Ht Hp.
  destruct (step_hide_starts env newApp animation w a H1 H2 Ht Hp)
    as (tr0 & Hstep & Hl0).
  pose proof (hide_starts env newApp animation w a H1 H2 Ht) as (tr0' & Hh & _ & _).
  set (w1 := mkWorld (set_isTransitioning true (tm w))
               [OnEventOrTimeout a "_opened" (now w + 1000) KHideTeardown]
               (now w) (next_ref w)) in *.
  pose proof (run_ticks_safety_waiting env' a "_opened" (now w + 1000)
                KHideTeardown 999 w1 eq_refl) as Hwait.
  cbn [now w1] in Hwait. specialize (Hwait ltac:(lia)).
  destruct (step_tick_teardown env' (with_now (now w + 999) w1) a "_opened"
              (now w + 1000)) as (em & tr & Hrun & Hl & He);
    [reflexivity | simpl; lia | exact H1 |].
  cbn [with_now w1 tm pending now next_ref stack appToCardMap
         set_isTransitioning] in Hrun, Hl.
  assert (He0 : entered tr0 = []).
  { unfold step in Hstep. unfold bind in Hstep.
    simpl task in Hstep. unfold guarded in Hstep.
    pose proof (hide_starts env newApp animation w a H1 H2 Ht) as (t & Ht' & _ & _).
    rewrite Ht' in Hstep. cbn [outcome world trace] in Hstep.
    rewrite fire_none in Hstep
      by (simpl; rewrite Hp; intros p [<-|[]]; reflexivity).
    injection Hstep as _ <-. rewrite app_nil_r.
    clear - Ht'. unfold hide, bind, this in Ht'. simpl in Ht'.
    destruct (negb (isShown (tm w)) || _isTransitioning (tm w));
      [discriminate|].
    simpl in Ht'. destruct (or_else newApp _); [|discriminate].
    destruct (isHomescreen env a0); inversion Ht'; reflexivity. }
  exists em, (tr0 ++ tr). split; [|split].
  - change 1000 with (S 999) at 1. rewrite ticks_snoc, app_comm_cons, run_app.
    rewrite (run_cons env (CallHide newApp animation) (ticks env' 999) w), Hstep.
    cbn [world trace]. rewrite Hwait. cbn [world trace].
    rewrite run_cons, Hrun. cbn [world trace run ret].
    rewrite !app_nil_r. do 3 f_equal. lia.
  - now rewrite left_app, Hl0, Hl.
  - now rewrite entered_app, He0, He.
Qed.

(** Shown and then hidden, a switcher that had no card is left with none:
    the windows told they left are exactly the windows that were told they
    entered, each once, and the switcher is hidden again with no
    transition in flight and nothing pending, ready for the next
    [show]. *)
Theorem show_hide_round_trip env w opts newApp animation a :
  isShown (tm w) = false -> _isTransitioning (tm w) = false ->
  pending w = [] -> appToCardMap (tm w) = [] ->
  NoDup (snapshot env) -> hide_target env newApp = Some a ->
  let showing :=
    run [(env, CallShow opts); (env, ScreenReady); (env, AppClosed)] w in
  let hiding :=
    run ((env, CallHide newApp animation) :: ticks env 1000) (world showing) in
  (forall x, In x (entered (trace showing)) <-> In x (left_ (trace hiding))) /\
  NoDup (entered (trace showing)) /\
  NoDup (left_ (trace hiding)) /\
  appToCardMap (tm (world hiding)) = [] /\
  isShown (tm (world hiding)) = false /\
  _isTransitioning (tm (world hiding)) = false /\
  pending (world hiding) = [].
Proof.
  intros H1 H2 Hp Hm Hnd Ht.
  destruct (show_run_shape env env env w opts H1 H2 Hp)
    as (T & n & tr & Hrun & HA & HT & HS & HK & HC & HL & HN & HE & HP).
  set (showing := run _ w) in *.
  assert (Hw : world showing = mkWorld T [] (now w) n) by (now rewrite Hrun).
  assert (Htr : entered (trace showing) = entered tr).
  { rewrite Hrun. cbn [trace]. rewrite !entered_app. cbn [entered app].
    now rewrite app_nil_r. }
  cbv zeta. rewrite Hw, Htr.
  destruct (hide_run_shape env env (mkWorld T [] (now w) n) newApp animation a
              HA HT Ht eq_refl) as (em & tr' & Hrun' & Hl' & He').
  cbn [tm stack appToCardMap now next_ref] in Hrun', Hl'.
  rewrite Hrun'. cbn [world trace tm pending].
  rewrite Hl'.
  assert (HndS : NoDup (stack T)).
  { rewrite HS. unfold latest_stack.
    destruct opts as [[|]|]; try exact Hnd. now apply NoDup_filter. }
  split; [|split; [exact HN | split; [exact HndS | split]]].
  - intros x. rewrite HE, Hm. simpl. tauto.
  - cbn [appToCardMap with_maps set_elementToCardMap set_appToCardMap].
    apply delete_all_empty. intros x Hx. now apply HK.
  - repeat split.
Qed.

Lemma show_hide_round_trip_witness :
  let env := sample_env [1; 2; 3] 320 0%Q in
  let showing :=
    run [(env, CallShow None); (env, ScreenReady); (env, AppClosed)]
      initial_world in
  let hiding :=
    run ((env, CallHide (Some 2) None) :: ticks env 1000) (world showing) in
  appToCardMap (tm (world hiding)) = [] /\
  isShown (tm (world hiding)) = false.
Proof.
  assert (Hnd : NoDup (snapshot (sample_env [1; 2; 3] 320 0%Q))).
  { simpl. repeat constructor; simpl; intuition discriminate. }
  pose proof (show_hide_round_trip (sample_env [1; 2; 3] 320 0%Q)
                initial_world None (Some 2) None 2
                eq_refl eq_refl eq_refl eq_refl Hnd eq_refl) as H.
  cbv zeta in H. destruct H as (_ & _ & _ & A & B & _).
  cbv zeta. split; [exact A | exact B].
Defined.

(** * Further properties of the synchronizer and the layout *)

(** With the browser-only filter set, the windows that have a card after a
    reconciliation are exactly the snapshot's browser windows and windows
    with the search role; without it, exactly the snapshot's windows. *)
Theorem updateStack_filter env w :
  let r := updateStack env w in
  forall a,
    In a (JSMap.keys (appToCardMap (tm (world r)))) <->
    In a (snapshot env) /\
    (_browserOnly (tm w) = true ->
     isBrowser env a || hasSearchRole env a = true).
Proof.
  destruct (updateStack_run env w) as (m & em & n & cc & tr & Hrun & Hk & _).
  cbv zeta. rewrite Hrun. simpl. intros a. rewrite Hk. unfold latest_stack.
  destruct (_browserOnly (tm w)).
  - rewrite filter_In. tauto.
  - intuition discriminate.
Qed.

Lemma bind_runs_throw {A B} (m : M A) (f : A -> M B) w a w1 t1 msg w2 t2 :
  m w = mkResult (Normal a) w1 t1 ->
  f a w1 = mkResult (Throw msg) w2 t2 ->
  bind m f w = mkResult (Throw msg) w2 (t1 ++ t2).
Proof. intros H1 H2. unfold bind. rewrite H1. simpl. rewrite H2. reflexivity. Qed.

Lemma translate_loop_throws env (l : list AppWindow) : forall i w,
  (exists a, In a l /\ JSMap.get a (appToCardMap (tm w)) = None) ->
  exists tr,
    forEach_from i l (translate_card env) w =
    mkResult (Throw "TypeError: card is undefined") w tr /\
    widths tr = [] /\ filter is_attribute_write tr = [].
Proof.
  induction l as [|x l IH]; intros i w (a & Ha & Hget).
  - destruct Ha.
  - simpl forEach_from.
    destruct (JSMap.get x (appToCardMap (tm w))) as [c|] eqn:E.
    + assert (Hrest : exists b, In b l /\ JSMap.get b (appToCardMap (tm w)) = None).
      { destruct Ha as [<-|Ha]; [congruence | eauto]. }
      destruct (IH (S i) w Hrest) as (tr & Hrun & Hw & Hat).
      exists (Translate c (layout_left env i) :: tr). split.
      * unfold bind at 1.
        assert (H1 : translate_card env x i w
                     = mkResult (Normal tt) w [Translate c (layout_left env i)]).
        { unfold translate_card, bind, this. simpl. rewrite E. reflexivity. }
        rewrite H1. cbn [outcome world trace]. rewrite Hrun. reflexivity.
      * simpl. auto.
    + exists []. split; [|auto].
      unfold bind at 1.
      assert (H1 : translate_card env x i w
                   = mkResult (Throw "TypeError: card is undefined") w []).
      { unfold translate_card, bind, this. simpl. rewrite E. reflexivity. }
      rewrite H1. reflexivity.
Qed.

(** [updateStack] completes from every state and leaves a card for every
    window of the stack. [updateLayout] on its own completes exactly when
    every window of the stack has a card: where one has none it throws a
    TypeError after it has stored the new card size, and writes neither the
    list width nor any accessibility attribute. *)
Theorem layout_needs_cards env w :
  (outcome (updateStack env w) = Normal tt /\
   stack_covered (tm (world (updateStack env w)))) /\
  (stack_covered (tm w) -> outcome (updateLayout env w) = Normal tt) /\
  ((exists a, In a (stack (tm w)) /\ JSMap.get a (appToCardMap (tm w)) = None) ->
   outcome (updateLayout env w) = Throw "TypeError: card is undefined" /\
   cardWidth (tm (world (updateLayout env w))) = Some (layout_cardWidth env) /\
   widths (trace (updateLayout env w)) = [] /\
   filter is_attribute_write (trace (updateLayout env w)) = []).
Proof.
  split; [|split].
  - destruct (updateStack_run env w) as (m & em & n & cc & tr & Hrun & Hk & _).
    rewrite Hrun. simpl. split; [reflexivity|].
    apply covered_of_keys. simpl. intros a Ha. now apply Hk.
  - intros Hcov.
    destruct (updateLayout_run env w Hcov) as (cc & cards & tr & _ & Hrun & _).
    now rewrite Hrun.
  - intros Hmiss.
    destruct (translate_loop_throws env (stack (tm w)) 0
                (with_tm (set_cardSize (layout_cardWidth env)
                            (layout_cardHeight env) (tm w)) w) Hmiss)
      as (tr & Hrun & Hw & Ha).
    assert (E : updateLayout env w =
                mkResult (Throw "TypeError: card is undefined")
                  (with_tm (set_cardSize (layout_cardWidth env)
                              (layout_cardHeight env) (tm w)) w) tr).
    { unfold updateLayout, translate_cards.
      erewrite bind_runs_throw; [ | reflexivity | ].
      2: { cbv beta. erewrite bind_runs_throw; [ | reflexivity | ].
           2: { cbv beta. apply bind_throw. exact Hrun. }
           reflexivity. }
      reflexivity. }
    rewrite E. simpl. auto.
Qed.

Lemma layout_needs_cards_witness :
  let env := sample_env [1; 2; 3] 320 0%Q in
  let w := with_tm (set_stack [1; 2; 7] (tm three_cards)) three_cards in
  outcome (updateLayout env w) = Throw "TypeError: card is undefined" /\
  outcome (updateLayout env three_cards) = Normal tt.
Proof.
  cbv zeta. split.
  - apply (proj2 (proj2 (layout_needs_cards (sample_env [1; 2; 3] 320 0%Q)
                           (with_tm (set_stack [1; 2; 7] (tm three_cards))
                              three_cards)))).
    exists 7. split; [simpl; auto | reflexivity].
  - apply (proj1 (proj2 (layout_needs_cards (sample_env [1; 2; 3] 320 0%Q)
                           three_cards))).
    intros a Ha. simpl in Ha.
    destruct Ha as [<-|[<-|[<-|[]]]]; discriminate.
Defined.

(** ** [panToApp] *)

Lemma indexOf_from_absent (l : list AppWindow) : forall i0 a,
  ~ In a l -> indexOf_from i0 a l = (-1)%Z.
Proof.
  induction l as [|y l IH]; intros i0 a H; simpl; [reflexivity|].
  destruct (Nat.eqb_spec y a) as [->|Hne]; [exfalso; apply H; simpl; auto|].
  apply IH. intros Hin. apply H. simpl. auto.
Qed.

Lemma indexOf_from_present (l : list AppWindow) : forall i0 a,
  In a l ->
  exists i, indexOf_from i0 a l = (i0 + Z.of_nat i)%Z /\
            nth_error l i = Some a /\
            forall j, j < i -> nth_error l j <> Some a.
Proof.
  induction l as [|y l IH]; intros i0 a H; [destruct H|].
  simpl. destruct (Nat.eqb_spec y a) as [->|Hne].
  - exists 0. split; [lia|]. split; [reflexivity|]. intros j Hj. lia.
  - destruct H as [H|H]; [contradiction|].
    destruct (IH (i0 + 1)%Z a H) as (i & Hi & Hn & Hfirst).
    exists (S i). split; [lia|]. split; [exact Hn|].
    intros [|j] Hj; simpl; [congruence|]. apply Hfirst. lia.
Qed.

(** [panToApp] never changes the state and never fails. Its target is the
    first position of the window in the stack, and the last position of the
    stack when the window is [null] or not in the stack, times the card
    stride; it resolves at once and scrolls nothing exactly when the scroll
    offset is already that target, and otherwise asks for one scroll to the
    target and resolves 200 time-units later. On an empty stack the target
    is one stride to the left of the origin. *)
Theorem panToApp_behaviour env w app immediately cw :
  cardWidth (tm w) = Some cw ->
  let r := panToApp env app immediately w in
  let n := Z.of_nat (List.length (stack (tm w))) in
  let stride := (cw + CARD_GUTTER)%Q in
  world r = w /\
  (trace r = [] /\ outcome r = Normal PResolved /\
   js_num_eq (Fin (scrollLeft env)) (pan_target env (tm w) app) = true
   \/
   trace r = [ScrollTo (pan_target env (tm w) app)
                (if immediately then "auto" else "smooth")] /\
   outcome r = Normal (PTimer (now w + 200)) /\
   js_num_eq (Fin (scrollLeft env)) (pan_target env (tm w) app) = false) /\
  (match app with Some a => ~ In a (stack (tm w)) | None => True end ->
   pan_target env (tm w) app = Fin (stride * inject_Z (n - 1))%Q) /\
  (forall a, app = Some a -> In a (stack (tm w)) ->
     exists i, pan_target env (tm w) app = Fin (stride * inject_Z (Z.of_nat i))%Q /\
               nth_error (stack (tm w)) i = Some a /\
               forall j, j < i -> nth_error (stack (tm w)) j <> Some a) /\
  (stack (tm w) = [] ->
   pan_target env (tm w) app = Fin (stride * inject_Z (-1))%Q).
Proof.
  intros Hcw. cbv zeta. rewrite panToApp_run.
  split; [destruct (js_num_eq _ _); reflexivity|].
  split; [destruct (js_num_eq _ _); auto|].
  split; [|split].
  - intros Habs. unfold pan_target. rewrite Hcw.
    destruct app as [a|].
    + unfold indexOf. rewrite (indexOf_from_absent _ 0 a Habs). reflexivity.
    + reflexivity.
  - intros a -> Hin. unfold pan_target. rewrite Hcw. unfold indexOf.
    destruct (indexOf_from_present _ 0%Z a Hin) as (i & Hi & Hn & Hf).
    exists i. rewrite Hi.
    destruct (Z.eqb_spec (0 + Z.of_nat i) (-1)); [lia|].
    split; [|auto]. do 3 f_equal.
  - intros Hs. unfold pan_target. rewrite Hcw, Hs.
    destruct app; reflexivity.
Qed.

Lemma panToApp_behaviour_witness :
  let env := sample_env [1; 2; 3] 320 0%Q in
  pan_target env (tm three_cards) (Some 9)
  = Fin (((320 # 2) + CARD_GUTTER) * inject_Z (3 - 1))%Q.
Proof.
  pose proof (panToApp_behaviour (sample_env [1; 2; 3] 320 0%Q) three_cards
                (Some 9) false (320 # 2)%Q eq_refl) as H.
  cbv zeta in H. destruct H as (_ & _ & H & _).
  apply H. simpl. intuition discriminate.
Defined.

(** ** What [hide] publishes *)

(** A [hide] that starts publishes [cardviewclosed] once, whether or not a
    target window resolves. The notification carries the position of the
    target in the snapshot taken at that moment when the target is in it,
    and no position otherwise; and the window opened is the explicit
    argument, else the active window, else the home surface. *)
Theorem hide_publishes_position env w newApp animation :
  isShown (tm w) = true -> _isTransitioning (tm w) = false ->
  let tr := trace (hide env newApp animation w) in
  count_published "cardviewclosed" tr = 1 /\
  (forall a, hide_target env newApp = Some a -> In a (snapshot env) ->
     exists i, In (Publish "cardviewclosed" (Some (Z.of_nat i))) tr /\
               nth_error (snapshot env) i = Some a) /\
  (forall a, hide_target env newApp = Some a -> ~ In a (snapshot env) ->
     In (Publish "cardviewclosed" None) tr) /\
  (forall a, hide_target env newApp = Some a ->
     exists anim, In (AppOpen a anim) tr /\
       forall b anim', In (AppOpen b anim') tr -> b = a /\ anim' = anim).
Proof.
  intros H1 H2. cbv zeta.
  unfold hide, bind, this. simpl. rewrite H1, H2. simpl.
  fold (hide_target env newApp).
  destruct (hide_target env newApp) as [a|] eqn:Ht.
  - destruct (isHomescreen env a); simpl;
      (split; [reflexivity|]; split; [|split]).
    all: try (intros b [= <-] Hin;
              first [ destruct (indexOf_from_present _ 0%Z a Hin)
                        as (i & Hi & Hn & _);
                      exists i; unfold indexOf; rewrite Hi;
                      destruct (Z.eqb_spec (0 + Z.of_nat i) (-1)); [lia|];
                      simpl; split; [auto | exact Hn]
                    | unfold indexOf;
                      rewrite (indexOf_from_absent _ 0%Z a Hin); simpl; auto ]).
    all: intros b [= <-]; eexists; split; [simpl; eauto 10|];
      intros c anim' Hc; simpl in Hc;
      repeat (destruct Hc as [Hc|Hc]; try discriminate; try (inversion Hc; auto));
      try contradiction.
  - simpl. split; [reflexivity|].
    split; [|split]; intros a; discriminate.
Qed.

Lemma hide_publishes_position_witness :
  let env := sample_env [1; 2; 3] 320 0%Q in
  In (Publish "cardviewclosed" (Some 1%Z))
     (trace (hide env (Some 2) None shown_three)).
Proof.
  cbv zeta.
  pose proof (hide_publishes_position (sample_env [1; 2; 3] 320 0%Q)
                shown_three (Some 2) None eq_refl eq_refl) as H.
  cbv zeta in H. destruct H as (_ & H & _).
  destruct (H 2 eq_refl) as (i & Hi & Hn); [simpl; auto|].
  destruct i as [|[|[|i]]]; simpl in Hn; try discriminate.
  - exact Hi.
  - destruct i; discriminate.
Defined.


(** * Hierarchy events *)

(** [respondToHierarchyEvent] lets the event flow on ([true]) only when it
    has done nothing at all, and stops it ([false]) only when it has
    started a transition: a [home] event on a shown switcher with a target
    to return to, or a [holdhome] event on a hidden one, no transition
    being in flight. It throws only for a [home] event on a shown switcher
    with no home surface and no active window to return to. *)
Theorem hierarchy_event_consumed_iff_transition_started env type w :
  let r := respondToHierarchyEvent env type w in
  (outcome r = Normal true -> world r = w /\ trace r = []) /\
  (outcome r = Normal false ->
     _isTransitioning (tm w) = false /\
     _isTransitioning (tm (world r)) = true /\
     (exists p, pending (world r) = pending w ++ [p]) /\
     (type = "home"%string /\ isShown (tm w) = true \/
      type = "holdhome"%string /\ isShown (tm w) = false)) /\
  (forall msg, outcome r = Throw msg ->
     type = "home"%string /\ isShown (tm w) = true /\
     _isTransitioning (tm w) = false /\
     hide_target env (getHomescreen env) = None).
Proof.
  cbv zeta. unfold respondToHierarchyEvent. rewrite bind_this.
  destruct (_isTransitioning (tm w)) eqn:Ht; cbn [negb].
  { unfold ret. cbn [outcome world trace].
    split; [auto|]. split; intros; discriminate. }
  destruct (String.eqb_spec type "home") as [->|Hhome].
  - destruct (isShown (tm w)) eqn:Hs.
    + destruct (hide_target env (getHomescreen env)) as [a|] eqn:Htarget.
      * destruct (hide_starts env (getHomescreen env) None w a Hs Ht Htarget)
          as (tr & Hrun & _).
        erewrite bind_runs; [ | exact Hrun | reflexivity ].
        cbn [outcome world trace tm pending]. rewrite app_nil_r.
        split; [discriminate|]. split; [|intros; discriminate].
        intros _. repeat split; eauto.
      * rewrite (bind_throw _ _ _ _ _ _
                   (hide_throws env (getHomescreen env) None w Hs Ht Htarget)).
        cbn [outcome world trace].
        split; [discriminate|]. split; [discriminate|].
        intros msg _. auto.
    + unfold ret. cbn [outcome world trace].
      split; [auto|]. split; intros; discriminate.
  - destruct (String.eqb_spec type "holdhome") as [->|Hhold].
    + destruct (isShown (tm w)) eqn:Hs; cbn [negb].
      * unfold ret. cbn [outcome world trace].
        split; [auto|]. split; intros; discriminate.
      * erewrite bind_runs; [ | exact (show_starts None w Hs Ht) | reflexivity ].
        cbn [outcome world trace tm pending].
        split; [discriminate|]. split; [|intros; discriminate].
        intros _. repeat split; eauto.
    + unfold ret. cbn [outcome world trace].
      split; [auto|]. split; intros; discriminate.
Qed.

Lemma hierarchy_event_witness :
  let env := sample_env [1; 2; 3] 320 0%Q in
  _isTransitioning (tm (world (respondToHierarchyEvent env "holdhome"
                                 initial_world))) = true.
Proof.
  cbv zeta.
  refine (proj1 (proj2 (proj1 (proj2
            (hierarchy_event_consumed_iff_transition_started
               (sample_env [1; 2; 3] 320 0%Q) "holdhome" initial_world)) _))).
  reflexivity.
Defined.

(** * The loader of the mail backend *)

Lemma api_run_registrations cbs : forall s,
  Api.run (map Api.WhenLoaded cbs) s =
  (Api.mkState (match last (map Some cbs) None with
                | Some cb => Some cb
                | None => Api.callback s
                end) (Api.MailAPI s), []).
Proof.
  induction cbs as [|cb cbs IH]; intros s.
  - simpl. now destruct s.
  - change (Api.run (map Api.WhenLoaded (cb :: cbs)) s)
      with (let (s2, c2) := Api.run (map Api.WhenLoaded cbs) (Api.whenLoaded cb s) in
            (s2, [] ++ c2)).
    rewrite IH. simpl.
    destruct cbs as [|cb' cbs]; [reflexivity|].
    simpl map. 
    destruct (last (Some cb' :: map Some cbs) None) eqn:E; [reflexivity|].
    exfalso. clear - E.
    revert cb' E. induction cbs as [|x cbs IH]; intros cb' E; simpl in *.
    + discriminate.
    + exact (IH x E).
Qed.

Lemma api_run_app l1 : forall l2 s,
  Api.run (l1 ++ l2) s =
  (fst (Api.run l2 (fst (Api.run l1 s))),
   snd (Api.run l1 s) ++ snd (Api.run l2 (fst (Api.run l1 s)))).
Proof.
  induction l1 as [|a l1 IH]; intros l2 s.
  - simpl. now destruct (Api.run l2 s).
  - simpl. destruct (Api.act a s) as [s1 c1]. rewrite IH.
    destruct (Api.run l1 s1) as [s2 c2]. simpl.
    now rewrite app_assoc.
Qed.

(** Of the callbacks handed to [whenLoaded], the one registered last
    before the backend has loaded is called, once, with the backend; the
    earlier ones are dropped, and a callback registered after the load is
    never called, although [MailAPI] is set by then. *)
Theorem whenLoaded_only_before_load before after api :
  let r := Api.run (map Api.WhenLoaded before ++
                    Api.Loaded api :: map Api.WhenLoaded after) Api.init in
  snd r = match last (map Some before) None with
          | Some cb => [(cb, api)]
          | None => []
          end /\
  Api.MailAPI (fst r) = Some api /\
  (forall cb, In cb after -> ~ In cb before -> ~ In cb (map fst (snd r))).
Proof.
  cbv zeta. rewrite api_run_app, api_run_registrations.
  cbn [fst snd app].
  change (Api.run (Api.Loaded api :: map Api.WhenLoaded after) ?s)
    with (let (s1, c1) := Api.loaded api s in
          let (s2, c2) := Api.run (map Api.WhenLoaded after) s1 in
          (s2, c1 ++ c2)).
  unfold Api.loaded. cbn [Api.callback Api.MailAPI Api.init].
  rewrite api_run_registrations. cbn [fst snd Api.MailAPI].
  rewrite app_nil_r.
  split; [|split].
  - destruct (last (map Some before) None); reflexivity.
  - reflexivity.
  - intros cb Ha Hb.
    destruct (last (map Some before) None) as [cb'|] eqn:E; simpl; [|tauto].
    intros [<-|[]]. apply Hb.
    clear - E. induction before as [|x before IH]; [discriminate|].
    destruct before as [|y before].
    + simpl in E. injection E as ->. simpl. auto.
    + right. apply IH. exact E.
Qed.

(** * The two maps stay in step *)

Section Keeps.
Variable I : World -> Prop.

Lemma keeps_ret {A} (a : A) : keeps I (ret a).
Proof. intros w H. exact H. Qed.

Lemma keeps_throw {A} msg : keeps I (@throw A msg).
Proof. intros w H. exact H. Qed.

Lemma keeps_this : keeps I this.
Proof. intros w H. exact H. Qed.

Lemma keeps_emit e : keeps I (emit e).
Proof. intros w H. exact H. Qed.

Lemma keeps_bind {A B} (m : M A) (f : A -> M B) :
  keeps I m -> (forall a, keeps I (f a)) -> keeps I (bind m f).
Proof.
  intros Hm Hf w H. unfold bind. pose proof (Hm w H) as H1.
  destruct (outcome (m w)); cbn [world]; [|exact H1].
  exact (Hf a _ H1).
Qed.

Lemma keeps_forEach {A} (l : list A) f :
  (forall x, keeps I (f x)) -> keeps I (forEach l f).
Proof.
  intros H. induction l as [|x l IH]; simpl.
  - apply keeps_ret.
  - apply keeps_bind; auto.
Qed.

Lemma keeps_forEach_from {A} (l : list A) f : forall i,
  (forall x i, keeps I (f x i)) -> keeps I (forEach_from i l f).
Proof.
  induction l as [|x l IH]; intros i H; simpl.
  - apply keeps_ret.
  - apply keeps_bind; auto.
Qed.

Lemma keeps_guarded {A} (m : M A) : keeps I m -> keeps I (guarded m).
Proof.
  intros Hm w H. pose proof (Hm w H) as H1. unfold guarded.
  destruct (outcome (m w)); exact H1.
Qed.

End Keeps.

Lemma in_step_frame w w' :
  appToCardMap (tm w') = appToCardMap (tm w) ->
  elementToCardMap (tm w') = elementToCardMap (tm w) ->
  next_ref w <= next_ref w' ->
  maps_in_step w -> maps_in_step w'.
Proof.
  intros Ea Ee Hn (H1 & H2 & H3). unfold maps_in_step.
  rewrite Ea, Ee. split; [exact H1|]. split; [exact H2|].
  intros e He. specialize (H3 e He). lia.
Qed.

Lemma in_step_modify f :
  (forall t, appToCardMap (f t) = appToCardMap t) ->
  (forall t, elementToCardMap (f t) = elementToCardMap t) ->
  keeps maps_in_step (modify f).
Proof.
  intros Ha He w H. apply (in_step_frame w); simpl; auto.
Qed.

Lemma in_step_fresh : keeps maps_in_step fresh.
Proof. intros w H. apply (in_step_frame w); simpl; auto. Qed.

Lemma in_step_clock : keeps maps_in_step clock.
Proof. intros w H. exact H. Qed.

Lemma in_step_advance : keeps maps_in_step advance.
Proof. intros w H. exact H. Qed.

Lemma in_step_await p : keeps maps_in_step (await p).
Proof. intros w H. exact H. Qed.

Lemma in_step__removeApp app : keeps maps_in_step (_removeApp app).
Proof.
  intros w H. unfold _removeApp. rewrite bind_this.
  destruct (JSMap.get app (appToCardMap (tm w))) as [c|] eqn:E; [|exact H].
  destruct H as (H1 & H2 & H3).
  destruct (H1 _ _ E) as [Hc Hce].
  unfold maps_in_step.
  cbn -[JSMap.get JSMap.delete JSMap.set JSMap.keys].
  split; [|split].
  - intros a c' Hg.
    destruct (Nat.eq_dec a app) as [->|Hne];
      [rewrite get_delete_same in Hg; discriminate|].
    rewrite get_delete_other in Hg by exact Hne.
    destruct (H1 _ _ Hg) as [Hc' Hce']. split; [exact Hc'|].
    rewrite get_delete_other; [exact Hce'|].
    intros Heq. rewrite Heq in Hce'. congruence.
  - intros e c' Hg.
    destruct (Nat.eq_dec e (card_element c)) as [->|Hne];
      [rewrite get_delete_same in Hg; discriminate|].
    rewrite get_delete_other in Hg by exact Hne.
    destruct (H2 _ _ Hg) as [Hc' Hca']. split; [exact Hc'|].
    rewrite get_delete_other; [exact Hca'|].
    intros Heq. rewrite Heq in Hca'. congruence.
  - intros e He. apply In_keys_delete in He. apply H3. tauto.
Qed.

Lemma in_step__addApp app w :
  JSMap.get app (appToCardMap (tm w)) = None ->
  maps_in_step w -> maps_in_step (world (_addApp app w)).
Proof.
  intros E (H1 & H2 & H3). rewrite _addApp_run. cbv zeta.
  unfold maps_in_step.
  cbn -[JSMap.get JSMap.delete JSMap.set JSMap.keys].
  assert (Hfresh : forall c, JSMap.get (next_ref w) (elementToCardMap (tm w))
                             <> Some c).
  { intros c Hc. apply get_In_keys, H3 in Hc. lia. }
  split; [|split].
  - intros a c' Hg.
    destruct (Nat.eq_dec a app) as [->|Hne].
    + rewrite get_set_same in Hg. injection Hg as <-. simpl.
      split; [reflexivity | apply get_set_same].
    + rewrite get_set_other in Hg by exact Hne.
      destruct (H1 _ _ Hg) as [Hc' Hce']. split; [exact Hc'|].
      rewrite get_set_other; [exact Hce'|].
      intros Heq. rewrite Heq in Hce'. exact (Hfresh _ Hce').
  - intros e c' Hg.
    destruct (Nat.eq_dec e (next_ref w)) as [->|Hne].
    + rewrite get_set_same in Hg. injection Hg as <-. simpl.
      split; [reflexivity | apply get_set_same].
    + rewrite get_set_other in Hg by exact Hne.
      destruct (H2 _ _ Hg) as [Hc' Hca']. split; [exact Hc'|].
      rewrite get_set_other; [exact Hca'|].
      intros Heq. rewrite Heq in Hca'. congruence.
  - intros e He. apply In_keys_set in He. destruct He as [->|He]; [lia|].
    specialize (H3 e He). lia.
Qed.

Ltac in_step_step :=
  first
    [ apply keeps_ret
    | apply keeps_throw
    | apply keeps_this
    | apply keeps_emit
    | apply in_step_clock
    | apply in_step_fresh
    | apply in_step_advance
    | apply in_step_await
    | apply in_step_modify; reflexivity
    | apply keeps_bind; [|intro]
    | apply keeps_forEach; intro
    | apply keeps_forEach_from; intros
    | match goal with
      | |- keeps _ (match ?x with _ => _ end) => destruct x
      end ].

Tactic Notation "in_step_with" tactic3(leaf) :=
  repeat first [leaf | in_step_step].

Lemma in_step_updateScrollPosition env :
  keeps maps_in_step (updateScrollPosition env).
Proof.
  unfold updateScrollPosition, write_aria, write_aria_card.
  in_step_with fail.
Qed.

Lemma in_step_updateLayout env : keeps maps_in_step (updateLayout env).
Proof.
  unfold updateLayout, translate_cards, translate_card.
  in_step_with (apply in_step_updateScrollPosition).
Qed.

Lemma in_step_add_missing l : keeps maps_in_step (add_missing l).
Proof.
  unfold add_missing. apply keeps_forEach. intros app w H.
  rewrite bind_this.
  destruct (JSMap.get app (appToCardMap (tm w))) eqn:E; [exact H|].
  pose proof (in_step__addApp app w E H) as H'.
  unfold bind. rewrite _addApp_run in *. exact H'.
Qed.

Lemma in_step_updateStack env : keeps maps_in_step (updateStack env).
Proof.
  unfold updateStack, remove_stale.
  in_step_with (first [ apply in_step_updateLayout | apply in_step_add_missing
                      | apply in_step__removeApp ]).
Qed.

Lemma in_step_setActive active : keeps maps_in_step (setActive active).
Proof. unfold setActive, publish. in_step_with fail. Qed.

Lemma in_step_panToApp env app immediately :
  keeps maps_in_step (panToApp env app immediately).
Proof.
  intros w H. rewrite panToApp_run. destruct (js_num_eq _ _); exact H.
Qed.

Lemma in_step_show opts : keeps maps_in_step (show opts).
Proof. unfold show, publish, waitForScreenToBeReady_then. in_step_with fail. Qed.

Lemma in_step_hide env newApp animation :
  keeps maps_in_step (hide env newApp animation).
Proof. unfold hide, publish, eventSafety. in_step_with fail. Qed.

Lemma in_step_cardAction env card actionName :
  keeps maps_in_step (cardAction env card actionName).
Proof.
  unfold cardAction, and_then.
  in_step_with (apply in_step_panToApp).
Qed.

Lemma in_step_show_ready env : keeps maps_in_step (show_ready env).
Proof.
  unfold show_ready, waitForAppToClose_then.
  in_step_with (first [ apply in_step_updateStack | apply in_step_panToApp
                      | apply in_step_setActive ]).
Qed.

Lemma in_step_hide_teardown : keeps maps_in_step hide_teardown.
Proof.
  unfold hide_teardown, remove_all.
  in_step_with (first [ apply in_step_setActive | apply in_step__removeApp ]).
Qed.

Lemma in_step_run_continuation env k :
  keeps maps_in_step (run_continuation env k).
Proof.
  destruct k; simpl.
  - apply in_step_show_ready.
  - unfold show_done, publish. in_step_with fail.
  - apply in_step_hide_teardown.
  - in_step_with fail.
  - apply keeps_bind; [apply in_step_hide | intro; apply keeps_ret].
  - apply in_step_cardAction.
Qed.

Lemma in_step_fire env due : keeps maps_in_step (fire env due).
Proof.
  intros w H. unfold fire.
  destruct (select_pending due (pending w)) as [ks' rest].
  apply keeps_forEach.
  - intros k. apply keeps_guarded, in_step_run_continuation.
  - exact H.
Qed.

Lemma in_step_task env i : keeps maps_in_step (task env i).
Proof.
  destruct i; simpl.
  - apply keeps_guarded, in_step_show.
  - apply keeps_guarded, in_step_hide.
  - apply keeps_guarded, in_step_cardAction.
  - apply keeps_guarded, in_step_updateStack.
  - apply keeps_guarded, in_step_updateLayout.
  - apply keeps_guarded, in_step_updateScrollPosition.
  - apply in_step_fire.
  - apply in_step_fire.
  - apply in_step_fire.
  - apply keeps_bind; [apply in_step_advance | intro].
    apply keeps_bind; [apply in_step_clock | intro].
    apply in_step_fire.
Qed.

Lemma in_step_step' env i : keeps maps_in_step (step env i).
Proof.
  unfold step. apply keeps_bind; [apply in_step_task | intro].
  apply in_step_fire.
Qed.

Lemma in_step_run inputs : keeps maps_in_step (run inputs).
Proof.
  induction inputs as [|[env i] inputs IH]; simpl.
  - apply keeps_ret.
  - apply keeps_bind; [apply in_step_step' | intro; exact IH].
Qed.
Section SKeeps.
Variable I : Shell -> Prop.

Lemma skeeps_ret {A} (a : A) : skeeps I (sret a).
Proof. intros s H. exact H. Qed.

Lemma skeeps_throw {A} msg : skeeps I (@sthrow A msg).
Proof. intros s H. exact H. Qed.

Lemma skeeps_get : skeeps I sget.
Proof. intros s H. exact H. Qed.

Lemma skeeps_bind {A B} (m : SM A) (f : A -> SM B) :
  skeeps I m -> (forall a, skeeps I (f a)) -> skeeps I (sbind m f).
Proof.
  intros Hm Hf s H. unfold sbind. pose proof (Hm s H) as H1.
  destruct (s_outcome (m s)); cbn [s_shell]; [|exact H1].
  exact (Hf a _ H1).
Qed.

End SKeeps.

Lemma core_in_step_lift {A} (m : M A) :
  keeps maps_in_step m -> skeeps core_in_step (lift m).
Proof. intros Hm s H. exact (Hm _ H). Qed.

Ltac skeeps_step leaf :=
  first
    [ apply skeeps_ret
    | apply skeeps_throw
    | apply skeeps_get
    | leaf
    | apply skeeps_bind; [|intro]
    | match goal with
      | |- skeeps _ (match ?x with _ => _ end) => destruct x
      | |- skeeps _ (if ?x then _ else _) => destruct x
      end ].

Lemma core_in_step_openNewSheet senv isPrivate :
  skeeps core_in_step (openNewSheet senv isPrivate).
Proof.
  unfold openNewSheet. cbv zeta.
  repeat skeeps_step
    ltac:(first [ exact (fun s H => H)
                | apply core_in_step_lift;
                  first [ apply keeps_emit | apply in_step_updateStack
                        | apply in_step_panToApp | apply in_step_hide ] ]).
Qed.

Lemma core_in_step_handleEvent senv evt :
  skeeps core_in_step (handleEvent senv evt).
Proof.
  destruct evt; cbn [handleEvent].
  all: repeat skeeps_step
    ltac:(first [ apply core_in_step_openNewSheet
                | exact (fun s H => H)
                | apply core_in_step_lift;
                  first [ apply keeps_emit | apply in_step_updateStack
                        | apply in_step_updateLayout
                        | apply in_step_updateScrollPosition
                        | apply in_step_show
                        | apply in_step_cardAction
                        | apply in_step_panToApp | apply in_step_hide ] ]).
Qed.

Lemma sbind_get {B} (f : Shell -> SM B) s : sbind sget f s = f s s.
Proof. unfold sbind, sget. cbn [s_outcome s_shell s_trace app]. now destruct (f s s). Qed.

Section SKeepsLoop.
Variable I : Shell -> Prop.

Lemma skeeps_guarded {A} (m : SM A) : skeeps I m -> skeeps I (sguarded m).
Proof.
  intros Hm s H. pose proof (Hm s H) as H1. unfold sguarded.
  destruct (s_outcome (m s)); exact H1.
Qed.

Lemma skeeps_play l :
  (forall senv h, In (senv, h) l -> skeeps I (happen senv h)) ->
  skeeps I (play l).
Proof.
  induction l as [|[senv h] l IH]; intros Hl; cbn [play].
  - apply skeeps_ret.
  - apply skeeps_bind.
    + apply Hl. left. reflexivity.
    + intros _. apply IH. intros senv' h' Hin. apply Hl. right. exact Hin.
Qed.

End SKeepsLoop.

Lemma core_in_step_happen senv h : skeeps core_in_step (happen senv h).
Proof.
  destruct h; cbn [happen].
  - apply skeeps_bind;
      [apply skeeps_guarded, core_in_step_handleEvent | intros _].
    apply core_in_step_lift, in_step_fire.
  - apply core_in_step_lift, in_step_step'.
Qed.

(** The app map and the element map always hold the same cards: they do in
    the initial state, and from a state where a window's card is found
    under its own element and an element's card under its own window, no
    sequence of handled events and event-loop turns leads to a state where
    they disagree. *)
Theorem maps_stay_in_step l s :
  maps_in_step (core s) -> maps_in_step (core (s_shell (play l s))).
Proof.
  apply (skeeps_play core_in_step l).
  intros senv h _. apply core_in_step_happen.
Qed.

Lemma maps_stay_in_step_witness :
  let senv := sample_shell_env (sample_env [1; 2] 320 0%Q) in
  maps_in_step
    (core (s_shell (play [(senv, Handled (TaskManagerShow false));
                          (senv, Turn ScreenReady);
                          (senv, Handled AppTerminated)] initial_shell))).
Proof.
  cbv zeta. apply maps_stay_in_step.
  unfold maps_in_step. simpl.
  split; [|split]; intros; (discriminate || contradiction).
Defined.

(** * The axis lock *)

Lemma dragging_lift t0 {A} (m : M A) : skeeps (dragging t0) (lift m).
Proof. intros s H. exact H. Qed.

Lemma dragging_openNewSheet t0 senv isPrivate :
  skeeps (dragging t0) (openNewSheet senv isPrivate).
Proof.
  unfold openNewSheet. cbv zeta.
  repeat skeeps_step ltac:(first [ apply dragging_lift | exact (fun s H => H) ]).
Qed.

Lemma dragging_handleEvent t0 senv evt :
  match evt with CardDropped _ _ => False | _ => True end ->
  skeeps (dragging t0) (handleEvent senv evt).
Proof.
  intros Hevt.
  destruct evt; try contradiction; cbn [handleEvent].
  3: { intros s H. rewrite sbind_get. destruct H as [H1 H2]. rewrite H1.
       assert (K : skeeps (dragging t0)
                 (sbind (sret tt)
                    (fun _ => sbind (lift (updateScrollPosition (base senv)))
                                (fun _ => sret false))))
         by (repeat skeeps_step ltac:(apply dragging_lift)).
       exact (K s (conj H1 H2)). }
  3: { intros s H. rewrite sbind_get.
       destruct (_ <? _); [exact H|].
       destruct H as [H1 H2]. split; [reflexivity | exact H2]. }
  all: repeat skeeps_step
         ltac:(first [ apply dragging_openNewSheet | apply dragging_lift
                     | exact (fun s H => H) ]).
Qed.

Lemma dragging_happen t0 senv h :
  is_drop h = false -> skeeps (dragging t0) (happen senv h).
Proof.
  intros Hh. destruct h; cbn [happen].
  - apply skeeps_bind; [|intros _; apply dragging_lift].
    apply skeeps_guarded, dragging_handleEvent.
    destruct evt; try exact I. discriminate.
  - apply dragging_lift.
Qed.

Lemma dragging_play t0 l :
  forallb (fun h => negb (is_drop (snd h))) l = true ->
  skeeps (dragging t0) (play l).
Proof.
  intros Hl. apply skeeps_play. intros senv h Hin.
  apply dragging_happen.
  rewrite forallb_forall in Hl. specialize (Hl _ Hin).
  now apply negb_true_iff in Hl.
Qed.

Lemma drop_enables_scrolling senv target willKill s :
  overflowX (s_shell (handleEvent senv (CardDropped target willKill) s))
  = OverflowScroll.
Proof.
  cbn [handleEvent]. unfold sbind at 1, set_overflowX at 1.
  cbn [s_outcome s_shell s_trace].
  destruct willKill; [|reflexivity].
  rewrite sbind_get. cbn [core].
  destruct (JSMap.get target _); reflexivity.
Qed.

Lemma scroll_sets_clock senv s :
  overflowX s <> OverflowHidden ->
  _lastScrollTimestamp (s_shell (handleEvent senv Scroll s))
  = Some (dateNow senv).
Proof.
  intros H. cbn [handleEvent]. rewrite sbind_get.
  assert (K : forall t,
    skeeps (fun s => _lastScrollTimestamp s = t)
      (sbind (lift (updateScrollPosition (base senv))) (fun _ => sret false))).
  { intros t. repeat skeeps_step ltac:(exact (fun s H => H)). }
  destruct (overflowX s) eqn:E; try congruence; unfold sbind at 1;
    cbn [set_lastScrollTimestamp s_outcome s_shell s_trace];
    match goal with
    | |- context [sbind ?m ?f ?s0] => exact (K _ s0 eq_refl)
    end.
Qed.

(** The axis lock. A drag that starts before the last scroll is prevented
    and changes nothing. A drag that starts at or after it is let through
    and switches scrolling off; from then on, whatever happens until the
    card is dropped, scrolling stays off and the time of the last scroll
    does not move, so scroll events received during the drag cannot make a
    later drag look stale. The drop switches scrolling back on, even when
    it fails, and the next scroll event is timed again. *)
Theorem axis_lock senv ts s :
  let r := handleEvent senv (CardWillDrag ts) s in
  (ts < scroll_clock s -> r = mkSResult (Normal true) s []) /\
  (scroll_clock s <= ts ->
   s_outcome r = Normal false /\
   forall l, forallb (fun h => negb (is_drop (snd h))) l = true ->
     let s2 := s_shell (play l (s_shell r)) in
     overflowX s2 = OverflowHidden /\
     _lastScrollTimestamp s2 = _lastScrollTimestamp s /\
     forall senv' target willKill senv'',
       let s3 := s_shell (handleEvent senv' (CardDropped target willKill) s2) in
       overflowX s3 = OverflowScroll /\
       _lastScrollTimestamp (s_shell (handleEvent senv'' Scroll s3))
       = Some (dateNow senv'')).
Proof.
  cbv zeta.
  assert (E : handleEvent senv (CardWillDrag ts) s =
              (if ts <? scroll_clock s then sret true
               else sbind (set_overflowX OverflowHidden) (fun _ => sret false))
                s).
  { cbn [handleEvent]. rewrite sbind_get. reflexivity. }
  rewrite E. clear E.
  split; intros Hts.
  - apply Nat.ltb_lt in Hts. rewrite Hts. reflexivity.
  - apply Nat.ltb_ge in Hts. rewrite Hts.
    split; [reflexivity|]. intros l Hl.
    assert (D : dragging (_lastScrollTimestamp s)
                  (s_shell (sbind (set_overflowX OverflowHidden)
                              (fun _ => sret false) s)))
      by (split; reflexivity).
    destruct (dragging_play _ l Hl _ D) as [D1 D2].
    split; [exact D1|]. split; [exact D2|].
    intros senv' target willKill senv''.
    split; [apply drop_enables_scrolling|].
    apply scroll_sets_clock.
    rewrite (drop_enables_scrolling senv' target willKill). discriminate.
Qed.

Lemma axis_lock_witness :
  let senv := sample_shell_env (sample_env [1; 2; 3] 320 0%Q) in
  let s := s_shell (handleEvent senv Scroll initial_shell) in
  handleEvent senv (CardWillDrag 20) s = mkSResult (Normal true) s [] /\
  overflowX
    (s_shell (play [(senv, Handled Scroll); (senv, Turn Tick)]
                (s_shell (handleEvent senv (CardWillDrag 60) s))))
  = OverflowHidden.
Proof.
  cbv zeta. split.
  - apply (proj1 (axis_lock _ 20 _)). apply Nat.ltb_lt. vm_compute. reflexivity.
  - refine (proj1 (proj2 (proj2 (axis_lock _ 60 _) _) _ _)).
    + apply Nat.leb_le. vm_compute. reflexivity.
    + reflexivity.
Defined.

(** * New sheets *)

Lemma sbind_normal {A B} (m : SM A) (f : A -> SM B) s a s1 t1 :
  m s = mkSResult (Normal a) s1 t1 ->
  sbind m f s =
  mkSResult (s_outcome (f a s1)) (s_shell (f a s1)) (t1 ++ s_trace (f a s1)).
Proof. intros H. unfold sbind. now rewrite H. Qed.

Lemma sbind_throw {A B} (m : SM A) (f : A -> SM B) s msg s1 t1 :
  m s = mkSResult (Throw msg) s1 t1 ->
  sbind m f s = mkSResult (Throw msg) s1 t1.
Proof. intros H. unfold sbind. now rewrite H. Qed.

Lemma lift_run {A} (m : M A) s o w tr :
  m (core s) = mkResult o w tr ->
  lift m s =
  mkSResult o
    (mkShell w (_lastScrollTimestamp s) (overflowX s)
       (class_after tr (emptyClass s)) (displayNone s)) tr.
Proof. intros H. unfold lift. now rewrite H. Qed.

Lemma class_step_keeps e b : keeps_empty_class e = true -> class_step b e = b.
Proof.
  destruct e as [ | n cls force | n cls | n cls | | | | | | | | | | | | | | | | | ];
    simpl; try reflexivity; destruct n; try reflexivity;
    destruct (String.eqb cls "empty"); try reflexivity; discriminate.
Qed.

Lemma class_after_keeps tr : forall b,
  forallb keeps_empty_class tr = true -> class_after tr b = b.
Proof.
  unfold class_after.
  induction tr as [|e tr IH]; intros b H; [reflexivity|].
  simpl in H. apply andb_true_iff in H. destruct H as [He H].
  simpl. rewrite (class_step_keeps e b He). exact (IH b H).
Qed.

Lemma updateStack_keeps_empty_class env :
  emits_only keeps_empty_class (updateStack env).
Proof.
  unfold updateStack, remove_stale, add_missing, _removeApp, _addApp,
    updateLayout, translate_cards, translate_card, updateScrollPosition,
    write_aria, write_aria_card.
  emits.
Qed.

Lemma hide_keeps_empty_class env newApp animation :
  emits_only keeps_empty_class (hide env newApp animation).
Proof. unfold hide, publish, eventSafety. emits. Qed.

Lemma hide_opens env newApp animation w a :
  isShown (tm w) = true -> _isTransitioning (tm w) = false ->
  hide_target env newApp = Some a ->
  exists tr,
    hide env newApp animation w =
    mkResult (Normal PPending)
      (mkWorld (set_isTransitioning true (tm w))
         (pending w ++ [OnEventOrTimeout a "_opened" (now w + 1000) KHideTeardown])
         (now w) (next_ref w))
      tr /\
    filter is_app_open tr = [AppOpen a (open_animation env a animation)].
Proof.
  intros H1 H2 Ht. unfold hide_target in Ht. unfold open_animation.
  unfold hide, bind, this. simpl. rewrite H1, H2. simpl. rewrite Ht.
  destruct (isHomescreen env a); simpl; eexists; split; reflexivity.
Qed.

Lemma updateStack_opens_nothing env :
  emits_only (fun e => negb (is_app_open e)) (updateStack env).
Proof.
  unfold updateStack, remove_stale, add_missing, _removeApp, _addApp,
    updateLayout, translate_cards, translate_card, updateScrollPosition,
    write_aria, write_aria_card.
  emits.
Qed.

Lemma filter_none {A} (P : A -> bool) l :
  forallb (fun x => negb (P x)) l = true -> filter P l = [].
Proof.
  induction l as [|x l IH]; simpl; [reflexivity|].
  intros H. apply andb_true_iff in H. destruct H as [Hx H].
  apply negb_true_iff in Hx. rewrite Hx. auto.
Qed.

Lemma hide_to_window env a animation w :
  exists p w' tr,
    hide env (Some a) animation w = mkResult (Normal p) w' tr /\
    forallb keeps_empty_class tr = true /\
    (isShown (tm w) = true -> _isTransitioning (tm w) = false ->
       w' = mkWorld (set_isTransitioning true (tm w))
              (pending w ++
               [OnEventOrTimeout a "_opened" (now w + 1000) KHideTeardown])
              (now w) (next_ref w) /\
       filter is_app_open tr = [AppOpen a (open_animation env a animation)]) /\
    (negb (isShown (tm w)) || _isTransitioning (tm w) = true ->
       w' = w /\ tr = []).
Proof.
  pose proof (hide_keeps_empty_class env (Some a) animation w) as Hcls.
  destruct (negb (isShown (tm w)) || _isTransitioning (tm w)) eqn:E.
  - rewrite (hide_noop env (Some a) animation w E) in *.
    exists PResolved, w, []. split; [reflexivity|]. split; [reflexivity|].
    split; [|auto].
    intros Hs Ht. rewrite Hs, Ht in E. discriminate.
  - apply orb_false_iff in E. destruct E as [Hs Ht].
    apply negb_false_iff in Hs.
    destruct (hide_opens env (Some a) animation w a Hs Ht eq_refl)
      as (tr & Hrun & Hanim).
    rewrite Hrun in *. do 3 eexists. split; [reflexivity|].
    split; [exact Hcls|].
    split; [intros _ _; split; [reflexivity | exact Hanim]|].
    intros H. discriminate H.
Qed.

Lemma panToApp_quiet env app immediately w :
  exists p tr,
    panToApp env app immediately w = mkResult (Normal p) w tr /\
    forallb keeps_empty_class tr = true /\ filter is_app_open tr = [].
Proof.
  rewrite panToApp_run. destruct (js_num_eq _ _); do 2 eexists;
    (split; [reflexivity|]); split; reflexivity.
Qed.

Lemma openNewSheet_shape senv isPrivate s :
  exists w2 tr,
    stack (tm w2) = latest_stack (base senv) (_browserOnly (tm (core s))) /\
    _active (tm w2) = _active (tm (core s)) /\
    _isTransitioning (tm w2) = _isTransitioning (tm (core s)) /\
    pending w2 = pending (core s) /\ now w2 = now (core s) /\
    (forall a, In a (JSMap.keys (appToCardMap (tm w2))) <->
               In a (latest_stack (base senv) (_browserOnly (tm (core s))))) /\
    filter is_app_open tr = [] /\
    match JSMap.get (newAppWindow senv) (appToCardMap (tm w2)) with
    | None =>
        openNewSheet senv isPrivate s =
        mkSResult (Throw "TypeError: card is undefined")
          (mkShell w2 (_lastScrollTimestamp s) (overflowX s) false
             (displayNone s)) tr
    | Some card =>
        exists p w3 trh,
          hide (base senv) (Some (newAppWindow senv))
            (Some "from-new-card"%string) w2 = mkResult (Normal p) w3 trh /\
          openNewSheet senv isPrivate s =
          mkSResult (Normal tt)
            (mkShell w3 (_lastScrollTimestamp s) (overflowX s) false
               (card_element card :: displayNone s))
            (tr ++ trh)
    end.
Proof.
  destruct (updateStack_run (base senv) (core s))
    as (m & em & n & cc & tr & Hrun & Hkeys & _).
  pose proof (updateStack_keeps_empty_class (base senv) (core s)) as Hcls.
  pose proof (updateStack_opens_nothing (base senv) (core s)) as Hopen.
  rewrite Hrun in Hcls, Hopen. cbn [trace] in Hcls, Hopen.
  apply filter_none in Hopen.
  match type of Hrun with _ = mkResult _ ?w _ => set (w2 := w) in * end.
  assert (Hm : appToCardMap (tm w2) = m) by reflexivity.
  destruct (panToApp_quiet (base senv) (Some (newAppWindow senv)) false w2)
    as (pp & trp & Hpan & Hclsp & Hopenp).
  exists w2.
  exists (match JSMap.get (newAppWindow senv) (appToCardMap (tm w2)) with
          | Some _ => ClassRemove TaskManagerEl "empty" :: tr ++ trp
          | None => ClassRemove TaskManagerEl "empty" :: tr
          end).
  split; [reflexivity|]. split; [reflexivity|]. split; [reflexivity|].
  split; [reflexivity|]. split; [reflexivity|].
  split; [rewrite Hm; exact Hkeys|].
  split.
  { destruct (JSMap.get _ _); cbn [filter is_app_open];
      rewrite ?filter_app, Hopen, ?Hopenp; reflexivity. }
  assert (E : openNewSheet senv isPrivate s =
              let s2 := mkShell w2 (_lastScrollTimestamp s) (overflowX s) false
                          (displayNone s) in
              let k := match JSMap.get (newAppWindow senv) (appToCardMap (tm w2)) with
                 | Some card =>
                     sbind (hide_element (card_element card)) (fun _ =>
                     sbind (lift (panToApp (base senv)
                                    (Some (newAppWindow senv)) false)) (fun _ =>
                     sbind (lift (hide (base senv) (Some (newAppWindow senv))
                                    (Some "from-new-card"%string))) (fun _ =>
                     sret tt)))
                 | None => sthrow "TypeError: card is undefined"
                 end in
              mkSResult (s_outcome (k s2)) (s_shell (k s2))
                (ClassRemove TaskManagerEl "empty" :: tr ++ s_trace (k s2))).
  { unfold openNewSheet. cbv zeta.
    erewrite sbind_normal; [|reflexivity].
    erewrite sbind_normal; [|apply lift_run; exact Hrun].
    cbn [core _lastScrollTimestamp overflowX emptyClass displayNone].
    rewrite (class_after_keeps tr _ Hcls).
    rewrite sbind_get. cbn [core s_outcome s_shell s_trace app].
    reflexivity. }
  rewrite E. clear E. cbv zeta.
  destruct (JSMap.get (newAppWindow senv) (appToCardMap (tm w2))) as [card|].
  - destruct (hide_to_window (base senv) (newAppWindow senv)
                (Some "from-new-card"%string) w2)
      as (p & w3 & trh & Hhide & Hclsh & _).
    exists p, w3, trh. split; [exact Hhide|].
    erewrite sbind_normal; [|reflexivity].
    erewrite sbind_normal; [|apply lift_run; exact Hpan].
    erewrite sbind_normal; [|apply lift_run; exact Hhide].
    cbn [core _lastScrollTimestamp overflowX emptyClass displayNone
         s_outcome s_shell s_trace sret app].
    rewrite (class_after_keeps trp _ Hclsp), (class_after_keeps trh _ Hclsh).
    rewrite app_nil_r, <- app_assoc. reflexivity.
  - cbn [sthrow s_outcome s_shell s_trace]. rewrite app_nil_r. reflexivity.
Qed.

(** [openNewSheet] clears the [empty] class and refreshes the stack in every
    case. When the window it has created is not in the refreshed stack (it
    is not in the snapshot, or the browser-only filter leaves it out), the
    call fails with a TypeError before anything is hidden or opened and no
    transition starts. Otherwise the call completes, the display of the new
    window's card is switched off, and a switcher that is shown and idle
    starts hiding towards the new window, opened with [from-new-card]
    unless it is the home surface. *)
Theorem openNewSheet_behaviour senv isPrivate s :
  let a := newAppWindow senv in
  let env := base senv in
  let latest := latest_stack env (_browserOnly (tm (core s))) in
  let r := openNewSheet senv isPrivate s in
  let s' := s_shell r in
  emptyClass s' = false /\
  stack (tm (core s')) = latest /\
  (~ In a latest ->
     s_outcome r = Throw "TypeError: card is undefined" /\
     displayNone s' = displayNone s /\
     _isTransitioning (tm (core s')) = _isTransitioning (tm (core s)) /\
     pending (core s') = pending (core s) /\
     filter is_app_open (s_trace r) = []) /\
  (In a latest ->
     s_outcome r = Normal tt /\
     (exists card,
        JSMap.get a (appToCardMap (tm (core s'))) = Some card /\
        displayNone s' = card_element card :: displayNone s) /\
     (isShown (tm (core s)) = true -> _isTransitioning (tm (core s)) = false ->
        _isTransitioning (tm (core s')) = true /\
        pending (core s') =
          pending (core s) ++
          [OnEventOrTimeout a "_opened" (now (core s) + 1000) KHideTeardown] /\
        filter is_app_open (s_trace r) =
          [AppOpen a (open_animation env a (Some "from-new-card"%string))]) /\
     (negb (isShown (tm (core s))) || _isTransitioning (tm (core s)) = true ->
        _isTransitioning (tm (core s')) = _isTransitioning (tm (core s)) /\
        pending (core s') = pending (core s) /\
        filter is_app_open (s_trace r) = [])).
Proof.
  cbv zeta.
  destruct (openNewSheet_shape senv isPrivate s)
    as (w2 & tr & Hstack & Hact & Htrans & Hpend & Hnow & Hkeys & Htr & Hrun).
  destruct (JSMap.get (newAppWindow senv) (appToCardMap (tm w2)))
    as [card|] eqn:Hget.
  - destruct Hrun as (p & w3 & trh & Hhide & Hrun).
    assert (Hin : In (newAppWindow senv)
                    (latest_stack (base senv) (_browserOnly (tm (core s)))))
      by (apply Hkeys; eapply get_In_keys; exact Hget).
    destruct (hide_to_window (base senv) (newAppWindow senv)
                (Some "from-new-card"%string) w2)
      as (p' & w3' & trh' & Hhide' & _ & Hidle & Hbusy).
    rewrite Hhide in Hhide'. injection Hhide' as <- <- <-.
    unfold isShown, isActive in *. rewrite Hact, Htrans, Hpend, Hnow in *.
    rewrite Hrun. cbn [s_outcome s_shell s_trace core emptyClass displayNone].
    split; [reflexivity|].
    assert (Hsame : stack (tm w3) = stack (tm w2) /\
                    appToCardMap (tm w3) = appToCardMap (tm w2)).
    { destruct (negb (_active (tm (core s))) || _isTransitioning (tm (core s)))
        eqn:E.
      - destruct (Hbusy eq_refl) as [-> _]. auto.
      - apply orb_false_iff in E. destruct E as [Hs Ht].
        apply negb_false_iff in Hs.
        destruct (Hidle Hs Ht) as [-> _]. auto. }
    destruct Hsame as [Hst Hmap]. rewrite Hst, Hmap.
    split; [exact Hstack|].
    split; [intros Hn; contradiction|].
    intros _. split; [reflexivity|].
    split; [exists card; auto|].
    rewrite filter_app, Htr. cbn [app].
    split.
    + intros Hs Ht. destruct (Hidle Hs Ht) as [-> Hanim].
      split; [reflexivity|]. split; [reflexivity | exact Hanim].
    + intros Hb. destruct (Hbusy Hb) as [-> ->].
      split; [exact Htrans|]. split; [exact Hpend | reflexivity].
  - assert (Hnin : ~ In (newAppWindow senv)
                     (latest_stack (base senv) (_browserOnly (tm (core s)))))
      by (rewrite <- Hkeys; apply get_None_keys; exact Hget).
    rewrite Hrun. cbn [s_outcome s_shell s_trace core emptyClass displayNone].
    split; [reflexivity|]. split; [exact Hstack|].
    split; [|intros Hin; contradiction].
    intros _. auto.
Qed.

Lemma openNewSheet_behaviour_witness :
  let env := sample_env [1; 2; 3] 320 0%Q in
  s_outcome (openNewSheet (sample_shell_env env) false shown_shell)
  = Throw "TypeError: card is undefined" /\
  s_outcome (openNewSheet (mkShellEnv env 50 (fun _ => true) 3) false
               shown_shell)
  = Normal tt.
Proof.
  cbv zeta. split.
  - refine (proj1 (proj1 (proj2 (proj2
              (openNewSheet_behaviour _ false shown_shell))) _)).
    simpl. intuition discriminate.
  - refine (proj1 (proj2 (proj2 (proj2
              (openNewSheet_behaviour _ false shown_shell))) _)).
    simpl. auto.
Defined.

(** * Selecting a card *)

Lemma cardAction_select env w card :
  cardAction env card "select" w =
  if js_num_eq (Fin (scrollLeft env))
       (pan_target env (tm w) (Some (card_app card)))
  then mkResult (Normal tt)
         (with_pending (pending w ++ [OnMicrotask (KHide (card_app card))]) w)
         []
  else mkResult (Normal tt)
         (with_pending
            (pending w ++ [OnTimer (now w + 200) (KHide (card_app card))]) w)
         [ScrollTo (pan_target env (tm w) (Some (card_app card))) "smooth"].
Proof.
  unfold cardAction.
  change (String.eqb "select" "close") with false.
  change (String.eqb "select" "favorite") with false.
  change (String.eqb "select" "select") with true. cbv iota.
  unfold bind. cbv beta. rewrite panToApp_run.
  destruct (js_num_eq _ _); reflexivity.
Qed.

(** The callback [this.hide(card.app)] run on a shown, idle switcher. *)
Lemma hide_fires env due w a p :
  pending w = [p] -> due p = Some (KHide a) ->
  isShown (tm w) = true -> _isTransitioning (tm w) = false ->
  exists tr,
    fire env due w =
    mkResult (Normal tt)
      (mkWorld (set_isTransitioning true (tm w))
         [OnEventOrTimeout a "_opened" (now w + 1000) KHideTeardown]
         (now w) (next_ref w))
      tr /\
    left_ tr = [] /\
    filter is_app_open tr = [AppOpen a (open_animation env a None)].
Proof.
  intros Hp Hd Hs Ht.
  destruct (hide_opens env (Some a) None (with_pending [] w) a Hs Ht eq_refl)
    as (tr & Hrun & Hanim).
  destruct (hide_starts env (Some a) None (with_pending [] w) a Hs Ht eq_refl)
    as (tr' & Hrun' & Hleft & _).
  rewrite Hrun in Hrun'. injection Hrun' as <-.
  exists tr. split; [|split; assumption].
  rewrite (fire_single env due w p (KHide a) Hp Hd).
  erewrite bind_runs; [ | | reflexivity ].
  2: { unfold guarded. cbn [run_continuation].
       erewrite bind_runs; [ | exact Hrun | reflexivity ].
       reflexivity. }
  now rewrite !app_nil_r.
Qed.

Lemma step_select env w card :
  pending w = [] ->
  isShown (tm w) = true -> _isTransitioning (tm w) = false ->
  let a := card_app card in
  if js_num_eq (Fin (scrollLeft env)) (pan_target env (tm w) (Some a))
  then exists tr,
         step env (CallCardAction card "select") w =
         mkResult (Normal tt)
           (mkWorld (set_isTransitioning true (tm w))
              [OnEventOrTimeout a "_opened" (now w + 1000) KHideTeardown]
              (now w) (next_ref w))
           tr /\
         left_ tr = [] /\
         filter is_app_open tr = [AppOpen a (open_animation env a None)]
  else step env (CallCardAction card "select") w =
       mkResult (Normal tt)
         (with_pending [OnTimer (now w + 200) (KHide a)] w)
         [ScrollTo (pan_target env (tm w) (Some a)) "smooth"].
Proof.
  intros Hp Hs Ht. cbv zeta.
  pose proof (cardAction_select env w card) as Htask.
  destruct (js_num_eq _ _).
  - rewrite Hp in Htask. cbn [app] in Htask.
    destruct (hide_fires env is_microtask
                (with_pending [OnMicrotask (KHide (card_app card))] w)
                (card_app card) (OnMicrotask (KHide (card_app card)))
                eq_refl eq_refl Hs Ht) as (tr & Hfire & Hl & Ha).
    exists tr. split; [|split; assumption].
    unfold step. erewrite bind_runs; [ | | exact Hfire ].
    2: { cbn [task]. unfold guarded. rewrite Htask. reflexivity. }
    reflexivity.
  - unfold step. erewrite bind_runs.
    2: { cbn [task]. unfold guarded. rewrite Htask. reflexivity. }
    2: { apply fire_none. simpl. rewrite Hp. intros p [<-|[]]. reflexivity. }
    rewrite Hp, app_nil_r. reflexivity.
Qed.

Lemma step_tick_hide env w d a :
  pending w = [OnTimer d (KHide a)] -> d <= S (now w) ->
  isShown (tm w) = true -> _isTransitioning (tm w) = false ->
  exists tr,
    step env Tick w =
    mkResult (Normal tt)
      (mkWorld (set_isTransitioning true (tm w))
         [OnEventOrTimeout a "_opened" (S (now w) + 1000) KHideTeardown]
         (S (now w)) (next_ref w))
      tr /\
    left_ tr = [] /\
    filter is_app_open tr = [AppOpen a (open_animation env a None)].
Proof.
  intros Hp Hd Hs Ht.
  destruct (hide_fires env (is_due (S (now w))) (with_now (S (now w)) w) a
              (OnTimer d (KHide a))) as (tr & Hfire & Hl & Ha).
  { exact Hp. }
  { simpl. destruct (Nat.leb_spec d (S (now w))); [reflexivity | lia]. }
  { exact Hs. }
  { exact Ht. }
  exists tr. split; [|split; assumption].
  unfold step. erewrite bind_runs; [ | | apply fire_none ].
  2: { simpl. unfold bind, advance, clock. cbn [outcome world trace now].
       unfold with_now in Hfire. cbn [now tm pending next_ref] in Hfire.
       rewrite Hfire. reflexivity. }
  - now rewrite app_nil_r.
  - simpl. intros p [<-|[]]. reflexivity.
Qed.

(** A started [hide] left alone for 1000 time-units. *)
Lemma hide_finishes env w a :
  pending w = [OnEventOrTimeout a "_opened" (now w + 1000) KHideTeardown] ->
  _active (tm w) = true ->
  exists em tr,
    run (ticks env 1000) w =
    mkResult (Normal tt)
      (mkWorld
         (with_maps (delete_all (stack (tm w)) (appToCardMap (tm w))) em
            (set_active false (set_isTransitioning false (tm w))))
         [] (now w + 1000) (next_ref w))
      tr /\
    left_ tr = stack (tm w) /\ entered tr = [].
Proof.
  intros Hp Hact.
  change 1000 with (S 999) at 1. rewrite ticks_snoc, run_app.
  rewrite (run_ticks_safety_waiting env a "_opened" (now w + 1000)
             KHideTeardown 999 w Hp) by lia.
  cbn [world trace app].
  destruct (step_tick_teardown env (with_now (now w + 999) w) a "_opened"
              (now w + 1000)) as (em & tr & Hrun & Hl & He);
    [exact Hp | simpl; lia | exact Hact |].
  exists em, tr. split; [|split; assumption].
  rewrite run_cons, Hrun. cbn [world trace run ret tm pending now next_ref with_now].
  rewrite app_nil_r.
  replace (S (now w + 999)) with (now w + 1000) by lia. reflexivity.
Qed.

(** * Handled events as turns of the event loop *)

Lemma class_after_app t1 t2 b :
  class_after (t1 ++ t2) b = class_after t2 (class_after t1 b).
Proof. unfold class_after. apply fold_left_app. Qed.

Lemma lift_bind {A B} (m : M A) (f : A -> M B) s :
  sbind (lift m) (fun x => lift (f x)) s = lift (bind m f) s.
Proof.
  unfold sbind, lift, bind. cbn [s_outcome s_shell s_trace].
  destruct (outcome (m (core s))); cbn [outcome world trace core
    _lastScrollTimestamp overflowX emptyClass displayNone];
    [|reflexivity].
  now rewrite class_after_app.
Qed.

Lemma sguarded_lift {A} (m : M A) s : sguarded (lift m) s = lift (guarded m) s.
Proof.
  unfold sguarded, lift, guarded. cbn [s_outcome s_shell s_trace].
  destruct (outcome (m (core s))); cbn [outcome world trace]; [reflexivity|].
  now rewrite class_after_app.
Qed.

Lemma sguarded_lift_ret {A B} (m : M A) (b : B) s :
  sguarded (sbind (lift m) (fun _ => sret b)) s = lift (guarded m) s.
Proof.
  rewrite <- sguarded_lift. unfold sguarded, sbind, lift, sret.
  cbn [s_outcome s_shell s_trace].
  destruct (outcome (m (core s))); cbn [s_outcome s_shell s_trace];
    [|reflexivity].
  now rewrite app_nil_r.
Qed.

Lemma happen_call senv (m : SM bool) (c : M unit) evt s :
  handleEvent senv evt s = m s ->
  sguarded m s = lift c s ->
  happen senv (Handled evt) s =
  lift (bind c (fun _ => fire (base senv) is_microtask)) s.
Proof.
  intros Hm Hc. cbn [happen]. rewrite <- lift_bind.
  unfold sbind, sguarded. rewrite Hm.
  unfold sguarded in Hc. now rewrite Hc.
Qed.

Lemma click_card_is_call senv s el action card :
  emptyClass s = false ->
  JSMap.get el (elementToCardMap (tm (core s))) = Some card ->
  happen senv (Handled (Click (OtherTarget (Some el) action))) s
  = happen senv (Turn (CallCardAction card (action_name action))) s.
Proof.
  intros He Hget.
  eapply happen_call; [|apply sguarded_lift_ret].
  cbn [handleEvent]. rewrite sbind_get, He, Hget. reflexivity.
Qed.


(** * Tapping a card *)

Lemma sbind_ext {A B} (m : SM A) (f g : A -> SM B) s :
  (forall a s', f a s' = g a s') -> sbind m f s = sbind m g s.
Proof.
  intros H. unfold sbind. destruct (s_outcome (m s)); [|reflexivity].
  now rewrite H.
Qed.

Lemma play_turns senv inputs : forall s,
  play (turns senv inputs) s = lift (run (inputs_in (base senv) inputs)) s.
Proof.
  induction inputs as [|i inputs IH]; intros s.
  - destruct s. reflexivity.
  - cbn [turns inputs_in map play run happen].
    rewrite <- lift_bind. apply sbind_ext. intros _ s'. apply IH.
Qed.

Lemma play_cons senv h l s :
  play ((senv, h) :: l) s = sbind (happen senv h) (fun _ => play l) s.
Proof. reflexivity. Qed.

Lemma inputs_in_ticks env n : inputs_in env (repeat Tick n) = ticks env n.
Proof. unfold inputs_in, ticks. apply map_repeat. Qed.

Lemma ticks_add env n m : ticks env (n + m) = ticks env n ++ ticks env m.
Proof. unfold ticks. apply repeat_app. Qed.

Lemma select_run_shape env w card :
  pending w = [] ->
  isShown (tm w) = true -> _isTransitioning (tm w) = false ->
  let a := card_app card in
  let call := (env, CallCardAction card "select") in
  let delay :=
    if js_num_eq (Fin (scrollLeft env)) (pan_target env (tm w) (Some a))
    then 0 else 200 in
  (forall j, j < delay ->
     run (call :: ticks env j) w =
     mkResult (Normal tt)
       (mkWorld (tm w) [OnTimer (now w + 200) (KHide a)] (now w + j)
          (next_ref w))
       [ScrollTo (pan_target env (tm w) (Some a)) "smooth"]) /\
  exists tr1,
    left_ tr1 = [] /\
    filter is_app_open tr1 = [AppOpen a (open_animation env a None)] /\
    run (call :: ticks env delay) w =
    mkResult (Normal tt)
      (mkWorld (set_isTransitioning true (tm w))
         [OnEventOrTimeout a "_opened" (now w + delay + 1000) KHideTeardown]
         (now w + delay) (next_ref w))
      tr1 /\
    exists em tr2,
      run (call :: ticks env (delay + 1000)) w =
      mkResult (Normal tt)
        (mkWorld
           (with_maps (delete_all (stack (tm w)) (appToCardMap (tm w))) em
              (set_active false (set_isTransitioning false (tm w))))
           [] (now w + delay + 1000) (next_ref w))
        (tr1 ++ tr2) /\
      left_ tr2 = stack (tm w).
Proof.
  intros Hp Hs Ht. cbv zeta.
  pose proof (step_select env w card Hp Hs Ht) as Hstep. cbv zeta in Hstep.
  destruct (js_num_eq _ _).
  - destruct Hstep as (tr1 & Hstep & Hl & Ha).
    split; [intros j Hj; lia|].
    exists tr1. split; [exact Hl|]. split; [exact Ha|].
    split.
    + rewrite run_cons, Hstep. cbn [world trace ticks repeat run ret].
      rewrite app_nil_r, !Nat.add_0_r. reflexivity.
    + match type of Hstep with _ = mkResult _ ?w1 _ =>
        destruct (hide_finishes env w1 (card_app card) eq_refl Hs)
          as (em & tr2 & Hrun & Hl2 & _)
      end.
      exists em, tr2. split; [|exact Hl2].
      rewrite run_cons, Hstep. cbn [world trace Nat.add].
      rewrite Hrun. cbn [world trace tm pending now next_ref stack
        appToCardMap set_isTransitioning].
      rewrite !Nat.add_0_r. reflexivity.
  - assert (Hwait : forall j, j < 200 ->
              run ((env, CallCardAction card "select") :: ticks env j) w =
              mkResult (Normal tt)
                (mkWorld (tm w) [OnTimer (now w + 200) (KHide (card_app card))]
                   (now w + j) (next_ref w))
                [ScrollTo (pan_target env (tm w) (Some (card_app card)))
                   "smooth"]).
    { intros j Hj. rewrite run_cons, Hstep. cbn [world trace].
      rewrite (run_ticks_waiting env (now w + 200) (KHide (card_app card)) j)
        by (simpl; (reflexivity || lia)).
      cbn [world trace with_now with_pending tm pending now next_ref].
      rewrite app_nil_r. reflexivity. }
    split; [exact Hwait|].
    destruct (step_tick_hide env
                (mkWorld (tm w) [OnTimer (now w + 200) (KHide (card_app card))]
                   (now w + 199) (next_ref w))
                (now w + 200) (card_app card))
      as (tr & Htick & Hl & Ha);
      [reflexivity | simpl; lia | exact Hs | exact Ht |].
    cbn [tm pending now next_ref] in Htick.
    replace (S (now w + 199)) with (now w + 200) in Htick by lia.
    assert (H200 : run ((env, CallCardAction card "select") :: ticks env 200) w =
              mkResult (Normal tt)
                (mkWorld (set_isTransitioning true (tm w))
                   [OnEventOrTimeout (card_app card) "_opened"
                      (now w + 200 + 1000) KHideTeardown]
                   (now w + 200) (next_ref w))
                (ScrollTo (pan_target env (tm w) (Some (card_app card)))
                   "smooth" :: tr)).
    { change 200 with (S 199) at 1.
      rewrite ticks_snoc, app_comm_cons, run_app, (Hwait 199) by lia.
      cbn [world trace]. rewrite run_cons, Htick.
      cbn [world trace run ret]. rewrite app_nil_r. reflexivity. }
    eexists. split; [|split; [|split; [exact H200|]]].
    + cbn [left_]. exact Hl.
    + cbn [filter is_app_open]. exact Ha.
    + match type of H200 with _ = mkResult _ ?w1 _ =>
        destruct (hide_finishes env w1 (card_app card) eq_refl Hs)
          as (em & tr2 & Hrun & Hl2 & _)
      end.
      exists em, tr2. split; [|exact Hl2].
      rewrite ticks_add, app_comm_cons, run_app, H200.
      cbn [world trace]. rewrite Hrun. reflexivity.
Qed.

(** Tapping a card brings its window to the front. On a shown, idle
    switcher with nothing pending, a click on a card's element pans to the
    card; until the pan is over (200 time-units, none when the list is
    already there) nothing is opened and the task manager's state is
    untouched; when it is over, the card's window and no other is opened
    and the switcher is in transition; 1000 time-units later the switcher
    is hidden, every window of the stack has been told it left and none
    has a card any more. *)
Theorem tap_selects senv el card s :
  emptyClass s = false ->
  JSMap.get el (elementToCardMap (tm (core s))) = Some card ->
  pending (core s) = [] ->
  isShown (tm (core s)) = true -> _isTransitioning (tm (core s)) = false ->
  let env := base senv in
  let a := card_app card in
  let tap := (senv, Handled (Click (OtherTarget (Some el) None))) in
  let delay :=
    if js_num_eq (Fin (scrollLeft env)) (pan_target env (tm (core s)) (Some a))
    then 0 else 200 in
  (forall j, j < delay ->
     let r := play (tap :: turns senv (repeat Tick j)) s in
     tm (core (s_shell r)) = tm (core s) /\
     filter is_app_open (s_trace r) = []) /\
  (let r := play (tap :: turns senv (repeat Tick delay)) s in
   _active (tm (core (s_shell r))) = true /\
   _isTransitioning (tm (core (s_shell r))) = true /\
   filter is_app_open (s_trace r) = [AppOpen a (open_animation env a None)] /\
   left_ (s_trace r) = []) /\
  (let r := play (tap :: turns senv (repeat Tick (delay + 1000))) s in
   _active (tm (core (s_shell r))) = false /\
   _isTransitioning (tm (core (s_shell r))) = false /\
   pending (core (s_shell r)) = [] /\
   left_ (s_trace r) = stack (tm (core s)) /\
   forall x, In x (stack (tm (core s))) ->
     JSMap.get x (appToCardMap (tm (core (s_shell r)))) = None).
Proof.
  intros He Hget Hp Hs Ht. cbv zeta.
  assert (Hplay : forall n,
    play ((senv, Handled (Click (OtherTarget (Some el) None))) ::
          turns senv (repeat Tick n)) s =
    lift (run ((base senv, CallCardAction card "select") ::
               ticks (base senv) n)) s).
  { intros n. rewrite play_cons.
    unfold sbind. rewrite (click_card_is_call senv s el None card He Hget).
    change (action_name None) with "select"%string.
    rewrite <- (inputs_in_ticks (base senv) n).
    change ((base senv, CallCardAction card "select") ::
            inputs_in (base senv) (repeat Tick n))
      with (inputs_in (base senv) (CallCardAction card "select" :: repeat Tick n)).
    rewrite <- play_turns. reflexivity. }
  destruct (select_run_shape (base senv) (core s) card Hp Hs Ht)
    as (Hwait & tr1 & Hl1 & Ha1 & Hrun1 & em & tr2 & Hrun2 & Hl2).
  cbv zeta in Hwait, Hrun1, Hrun2.
  split; [|split].
  - intros j Hj. rewrite Hplay. unfold lift.
    rewrite (Hwait j Hj). cbn [s_shell s_trace core world trace tm].
    split; reflexivity.
  - rewrite Hplay. unfold lift. rewrite Hrun1.
    cbn [s_shell s_trace core world trace tm].
    split; [exact Hs|]. split; [reflexivity|]. split; [exact Ha1 | exact Hl1].
  - rewrite Hplay. unfold lift. rewrite Hrun2.
    cbn [s_shell s_trace core world trace tm pending].
    split; [reflexivity|]. split; [reflexivity|]. split; [reflexivity|].
    split; [rewrite left_app, Hl1, Hl2; reflexivity|].
    intros x Hx. now apply delete_all_get.
Qed.

Lemma tap_selects_witness :
  let senv := sample_shell_env (sample_env [1; 2; 3] 320 0%Q) in
  let tap := (senv, Handled (Click (OtherTarget (Some 1) None))) in
  filter is_app_open
    (s_trace (play (tap :: turns senv (repeat Tick 200)) shown_shell))
  = [AppOpen 2 "from-cardview"].
Proof.
  cbv zeta.
  exact (proj1 (proj2 (proj2 (proj1 (proj2
           (tap_selects (sample_shell_env (sample_env [1; 2; 3] 320 0%Q)) 1
              (mkCard 1 2 1 false) shown_shell
              eq_refl eq_refl eq_refl eq_refl eq_refl)))))).
Defined.

(** * Swiping a card up *)

Lemma happen_normal senv h s : s_outcome (happen senv h s) = Normal tt.
Proof.
  assert (G : forall (m : SM bool) s0,
            s_outcome (sbind (sguarded m)
                         (fun _ => lift (fire (base senv) is_microtask)) s0)
            = Normal tt).
  { intros m s0. unfold sbind, sguarded.
    destruct (s_outcome (m s0)); cbn [s_outcome s_shell lift];
      apply fire_normal. }
  destruct h; cbn [happen].
  - apply G.
  - unfold lift. cbn [s_outcome]. apply step_normal.
Qed.

Lemma play_normal l : forall s, s_outcome (play l s) = Normal tt.
Proof.
  induction l as [|[senv h] l IH]; intros s; [reflexivity|].
  cbn [play]. unfold sbind. rewrite happen_normal. cbn [s_outcome]. apply IH.
Qed.

Lemma play_step senv h l s :
  play ((senv, h) :: l) s =
  mkSResult (Normal tt)
    (s_shell (play l (s_shell (happen senv h s))))
    (s_trace (happen senv h s) ++ s_trace (play l (s_shell (happen senv h s)))).
Proof.
  cbn [play]. unfold sbind. rewrite happen_normal. cbn [s_outcome].
  now rewrite play_normal.
Qed.

Lemma play_app l1 : forall l2 s,
  play (l1 ++ l2) s =
  mkSResult (Normal tt)
    (s_shell (play l2 (s_shell (play l1 s))))
    (s_trace (play l1 s) ++ s_trace (play l2 (s_shell (play l1 s)))).
Proof.
  induction l1 as [|[senv h] l1 IH]; intros l2 s.
  - cbn [app play sret s_shell s_trace]. pose proof (play_normal l2 s) as H.
    destruct (play l2 s); cbn in *. now subst.
  - rewrite <- app_comm_cons, !play_step, IH. cbn [s_shell s_trace].
    now rewrite app_assoc.
Qed.

Lemma play_ticks_idle senv n s :
  pending (core s) = [] ->
  play (turns senv (repeat Tick n)) s =
  mkSResult (Normal tt)
    (mkShell (with_now (now (core s) + n) (core s)) (_lastScrollTimestamp s)
       (overflowX s) (emptyClass s) (displayNone s))
    [].
Proof.
  intros Hp. rewrite play_turns, inputs_in_ticks. unfold lift.
  rewrite (run_ticks_nothing_pending (base senv) n (core s) Hp). reflexivity.
Qed.

Lemma happen_drop senv el card s :
  JSMap.get el (elementToCardMap (tm (core s))) = Some card ->
  pending (core s) = [] ->
  happen senv (Handled (CardDropped el true)) s =
  mkSResult (Normal tt)
    (mkShell
       (with_pending
          [OnEventOrTimeout (card_element card) "transitionend"
             (now (core s) + 400) (KClose card)] (core s))
       (_lastScrollTimestamp s) OverflowScroll (emptyClass s) (displayNone s))
    [].
Proof.
  intros Hget Hp.
  assert (E : handleEvent senv (CardDropped el true) s =
              mkSResult (Normal false)
                (mkShell
                   (with_pending
                      [OnEventOrTimeout (card_element card) "transitionend"
                         (now (core s) + 400) (KClose card)] (core s))
                   (_lastScrollTimestamp s) OverflowScroll (emptyClass s)
                   (displayNone s))
                []).
  { cbn [handleEvent]. unfold sbind, set_overflowX, sget, lift, eventSafety,
      bind, clock, await, ret, sret.
    cbn [s_outcome s_shell s_trace core outcome world trace tm pending now
         next_ref app class_after fold_left _lastScrollTimestamp overflowX
         emptyClass displayNone].
    rewrite Hget.
    cbn [s_outcome s_shell s_trace core outcome world trace tm pending now
         next_ref app class_after fold_left _lastScrollTimestamp overflowX
         emptyClass displayNone].
    rewrite Hp. reflexivity. }
  cbn [happen]. unfold sbind, sguarded. rewrite E.
  cbn [s_outcome s_shell s_trace]. unfold lift. cbn [core].
  rewrite fire_none by (intros p [<-|[]]; reflexivity).
  reflexivity.
Qed.

Lemma cardAction_close env w card :
  cardAction env card "close" w =
  if (1 <? List.length (stack (tm w))) &&
     (indexOf (stack (tm w)) (card_app card)
      =? Z.of_nat (List.length (stack (tm w))) - 1)%Z
  then
    let target := nth_error (stack (tm w)) (List.length (stack (tm w)) - 2) in
    if js_num_eq (Fin (scrollLeft env)) (pan_target env (tm w) target)
    then mkResult (Normal tt)
           (with_pending (pending w ++ [OnMicrotask (KKill (card_app card))]) w)
           []
    else mkResult (Normal tt)
           (with_pending
              (pending w ++ [OnTimer (now w + 200) (KKill (card_app card))]) w)
           [ScrollTo (pan_target env (tm w) target) "smooth"]
  else mkResult (Normal tt) w [Kill (card_app card)].
Proof.
  unfold cardAction.
  change (String.eqb "close" "close") with true. cbv iota.
  rewrite bind_this.
  destruct (_ && _); [|reflexivity].
  cbv zeta. unfold bind. cbv beta. rewrite panToApp_run.
  destruct (js_num_eq _ _); reflexivity.
Qed.

Lemma step_close env w card :
  pending w = [] ->
  step env (CallCardAction card "close") w =
  if Nat.eqb (close_delay env (tm w) (card_app card)) 0
  then mkResult (Normal tt) w [Kill (card_app card)]
  else mkResult (Normal tt)
         (with_pending [OnTimer (now w + 200) (KKill (card_app card))] w)
         [ScrollTo
            (pan_target env (tm w)
               (nth_error (stack (tm w)) (List.length (stack (tm w)) - 2)))
            "smooth"].
Proof.
  intros Hp. unfold step, close_delay.
  pose proof (cardAction_close env w card) as Htask. cbv zeta in Htask.
  destruct ((1 <? List.length (stack (tm w))) &&
            (indexOf (stack (tm w)) (card_app card)
             =? Z.of_nat (List.length (stack (tm w))) - 1)%Z);
    cbn [andb].
  - destruct (js_num_eq _ _); cbn [negb Nat.eqb].
    + erewrite bind_runs.
      2: { cbn [task]. unfold guarded. rewrite Htask. reflexivity. }
      2: { rewrite (fire_single env _ _ (OnMicrotask (KKill (card_app card)))
                      (KKill (card_app card))).
           - reflexivity.
           - simpl. now rewrite Hp.
           - reflexivity. }
      destruct w; simpl in *; subst. reflexivity.
    + erewrite bind_runs.
      2: { cbn [task]. unfold guarded. rewrite Htask. reflexivity. }
      2: { apply fire_none. simpl. rewrite Hp. intros p [<-|[]]. reflexivity. }
      rewrite Hp. reflexivity.
  - cbn [Nat.eqb]. erewrite bind_runs.
    2: { cbn [task]. unfold guarded. rewrite Htask. reflexivity. }
    2: { apply fire_none. simpl. rewrite Hp. intros p []. }
    reflexivity.
Qed.

Lemma close_delay_cases env t a :
  close_delay env t a = 0 \/ close_delay env t a = 200.
Proof. unfold close_delay. destruct (_ && _); auto. Qed.

(** The kills of a pending [kill] timer left alone for [j] time-units. *)
Lemma run_ticks_kill env a : forall j w,
  pending w = [OnTimer (now w + 200) (KKill a)] ->
  filter is_kill (trace (run (ticks env j) w)) =
  if j <? 200 then [] else [Kill a].
Proof.
  intros j w Hp.
  destruct (Nat.ltb_spec j 200) as [Hj|Hj].
  - rewrite (run_ticks_waiting env (now w + 200) (KKill a) j w Hp) by lia.
    reflexivity.
  - replace j with (199 + (1 + (j - 200))) by lia.
    rewrite ticks_add, run_app.
    rewrite (run_ticks_waiting env (now w + 200) (KKill a) 199 w Hp) by lia.
    cbn [world trace app].
    rewrite ticks_add, run_app. cbn [ticks repeat].
    rewrite run_cons.
    rewrite (step_tick_kill env (with_now (now w + 199) w) (now w + 200) a)
      by (simpl; (exact Hp || lia)).
    cbn [world trace run ret]. rewrite app_nil_r.
    rewrite run_ticks_nothing_pending by reflexivity.
    reflexivity.
Qed.

Lemma guarded_then_ret {A} (m : M A) w :
  bind (guarded m) (fun _ => ret tt) w = guarded m w.
Proof.
  unfold bind, guarded, ret.
  destruct (outcome (m w)); cbn [outcome world trace];
    now rewrite app_nil_r.
Qed.

(** The end of the wait of a drop, by its timeout or by the event, is the
    turn that closes the card. *)
Lemma step_tick_is_close env w el name d card :
  pending w = [OnEventOrTimeout el name d (KClose card)] -> d <= S (now w) ->
  step env Tick w =
  step env (CallCardAction card "close")
    (mkWorld (tm w) [] (S (now w)) (next_ref w)).
Proof.
  intros Hp Hd.
  assert (Htask : task env Tick w =
                  task env (CallCardAction card "close")
                    (mkWorld (tm w) [] (S (now w)) (next_ref w))).
  { assert (Hfire : fire env (is_due (S (now w))) (with_now (S (now w)) w) =
                     guarded (cardAction env card "close")
                       (mkWorld (tm w) [] (S (now w)) (next_ref w))).
    { rewrite (fire_single env _ _ (OnEventOrTimeout el name d (KClose card))
                 (KClose card)).
      - rewrite guarded_then_ret. reflexivity.
      - exact Hp.
      - cbn [is_due].
        destruct (Nat.leb_spec d (S (now w))); [reflexivity | lia]. }
    cbn [task]. unfold bind, advance, clock. cbn [outcome world trace now].
    unfold with_now in Hfire. cbn [now tm pending next_ref] in Hfire.
    rewrite Hfire. cbn [app].
    unfold guarded.
    destruct (outcome (cardAction env card "close" _)); reflexivity. }
  unfold step, bind. rewrite Htask. reflexivity.
Qed.

Lemma step_event_is_close env w el name d card :
  pending w = [OnEventOrTimeout el name d (KClose card)] ->
  step env (DomEvent el name) w =
  step env (CallCardAction card "close") (with_pending [] w).
Proof.
  intros Hp.
  assert (Htask : task env (DomEvent el name) w =
                  task env (CallCardAction card "close") (with_pending [] w)).
  { cbn [task].
    rewrite (fire_single env _ _ (OnEventOrTimeout el name d (KClose card))
               (KClose card)).
    - rewrite guarded_then_ret. reflexivity.
    - exact Hp.
    - cbn [is_event]. now rewrite Nat.eqb_refl, String.eqb_refl. }
  unfold step, bind. rewrite Htask. reflexivity.
Qed.

Lemma turns_app senv l1 l2 :
  turns senv (l1 ++ l2) = turns senv l1 ++ turns senv l2.
Proof. apply map_app. Qed.

Lemma inputs_in_app env l1 l2 :
  inputs_in env (l1 ++ l2) = inputs_in env l1 ++ inputs_in env l2.
Proof. apply map_app. Qed.

(** The kills of a closed card, [j] time-units after the close. *)
Lemma run_close_then_ticks env card j w :
  pending w = [] ->
  filter is_kill
    (trace (run ((env, CallCardAction card "close") :: ticks env j) w)) =
  if j <? close_delay env (tm w) (card_app card) then []
  else [Kill (card_app card)].
Proof.
  intros Hp. rewrite run_cons, (step_close env w card Hp).
  destruct (close_delay_cases env (tm w) (card_app card)) as [E|E]; rewrite E;
    cbn [Nat.eqb world trace].
  - rewrite run_ticks_nothing_pending by exact Hp. reflexivity.
  - rewrite filter_app. cbn [filter is_kill app].
    apply run_ticks_kill. reflexivity.
Qed.

(** Swiping a card up kills its window, once, after the fling has settled.
    The drop itself re-enables scrolling, kills nothing and registers one
    wait on the element of the card dropped, for [transitionend] or 400
    time-units. While the wait lasts nothing is killed. When it ends, at
    400 time-units or with the event if that comes first, the card is
    closed: its window is killed at once, or, if the card is the last of
    several and the list has to move, 200 time-units later, after the pan
    to the card before it. The window is killed once: after the event the
    timeout no longer fires. *)
Theorem swipe_up_kills senv el card s :
  JSMap.get el (elementToCardMap (tm (core s))) = Some card ->
  pending (core s) = [] ->
  let a := card_app card in
  let drop := (senv, Handled (CardDropped el true)) in
  let ended := (senv, Turn (DomEvent (card_element card) "transitionend")) in
  let wait n := turns senv (repeat Tick n) in
  let delay := close_delay (base senv) (tm (core s)) a in
  (forall j, j < 400 ->
     let r := play (drop :: wait j) s in
     filter is_kill (s_trace r) = [] /\
     overflowX (s_shell r) = OverflowScroll /\
     pending (core (s_shell r)) =
       [OnEventOrTimeout (card_element card) "transitionend"
          (now (core s) + 400) (KClose card)]) /\
  (forall j,
     filter is_kill (s_trace (play (drop :: wait (400 + j)) s)) =
     if j <? delay then [] else [Kill a]) /\
  (forall i j, i < 400 ->
     filter is_kill (s_trace (play (drop :: wait i ++ ended :: wait j) s)) =
     if j <? delay then [] else [Kill a]).
Proof.
  intros Hget Hp. cbv zeta.
  pose proof (happen_drop senv el card s Hget Hp) as Hdrop.
  set (w1 := with_pending
               [OnEventOrTimeout (card_element card) "transitionend"
                  (now (core s) + 400) (KClose card)] (core s)) in *.
  assert (Hwait : forall j, j < 400 ->
            run (ticks (base senv) j) w1 =
            mkResult (Normal tt) (with_now (now (core s) + j) w1) []).
  { intros j Hj.
    apply (run_ticks_safety_waiting (base senv) (card_element card)
             "transitionend" (now (core s) + 400) (KClose card) j w1);
      [reflexivity | simpl; lia]. }
  split; [|split].
  - intros j Hj. rewrite play_step, Hdrop. cbn [s_shell s_trace app].
    rewrite play_turns, inputs_in_ticks. unfold lift.
    cbn [core _lastScrollTimestamp overflowX emptyClass displayNone].
    rewrite (Hwait j Hj). cbn [s_shell s_trace world trace core overflowX].
    auto.
  - intros j. rewrite play_step, Hdrop. cbn [s_shell s_trace app].
    rewrite play_turns, inputs_in_ticks. unfold lift.
    cbn [core _lastScrollTimestamp overflowX emptyClass displayNone s_trace].
    replace (400 + j) with (399 + (1 + j)) by lia.
    rewrite ticks_add, run_app, (Hwait 399) by lia.
    cbn [world trace app]. rewrite ticks_add. cbn [ticks repeat app].
    rewrite run_cons.
    rewrite (step_tick_is_close (base senv) (with_now (now (core s) + 399) w1)
               (card_element card) "transitionend" (now (core s) + 400) card)
      by (simpl; (reflexivity || lia)).
    rewrite <- run_cons.
    exact (run_close_then_ticks (base senv) card j
             (mkWorld (tm (core s)) [] (S (now (core s) + 399))
                (next_ref (core s))) eq_refl).
  - intros i j Hi. rewrite play_step, Hdrop. cbn [s_shell s_trace app].
    change (turns senv (repeat Tick i) ++
            (senv, Turn (DomEvent (card_element card) "transitionend")) ::
            turns senv (repeat Tick j))
      with (turns senv (repeat Tick i) ++
            turns senv (DomEvent (card_element card) "transitionend" ::
                        repeat Tick j)).
    rewrite <- turns_app, play_turns. unfold lift.
    cbn [core _lastScrollTimestamp overflowX emptyClass displayNone s_trace].
    rewrite inputs_in_app.
    change (inputs_in (base senv)
              (DomEvent (card_element card) "transitionend" :: repeat Tick j))
      with ((base senv, DomEvent (card_element card) "transitionend") ::
            inputs_in (base senv) (repeat Tick j)).
    rewrite !inputs_in_ticks.
    rewrite run_app, (Hwait i Hi). cbn [world trace app].
    rewrite run_cons.
    rewrite (step_event_is_close (base senv) (with_now (now (core s) + i) w1)
               (card_element card) "transitionend" (now (core s) + 400) card)
      by reflexivity.
    rewrite <- run_cons.
    exact (run_close_then_ticks (base senv) card j
             (mkWorld (tm (core s)) [] (now (core s) + i) (next_ref (core s)))
             eq_refl).
Qed.

Lemma swipe_up_kills_witness :
  let senv := sample_shell_env (sample_env [1; 2; 3] 320 0%Q) in
  let drop := (senv, Handled (CardDropped 2 true)) in
  filter is_kill
    (s_trace (play (drop :: turns senv (repeat Tick (400 + 200))) shown_shell))
  = [Kill 3].
Proof.
  cbv zeta.
  exact (proj1 (proj2
           (swipe_up_kills (sample_shell_env (sample_env [1; 2; 3] 320 0%Q)) 2
              (mkCard 2 3 2 false) shown_shell eq_refl eq_refl)) 200).
Defined.

(** * The last window terminates *)

Lemma updateStack_shape env w :
  exists w2 tr,
    updateStack env w = mkResult (Normal tt) w2 tr /\
    stack (tm w2) = latest_stack env (_browserOnly (tm w)) /\
    _active (tm w2) = _active (tm w) /\
    _isTransitioning (tm w2) = _isTransitioning (tm w) /\
    pending w2 = pending w /\ now w2 = now w /\
    (forall a, In a (JSMap.keys (appToCardMap (tm w2))) <->
               In a (latest_stack env (_browserOnly (tm w)))) /\
    forallb keeps_empty_class tr = true /\
    filter is_app_open tr = [].
Proof.
  destruct (updateStack_run env w)
    as (m & em & n & cc & tr & Hrun & Hkeys & _).
  pose proof (updateStack_keeps_empty_class env w) as Hcls.
  pose proof (updateStack_opens_nothing env w) as Hopen.
  rewrite Hrun in Hcls, Hopen. cbn [trace] in Hcls, Hopen.
  apply filter_none in Hopen.
  do 2 eexists. split; [exact Hrun|].
  repeat (split; [reflexivity|]).
  split; [exact Hkeys|]. split; assumption.
Qed.

(** An [appterminated] event refreshes the stack and the cards. While
    windows remain it does nothing more. When none remains and the switcher
    is shown and idle, it starts hiding towards the active window, else the
    home surface; with neither to return to, the handler fails with a
    TypeError and leaves the switcher shown with the transition flag set. *)
Theorem last_window_terminated senv s :
  let env := base senv in
  let latest := latest_stack env (_browserOnly (tm (core s))) in
  let r := handleEvent senv AppTerminated s in
  let t' := tm (core (s_shell r)) in
  stack t' = latest /\
  (forall a, In a (JSMap.keys (appToCardMap t')) <-> In a latest) /\
  (latest <> [] ->
     s_outcome r = Normal false /\
     _isTransitioning t' = _isTransitioning (tm (core s)) /\
     pending (core (s_shell r)) = pending (core s) /\
     filter is_app_open (s_trace r) = []) /\
  (latest = [] ->
     isShown (tm (core s)) = true -> _isTransitioning (tm (core s)) = false ->
     _active t' = true /\ _isTransitioning t' = true /\
     match hide_target env None with
     | Some a =>
         s_outcome r = Normal false /\
         pending (core (s_shell r)) =
           pending (core s) ++
           [OnEventOrTimeout a "_opened" (now (core s) + 1000) KHideTeardown] /\
         filter is_app_open (s_trace r) = [AppOpen a (open_animation env a None)]
     | None =>
         s_outcome r = Throw "TypeError: newApp is null" /\
         pending (core (s_shell r)) = pending (core s) /\
         filter is_app_open (s_trace r) = []
     end).
Proof.
  cbv zeta.
  destruct (updateStack_shape (base senv) (core s))
    as (w2 & tr & Hrun & Hstack & Hact & Htrans & Hpend & Hnow & Hkeys
        & Hcls & Hopen).
  assert (E : handleEvent senv AppTerminated s =
              let s2 := mkShell w2 (_lastScrollTimestamp s) (overflowX s)
                          (emptyClass s) (displayNone s) in
              let k :=
                sbind
                  (if Nat.eqb (List.length (stack (tm w2))) 0
                   then sbind (lift (hide (base senv) None None))
                          (fun _ => sret tt)
                   else sret tt)
                  (fun _ => sret false) in
              mkSResult (s_outcome (k s2)) (s_shell (k s2))
                (tr ++ s_trace (k s2))).
  { cbn [handleEvent].
    erewrite sbind_normal; [|apply lift_run; exact Hrun].
    rewrite (class_after_keeps tr _ Hcls).
    rewrite sbind_get. reflexivity. }
  rewrite E. clear E. cbv zeta. rewrite Hstack.
  destruct (latest_stack (base senv) (_browserOnly (tm (core s))))
    as [|x latest] eqn:Hlatest.
  - (* nothing left *)
    cbn [List.length Nat.eqb].
    destruct (isShown (tm (core s)) && negb (_isTransitioning (tm (core s))))
      eqn:Hidle.
    + apply andb_true_iff in Hidle. destruct Hidle as [Hs Ht].
      apply negb_true_iff in Ht.
      assert (Hs2 : isShown (tm w2) = true)
        by (unfold isShown, isActive in *; congruence).
      assert (Ht2 : _isTransitioning (tm w2) = false) by congruence.
      destruct (hide_target (base senv) None) as [a|] eqn:Htarget.
      * destruct (hide_opens (base senv) None None w2 a Hs2 Ht2 Htarget)
          as (trh & Hhide & Hanim).
        pose proof (hide_keeps_empty_class (base senv) None None w2) as Hclsh.
        rewrite Hhide in Hclsh. cbn [trace] in Hclsh.
        erewrite sbind_normal.
        2: { erewrite sbind_normal; [|apply lift_run; exact Hhide].
             reflexivity. }
        cbn [s_outcome s_shell s_trace sret core tm stack appToCardMap pending
             _active _isTransitioning set_isTransitioning].
        rewrite !app_nil_r, filter_app, Hopen, Hanim, Hpend, Hnow.
        split; [exact Hstack|]. split; [exact Hkeys|].
        split; [intros H; contradiction|].
        intros _ _ _. unfold isShown, isActive in Hs2. auto.
      * pose proof (hide_throws (base senv) None None w2 Hs2 Ht2 Htarget)
          as Hhide.
        erewrite sbind_throw.
        2: { erewrite sbind_throw; [reflexivity|].
             apply lift_run. exact Hhide. }
        cbn [s_outcome s_shell s_trace sret core tm stack appToCardMap pending
             _active _isTransitioning set_isTransitioning with_tm].
        rewrite filter_app, Hopen, Hpend.
        split; [exact Hstack|]. split; [exact Hkeys|].
        split; [intros H; contradiction|].
        intros _ _ _. unfold isShown, isActive in Hs2. auto.
    + assert (Hnoop : hide (base senv) None None w2
                      = mkResult (Normal PResolved) w2 []).
      { apply hide_noop. unfold isShown, isActive in *.
        rewrite Hact, Htrans.
        destruct (_active (tm (core s))), (_isTransitioning (tm (core s)));
          try reflexivity; discriminate. }
      erewrite sbind_normal.
      2: { erewrite sbind_normal; [|apply lift_run; exact Hnoop].
           reflexivity. }
      cbn [s_outcome s_shell s_trace sret core].
      split; [exact Hstack|]. split; [exact Hkeys|].
      split; [intros H; contradiction|].
      intros _ Hs Ht. rewrite Hs, Ht in Hidle. discriminate.
  - cbn [List.length Nat.eqb].
    cbn [sbind sret s_outcome s_shell s_trace core].
    rewrite app_nil_r.
    split; [exact Hstack|]. split; [exact Hkeys|].
    split; [|intros H; discriminate].
    intros _. auto.
Qed.

Lemma last_window_terminated_witness :
  let env := sample_env [] 320 0%Q in
  s_outcome (handleEvent (sample_shell_env env) AppTerminated shown_shell)
  = Throw "TypeError: newApp is null".
Proof.
  cbv zeta.
  pose proof (proj2 (proj2 (proj2 (proj2 (proj2
                (last_window_terminated
                   (sample_shell_env (sample_env [] 320 0%Q)) shown_shell)))
                eq_refl eq_refl eq_refl))) as H.
  exact (proj1 H).
Defined.

(** * The wheel *)

Lemma updateScrollPosition_writes env :
  emits_only is_attribute_write (updateScrollPosition env).
Proof.
  unfold updateScrollPosition, write_aria, write_aria_card. emits.
Qed.

Lemma updateScrollPosition_frame env (I : World -> Prop) :
  (forall w c, I w -> I (with_tm (set_currentCard c (tm w)) w)) ->
  keeps I (updateScrollPosition env).
Proof.
  intros HI.
  unfold updateScrollPosition, write_aria, write_aria_card.
  repeat first
    [ apply keeps_ret | apply keeps_throw | apply keeps_this | apply keeps_emit
    | (intros w0 H0; exact (HI w0 _ H0))
    | apply keeps_bind; [|intro]
    | apply keeps_forEach_from; intros
    | match goal with
      | |- keeps _ (match ?x with _ => _ end) => destruct x
      end ].
Qed.

Lemma indexOf_range (l : list AppWindow) a :
  indexOf l a = (-1)%Z \/ (0 <= indexOf l a < Z.of_nat (List.length l))%Z.
Proof.
  unfold indexOf. destruct (in_dec Nat.eq_dec a l) as [Hin|Hnin].
  - right. destruct (indexOf_from_present l 0%Z a Hin) as (i & Hi & Hn & _).
    rewrite Hi. assert (i < List.length l) by (apply nth_error_Some; congruence).
    lia.
  - left. now apply indexOf_from_absent.
Qed.

Lemma pan_target_in_range env t x :
  0 < List.length (stack t) ->
  exists i, (0 <= i < Z.of_nat (List.length (stack t)))%Z /\
    pan_target env t x =
    match cardWidth t with
    | Some cw => Fin ((cw + CARD_GUTTER) * inject_Z i)%Q
    | None => NaN
    end.
Proof.
  intros Hn. unfold pan_target. cbv zeta.
  set (idx := match x with Some a => indexOf (stack t) a | None => (-1)%Z end).
  assert (Hidx : idx = (-1)%Z \/ (0 <= idx < Z.of_nat (List.length (stack t)))%Z).
  { subst idx. destruct x as [a|]; [apply indexOf_range | auto]. }
  destruct (Z.eqb_spec idx (-1)) as [E|E].
  - exists (Z.of_nat (List.length (stack t)) - 1)%Z. split; [lia | reflexivity].
  - exists idx. split; [lia | reflexivity].
Qed.

(** A wheel event never starts a transition and never touches the stack or
    the cards. It kills at most one window: the current card's, and only
    in page mode, for a downward delta, when the window says it can be
    killed. If it scrolls, it scrolls smoothly to the position of a card
    of the stack, never past the first or the last one. *)
Theorem wheel_behaviour senv pageMode deltaX deltaY s :
  let t := tm (core s) in
  let r := handleEvent senv (Wheel pageMode deltaX deltaY) s in
  let t' := tm (core (s_shell r)) in
  (stack t' = stack t /\ appToCardMap t' = appToCardMap t /\
   _active t' = _active t /\ _isTransitioning t' = _isTransitioning t /\
   pending (core (s_shell r)) = pending (core s)) /\
  filter is_kill (s_trace r) =
    match pageMode, currentCard t with
    | true, JObj current =>
        if (0 <? deltaY)%Z && killable senv (card_app current)
        then [Kill (card_app current)] else []
    | _, _ => []
    end /\
  (forall target behavior, In (ScrollTo target behavior) (s_trace r) ->
     behavior = "smooth"%string /\
     exists i, (0 <= i < Z.of_nat (List.length (stack t)))%Z /\
       target = match cardWidth t with
                | Some cw => Fin ((cw + CARD_GUTTER) * inject_Z i)%Q
                | None => NaN
                end).
Proof.
  destruct s as [w ts ov ec dn].
  cbv zeta. cbn [core _lastScrollTimestamp overflowX emptyClass displayNone].
  set (s := mkShell w ts ov ec dn).
  set (env := base senv).
  set (kills := match pageMode, currentCard (tm w) with
                | true, JObj current =>
                    if (0 <? deltaY)%Z && killable senv (card_app current)
                    then [Kill (card_app current)] else []
                | _, _ => []
                end).
  assert (Hfirst : exists tr1,
    handleEvent senv (Wheel pageMode deltaX deltaY) s =
    sbind (fun s0 => mkSResult (Normal tt) s0 tr1)
      (fun _ => sbind (lift (updateScrollPosition env)) (fun _ => sret false))
      s /\
    filter is_kill tr1 = kills /\
    (forall target behavior, In (ScrollTo target behavior) tr1 ->
       behavior = "smooth"%string /\
       exists i, (0 <= i < Z.of_nat (List.length (stack (tm w))))%Z /\
         target = match cardWidth (tm w) with
                  | Some cw => Fin ((cw + CARD_GUTTER) * inject_Z i)%Q
                  | None => NaN
                  end)).
  { assert (Hquiet : forall k : SM unit,
              k s = mkSResult (Normal tt)
                      s [] ->
              forall f : unit -> SM bool,
              sbind k f s =
              sbind (fun s0 => mkSResult (Normal tt) s0 [])
                f s).
    { intros k Hk f. unfold sbind. rewrite Hk. reflexivity. }
    assert (Hpan : forall x,
              0 < List.length (stack (tm w)) ->
              exists tr1,
                sbind (lift (panToApp env x false)) (fun _ => sret tt) s =
                mkSResult (Normal tt)
                  s tr1 /\
                filter is_kill tr1 = [] /\
                (forall target behavior, In (ScrollTo target behavior) tr1 ->
                   behavior = "smooth"%string /\
                   exists i,
                     (0 <= i < Z.of_nat (List.length (stack (tm w))))%Z /\
                     target = match cardWidth (tm w) with
                              | Some cw => Fin ((cw + CARD_GUTTER) * inject_Z i)%Q
                              | None => NaN
                              end)).
    { intros x Hn. unfold sbind, lift. rewrite panToApp_run.
      destruct (js_num_eq _ _); cbn [outcome world trace s_outcome s_shell
        s_trace sret app class_after fold_left class_step].
      - exists []. split; [reflexivity|]. split; [reflexivity|].
        intros ? ? [].
      - eexists. split; [reflexivity|]. split; [reflexivity|].
        intros target behavior [H|[]]. injection H as <- <-.
        split; [reflexivity|]. apply pan_target_in_range. exact Hn. }
    cbn [handleEvent]. rewrite sbind_get. cbv zeta. fold env.
    change (core s) with w.
    subst kills.
    destruct pageMode;
      [|exists []; split; [apply Hquiet; reflexivity|];
        split; [reflexivity | intros ? ? []]].
    destruct (currentCard (tm w)) as [| |current];
      try (exists []; split; [apply Hquiet; reflexivity|];
           split; [reflexivity | intros ? ? []]).
    destruct ((0 <? deltaY)%Z && killable senv (card_app current)).
    { exists [Kill (card_app current)].
      split; [unfold sbind; reflexivity|].
      split; [reflexivity|]. intros ? ? [H|[]]. discriminate H. }
    pose proof (indexOf_range (stack (tm w)) (card_app current)) as Hr.
    destruct ((deltaX <? 0)%Z &&
              (1 <=? indexOf (stack (tm w)) (card_app current))%Z)
      eqn:Hleft.
    { apply andb_true_iff in Hleft. destruct Hleft as [_ Hl].
      apply Z.leb_le in Hl.
      destruct (Hpan (nth_error (stack (tm w))
                        (Z.to_nat (indexOf (stack (tm w))
                                     (card_app current) - 1))))
        as (tr1 & Hk & Hkill & Hscroll); [lia|].
      exists tr1. split; [|split; assumption].
      unfold sbind at 1. rewrite Hk. reflexivity. }
    destruct ((0 <? deltaX)%Z &&
              (indexOf (stack (tm w)) (card_app current)
               <? Z.of_nat (List.length (stack (tm w))) - 1)%Z)
      eqn:Hright.
    { apply andb_true_iff in Hright. destruct Hright as [_ Hl].
      apply Z.ltb_lt in Hl.
      destruct (Hpan (nth_error (stack (tm w))
                        (Z.to_nat (indexOf (stack (tm w))
                                     (card_app current) + 1))))
        as (tr1 & Hk & Hkill & Hscroll); [lia|].
      exists tr1. split; [|split; assumption].
      unfold sbind at 1. rewrite Hk. reflexivity. }
    exists []. split; [apply Hquiet; reflexivity|].
    split; [reflexivity | intros ? ? []]. }
  destruct Hfirst as (tr1 & E & Hkill & Hscroll).
  rewrite E. clear E.
  pose proof (updateScrollPosition_writes env w) as Hw.
  subst s. unfold sbind, lift, sret.
  cbn [s_outcome s_shell s_trace core _lastScrollTimestamp overflowX
       emptyClass displayNone].
  set (r2 := updateScrollPosition env w) in *.
  assert (Hframe :
    stack (tm (world r2)) = stack (tm w) /\
    appToCardMap (tm (world r2)) = appToCardMap (tm w) /\
    _active (tm (world r2)) = _active (tm w) /\
    _isTransitioning (tm (world r2)) = _isTransitioning (tm w) /\
    pending (world r2) = pending w).
  { refine (updateScrollPosition_frame env
              (fun w1 => stack (tm w1) = stack (tm w) /\
                         appToCardMap (tm w1) = appToCardMap (tm w) /\
                         _active (tm w1) = _active (tm w) /\
                         _isTransitioning (tm w1) = _isTransitioning (tm w) /\
                         pending w1 = pending w) _ w _).
    - intros w1 c H. exact H.
    - repeat split; reflexivity. }
  assert (Hk2 : filter is_kill (trace r2) = []).
  { apply filter_none. apply forallb_forall. intros e He.
    rewrite forallb_forall in Hw. specialize (Hw e He).
    destruct e; try discriminate; reflexivity. }
  assert (Hs2 : forall target behavior, ~ In (ScrollTo target behavior) (trace r2)).
  { intros target behavior Hin.
    rewrite forallb_forall in Hw. specialize (Hw _ Hin). discriminate. }
  destruct (outcome r2); cbn [s_outcome s_shell s_trace core].
  - rewrite app_nil_r, filter_app, Hkill, Hk2, app_nil_r.
    split; [exact Hframe|]. split; [reflexivity|].
    intros target behavior Hin. apply in_app_or in Hin.
    destruct Hin as [Hin|Hin]; [eauto | exfalso; eapply Hs2; eauto].
  - rewrite filter_app, Hkill, Hk2, app_nil_r.
    split; [exact Hframe|]. split; [reflexivity|].
    intros target behavior Hin. apply in_app_or in Hin.
    destruct Hin as [Hin|Hin]; [eauto | exfalso; eapply Hs2; eauto].
Qed.

Lemma wheel_behaviour_witness :
  let senv := sample_shell_env (sample_env [1; 2; 3] 320 0%Q) in
  filter is_kill (s_trace (handleEvent senv (Wheel true 0 1) shown_shell))
  = [Kill 1].
Proof.
  cbv zeta.
  exact (proj1 (proj2
           (wheel_behaviour (sample_shell_env (sample_env [1; 2; 3] 320 0%Q))
              true 0 1 shown_shell))).
Defined.

(** * The [empty] mark *)

Section MarksRightly.

Lemma mr_quiet {A} (m : M A) :
  (forall w, trace (m w) = [] /\ _active (tm (world (m w))) = _active (tm w)) ->
  marks_rightly m.
Proof.
  intros H w b Hb Hc. destruct (H w) as [Ht Ha].
  rewrite Ht in Hc. rewrite Ha. exact (Hb Hc).
Qed.

Lemma mr_ret {A} (a : A) : marks_rightly (ret a).
Proof. apply mr_quiet. intros w. split; reflexivity. Qed.

Lemma mr_throw {A} msg : marks_rightly (@throw A msg).
Proof. apply mr_quiet. intros w. split; reflexivity. Qed.

Lemma mr_this : marks_rightly this.
Proof. apply mr_quiet. intros w. split; reflexivity. Qed.

Lemma mr_clock : marks_rightly clock.
Proof. apply mr_quiet. intros w. split; reflexivity. Qed.

Lemma mr_fresh : marks_rightly fresh.
Proof. apply mr_quiet. intros w. split; reflexivity. Qed.

Lemma mr_advance : marks_rightly advance.
Proof. apply mr_quiet. intros w. split; reflexivity. Qed.

Lemma mr_await p : marks_rightly (await p).
Proof. apply mr_quiet. intros w. split; reflexivity. Qed.

Lemma mr_modify f :
  (forall t, _active (f t) = _active t) -> marks_rightly (modify f).
Proof. intros H. apply mr_quiet. intros w. split; [reflexivity | apply H]. Qed.

Lemma never_marks_step e b :
  never_marks e = true -> class_step b e = true -> b = true.
Proof.
  destruct e as [ | n cls force | n cls | n cls | | | | | | | | | | | | | | | | | ];
    simpl; auto; destruct n; auto;
    destruct (String.eqb cls "empty"); auto; discriminate.
Qed.

Lemma mr_emit e : never_marks e = true -> marks_rightly (emit e).
Proof.
  intros He w b Hb Hc. apply Hb. exact (never_marks_step e b He Hc).
Qed.

Lemma mr_bind {A B} (m : M A) (f : A -> M B) :
  marks_rightly m -> (forall a, marks_rightly (f a)) -> marks_rightly (bind m f).
Proof.
  intros Hm Hf w b Hb. unfold bind. specialize (Hm w b Hb).
  destruct (outcome (m w)); cbn [world trace]; [|exact Hm].
  rewrite class_after_app. apply Hf. exact Hm.
Qed.

Lemma mr_forEach {A} (l : list A) f :
  (forall x, marks_rightly (f x)) -> marks_rightly (forEach l f).
Proof.
  intros H. induction l as [|x l IH]; simpl.
  - apply mr_ret.
  - apply mr_bind; auto.
Qed.

Lemma mr_forEach_from {A} (l : list A) f : forall i,
  (forall x i, marks_rightly (f x i)) -> marks_rightly (forEach_from i l f).
Proof.
  induction l as [|x l IH]; intros i H; simpl.
  - apply mr_ret.
  - apply mr_bind; auto.
Qed.

Lemma mr_guarded {A} (m : M A) : marks_rightly m -> marks_rightly (guarded m).
Proof.
  intros Hm w b Hb. specialize (Hm w b Hb). unfold guarded.
  destruct (outcome (m w)); cbn [world trace]; [exact Hm|].
  rewrite class_after_app. exact Hm.
Qed.

End MarksRightly.

Ltac mr_step :=
  first
    [ apply mr_ret
    | apply mr_throw
    | apply mr_this
    | apply mr_clock
    | apply mr_fresh
    | apply mr_advance
    | apply mr_await
    | apply mr_emit; reflexivity
    | apply mr_modify; reflexivity
    | apply mr_bind; [|intro]
    | apply mr_forEach; intro
    | apply mr_forEach_from; intros
    | match goal with
      | |- marks_rightly (match ?x with _ => _ end) => destruct x
      end ].

Tactic Notation "mr_with" tactic3(leaf) := repeat first [leaf | mr_step].

Lemma mr_setActive active : marks_rightly (setActive active).
Proof.
  intros w b Hb. unfold setActive. rewrite bind_this.
  destruct (Bool.eqb (_active (tm w)) active) eqn:E.
  - exact Hb.
  - unfold bind, modify, publish, emit, this.
    cbn [outcome world trace tm app set_active set_isTransitioning _active
         class_after fold_left class_step String.eqb Ascii.eqb Bool.eqb].
    destruct active; cbn [andb]; [reflexivity | discriminate].
Qed.

Lemma mr_updateScrollPosition env : marks_rightly (updateScrollPosition env).
Proof.
  unfold updateScrollPosition, write_aria, write_aria_card. mr_with fail.
Qed.

Lemma mr_updateLayout env : marks_rightly (updateLayout env).
Proof.
  unfold updateLayout, translate_cards, translate_card.
  mr_with (apply mr_updateScrollPosition).
Qed.

Lemma mr_updateStack env : marks_rightly (updateStack env).
Proof.
  unfold updateStack, remove_stale, add_missing, _removeApp, _addApp.
  mr_with (apply mr_updateLayout).
Qed.

Lemma mr_panToApp env app immediately :
  marks_rightly (panToApp env app immediately).
Proof. unfold panToApp. mr_with fail. Qed.

Lemma mr_show opts : marks_rightly (show opts).
Proof. unfold show, publish, waitForScreenToBeReady_then. mr_with fail. Qed.

Lemma mr_hide env newApp animation : marks_rightly (hide env newApp animation).
Proof. unfold hide, publish, eventSafety. mr_with fail. Qed.

Lemma mr_cardAction env card actionName :
  marks_rightly (cardAction env card actionName).
Proof. unfold cardAction, and_then. mr_with (apply mr_panToApp). Qed.

Lemma mr_show_ready env : marks_rightly (show_ready env).
Proof.
  unfold show_ready, waitForAppToClose_then.
  mr_with (first [ apply mr_updateStack | apply mr_panToApp
                 | apply mr_setActive ]).
Qed.

Lemma mr_hide_teardown : marks_rightly hide_teardown.
Proof.
  unfold hide_teardown, remove_all, _removeApp.
  mr_with (apply mr_setActive).
Qed.

Lemma mr_run_continuation env k : marks_rightly (run_continuation env k).
Proof.
  destruct k; simpl.
  - apply mr_show_ready.
  - unfold show_done, publish. mr_with fail.
  - apply mr_hide_teardown.
  - mr_with fail.
  - apply mr_bind; [apply mr_hide | intro; apply mr_ret].
  - apply mr_cardAction.
Qed.

Lemma mr_fire env due : marks_rightly (fire env due).
Proof.
  intros w b Hb. unfold fire.
  destruct (select_pending due (pending w)) as [ks' rest].
  apply (mr_forEach ks' (fun k => guarded (run_continuation env k))).
  - intros k. apply mr_guarded, mr_run_continuation.
  - exact Hb.
Qed.

Lemma mr_task env i : marks_rightly (task env i).
Proof.
  destruct i; simpl.
  - apply mr_guarded, mr_show.
  - apply mr_guarded, mr_hide.
  - apply mr_guarded, mr_cardAction.
  - apply mr_guarded, mr_updateStack.
  - apply mr_guarded, mr_updateLayout.
  - apply mr_guarded, mr_updateScrollPosition.
  - apply mr_fire.
  - apply mr_fire.
  - apply mr_fire.
  - apply mr_bind; [apply mr_advance | intro].
    apply mr_bind; [apply mr_clock | intro].
    apply mr_fire.
Qed.

Lemma mr_step' env i : marks_rightly (step env i).
Proof.
  unfold step. apply mr_bind; [apply mr_task | intro]. apply mr_fire.
Qed.

Lemma empty_only_active_lift {A} (m : M A) :
  marks_rightly m -> skeeps empty_only_active (lift m).
Proof. intros Hm s H. exact (Hm (core s) (emptyClass s) H). Qed.

Ltac mr_leaf :=
  first [ apply mr_emit; reflexivity | apply mr_updateStack
        | apply mr_updateLayout | apply mr_updateScrollPosition
        | apply mr_show | apply mr_cardAction | apply mr_panToApp
        | apply mr_hide | apply mr_fire | apply mr_step' ].

Lemma empty_only_active_openNewSheet senv isPrivate :
  skeeps empty_only_active (openNewSheet senv isPrivate).
Proof.
  unfold openNewSheet. cbv zeta.
  repeat skeeps_step
    ltac:(first [ exact (fun s H => H)
                | apply empty_only_active_lift; mr_leaf ]).
Qed.

Lemma empty_only_active_handleEvent senv evt :
  skeeps empty_only_active (handleEvent senv evt).
Proof.
  destruct evt; cbn [handleEvent].
  all: repeat skeeps_step
    ltac:(first [ apply empty_only_active_openNewSheet
                | exact (fun s H => H)
                | apply empty_only_active_lift; mr_leaf ]).
Qed.

Lemma empty_only_active_happen senv h :
  skeeps empty_only_active (happen senv h).
Proof.
  destruct h; cbn [happen].
  - apply skeeps_bind;
      [apply skeeps_guarded, empty_only_active_handleEvent | intros _].
    apply empty_only_active_lift, mr_fire.
  - apply empty_only_active_lift, mr_step'.
Qed.

(** The switcher is marked empty only while it is active: in the initial
    state it is not marked, and whatever events are handled and turns
    taken, the [empty] class is never found on a switcher that is not
    active. *)
Theorem marked_empty_only_while_active l s :
  (emptyClass s = true -> _active (tm (core s)) = true) ->
  let s' := s_shell (play l s) in
  emptyClass s' = true -> _active (tm (core s')) = true.
Proof.
  intros H. cbv zeta.
  apply (skeeps_play empty_only_active l); [|exact H].
  intros senv h _. apply empty_only_active_happen.
Qed.

Lemma marked_empty_only_while_active_witness :
  let senv := sample_shell_env (sample_env [] 320 0%Q) in
  let s' := s_shell (play [(senv, Handled (TaskManagerShow false));
                           (senv, Turn ScreenReady)] initial_shell) in
  emptyClass s' = true /\ _active (tm (core s')) = true.
Proof.
  cbv zeta. split; [reflexivity|].
  apply (marked_empty_only_while_active _ initial_shell).
  - intros H. discriminate H.
  - reflexivity.
Defined.

(** * The screenshot setting *)

Section FollowsSetting.
Variable b : bool.

Lemma fs_quiet {A} (m : M A) :
  (forall w, trace (m w) = [] /\
             disableScreenshots (tm (world (m w))) = disableScreenshots (tm w)) ->
  follows_setting b m.
Proof.
  intros H w Hw. destruct (H w) as [Ht Hd]. rewrite Ht, Hd. auto.
Qed.

Lemma fs_ret {A} (a : A) : follows_setting b (ret a).
Proof. apply fs_quiet. intros w. split; reflexivity. Qed.

Lemma fs_throw {A} msg : follows_setting b (@throw A msg).
Proof. apply fs_quiet. intros w. split; reflexivity. Qed.

Lemma fs_this : follows_setting b this.
Proof. apply fs_quiet. intros w. split; reflexivity. Qed.

Lemma fs_clock : follows_setting b clock.
Proof. apply fs_quiet. intros w. split; reflexivity. Qed.

Lemma fs_fresh : follows_setting b fresh.
Proof. apply fs_quiet. intros w. split; reflexivity. Qed.

Lemma fs_advance : follows_setting b advance.
Proof. apply fs_quiet. intros w. split; reflexivity. Qed.

Lemma fs_await p : follows_setting b (await p).
Proof. apply fs_quiet. intros w. split; reflexivity. Qed.

Lemma fs_modify f :
  (forall t, disableScreenshots (f t) = disableScreenshots t) ->
  follows_setting b (modify f).
Proof. intros H. apply fs_quiet. intros w. split; [reflexivity | apply H]. Qed.

Lemma fs_emit e : created_with b e = true -> follows_setting b (emit e).
Proof. intros He w Hw. split; [exact Hw | simpl; now rewrite He]. Qed.

Lemma fs_bind {A B} (m : M A) (f : A -> M B) :
  follows_setting b m -> (forall a, follows_setting b (f a)) ->
  follows_setting b (bind m f).
Proof.
  intros Hm Hf w Hw. unfold bind. destruct (Hm w Hw) as [H1 H2].
  destruct (outcome (m w)); cbn [world trace]; [|auto].
  destruct (Hf a _ H1) as [H3 H4]. split; [exact H3|].
  now rewrite forallb_app, H2, H4.
Qed.

Lemma fs_forEach {A} (l : list A) f :
  (forall x, follows_setting b (f x)) -> follows_setting b (forEach l f).
Proof.
  intros H. induction l as [|x l IH]; simpl.
  - apply fs_ret.
  - apply fs_bind; auto.
Qed.

Lemma fs_forEach_from {A} (l : list A) f : forall i,
  (forall x i, follows_setting b (f x i)) ->
  follows_setting b (forEach_from i l f).
Proof.
  induction l as [|x l IH]; intros i H; simpl.
  - apply fs_ret.
  - apply fs_bind; auto.
Qed.

Lemma fs_guarded {A} (m : M A) :
  follows_setting b m -> follows_setting b (guarded m).
Proof.
  intros Hm w Hw. destruct (Hm w Hw) as [H1 H2]. unfold guarded.
  destruct (outcome (m w)); cbn [world trace]; [auto|].
  split; [exact H1|]. now rewrite forallb_app, H2.
Qed.

(** [new Card(app, this.disableScreenshots)]. *)
Lemma fs__addApp app : follows_setting b (_addApp app).
Proof.
  intros w Hw. rewrite _addApp_run. cbv zeta. cbn [world trace tm].
  split; [exact Hw|].
  cbn [forallb created_with card_disableScreenshots andb].
  now rewrite Hw, Bool.eqb_reflx.
Qed.

End FollowsSetting.

Ltac fs_step :=
  first
    [ apply fs_ret
    | apply fs_throw
    | apply fs_this
    | apply fs_clock
    | apply fs_fresh
    | apply fs_advance
    | apply fs_await
    | apply fs_emit; reflexivity
    | apply fs_modify; reflexivity
    | apply fs_bind; [|intro]
    | apply fs_forEach; intro
    | apply fs_forEach_from; intros
    | match goal with
      | |- follows_setting _ (match ?x with _ => _ end) => destruct x
      end ].

Tactic Notation "fs_with" tactic3(leaf) := repeat first [leaf | fs_step].

Lemma fs_updateScrollPosition b env :
  follows_setting b (updateScrollPosition env).
Proof.
  unfold updateScrollPosition, write_aria, write_aria_card. fs_with fail.
Qed.

Lemma fs_updateLayout b env : follows_setting b (updateLayout env).
Proof.
  unfold updateLayout, translate_cards, translate_card.
  fs_with (apply fs_updateScrollPosition).
Qed.

Lemma fs_updateStack b env : follows_setting b (updateStack env).
Proof.
  unfold updateStack, remove_stale, add_missing, _removeApp.
  fs_with (first [ apply fs_updateLayout | apply fs__addApp ]).
Qed.

Lemma fs_setActive b active : follows_setting b (setActive active).
Proof. unfold setActive, publish. fs_with fail. Qed.

Lemma fs_panToApp b env app immediately :
  follows_setting b (panToApp env app immediately).
Proof. unfold panToApp. fs_with fail. Qed.

Lemma fs_show b opts : follows_setting b (show opts).
Proof. unfold show, publish, waitForScreenToBeReady_then. fs_with fail. Qed.

Lemma fs_hide b env newApp animation :
  follows_setting b (hide env newApp animation).
Proof. unfold hide, publish, eventSafety. fs_with fail. Qed.

Lemma fs_cardAction b env card actionName :
  follows_setting b (cardAction env card actionName).
Proof. unfold cardAction, and_then. fs_with (apply fs_panToApp). Qed.

Lemma fs_show_ready b env : follows_setting b (show_ready env).
Proof.
  unfold show_ready, waitForAppToClose_then.
  fs_with (first [ apply fs_updateStack | apply fs_panToApp
                 | apply fs_setActive ]).
Qed.

Lemma fs_hide_teardown b : follows_setting b hide_teardown.
Proof.
  unfold hide_teardown, remove_all, _removeApp.
  fs_with (apply fs_setActive).
Qed.

Lemma fs_run_continuation b env k : follows_setting b (run_continuation env k).
Proof.
  destruct k; simpl.
  - apply fs_show_ready.
  - unfold show_done, publish. fs_with fail.
  - apply fs_hide_teardown.
  - fs_with fail.
  - apply fs_bind; [apply fs_hide | intro; apply fs_ret].
  - apply fs_cardAction.
Qed.

Lemma fs_fire b env due : follows_setting b (fire env due).
Proof.
  intros w Hw. unfold fire.
  destruct (select_pending due (pending w)) as [ks' rest].
  apply (fs_forEach b ks' (fun k => guarded (run_continuation env k))).
  - intros k. apply fs_guarded, fs_run_continuation.
  - exact Hw.
Qed.

Lemma fs_task b env i : follows_setting b (task env i).
Proof.
  destruct i; simpl.
  - apply fs_guarded, fs_show.
  - apply fs_guarded, fs_hide.
  - apply fs_guarded, fs_cardAction.
  - apply fs_guarded, fs_updateStack.
  - apply fs_guarded, fs_updateLayout.
  - apply fs_guarded, fs_updateScrollPosition.
  - apply fs_fire.
  - apply fs_fire.
  - apply fs_fire.
  - apply fs_bind; [apply fs_advance | intro].
    apply fs_bind; [apply fs_clock | intro].
    apply fs_fire.
Qed.

Lemma fs_step' b env i : follows_setting b (step env i).
Proof.
  unfold step. apply fs_bind; [apply fs_task | intro]. apply fs_fire.
Qed.

Section SFollowsSetting.
Variable b : bool.

Lemma sfs_quiet {A} (m : SM A) :
  (forall s, s_trace (m s) = [] /\ core (s_shell (m s)) = core s) ->
  sfollows_setting b m.
Proof.
  intros H s Hs. destruct (H s) as [Ht Hc]. rewrite Ht, Hc. auto.
Qed.

Lemma sfs_lift {A} (m : M A) : follows_setting b m -> sfollows_setting b (lift m).
Proof. intros Hm s Hs. exact (Hm (core s) Hs). Qed.

Lemma sfs_bind {A B} (m : SM A) (f : A -> SM B) :
  sfollows_setting b m -> (forall a, sfollows_setting b (f a)) ->
  sfollows_setting b (sbind m f).
Proof.
  intros Hm Hf s Hs. unfold sbind. destruct (Hm s Hs) as [H1 H2].
  destruct (s_outcome (m s)); cbn [s_shell s_trace]; [|auto].
  destruct (Hf a _ H1) as [H3 H4]. split; [exact H3|].
  now rewrite forallb_app, H2, H4.
Qed.

Lemma sfs_guarded {A} (m : SM A) :
  sfollows_setting b m -> sfollows_setting b (sguarded m).
Proof.
  intros Hm s Hs. destruct (Hm s Hs) as [H1 H2]. unfold sguarded.
  destruct (s_outcome (m s)); cbn [s_shell s_trace]; [auto|].
  split; [exact H1|]. now rewrite forallb_app, H2.
Qed.

End SFollowsSetting.

Ltac sfs_step leaf :=
  first
    [ apply sfs_quiet; intros ?; split; reflexivity
    | leaf
    | apply sfs_bind; [|intro]
    | match goal with
      | |- sfollows_setting _ (match ?x with _ => _ end) => destruct x
      | |- sfollows_setting _ (if ?x then _ else _) => destruct x
      end ].

Ltac fs_leaf :=
  first [ apply fs_emit; reflexivity | apply fs_updateStack
        | apply fs_updateLayout | apply fs_updateScrollPosition
        | apply fs_show | apply fs_cardAction | apply fs_panToApp
        | apply fs_hide | apply fs_fire | apply fs_step'
        | unfold eventSafety; fs_with fail ].

Lemma sfs_openNewSheet b senv isPrivate :
  sfollows_setting b (openNewSheet senv isPrivate).
Proof.
  unfold openNewSheet. cbv zeta.
  repeat sfs_step ltac:(apply sfs_lift; fs_leaf).
Qed.

Lemma sfs_handleEvent b senv evt : sfollows_setting b (handleEvent senv evt).
Proof.
  destruct evt; cbn [handleEvent].
  all: repeat sfs_step
         ltac:(first [ apply sfs_openNewSheet | apply sfs_lift; fs_leaf ]).
Qed.

Lemma sfs_happen b senv h : sfollows_setting b (happen senv h).
Proof.
  destruct h; cbn [happen].
  - apply sfs_bind; [apply sfs_guarded, sfs_handleEvent | intros _].
    apply sfs_lift, fs_fire.
  - apply sfs_lift, fs_step'.
Qed.

Lemma sfs_play b l : sfollows_setting b (play l).
Proof.
  induction l as [|[senv h] l IH]; cbn [play].
  - apply sfs_quiet. intros ?. split; reflexivity.
  - apply sfs_bind; [apply sfs_happen | intros _; exact IH].
Qed.

(** The screenshot preference reaches the cards created after it is set:
    once [setScreenshotSetting(useScreenshots)] has run, whatever events
    are handled and turns taken, every card created is created with the
    flag [!useScreenshots], and the setting itself is never changed by the
    task manager. *)
Theorem new_cards_follow_setting useScreenshots s l :
  let r := play l (with_screenshot_setting useScreenshots s) in
  disableScreenshots (tm (core (s_shell r))) = negb useScreenshots /\
  forall c, In (CardCreated c) (s_trace r) ->
    card_disableScreenshots c = negb useScreenshots.
Proof.
  cbv zeta.
  destruct (sfs_play (negb useScreenshots) l
              (with_screenshot_setting useScreenshots s) eq_refl) as [H1 H2].
  split; [exact H1|].
  intros c Hc. rewrite forallb_forall in H2. specialize (H2 _ Hc).
  simpl in H2. now apply Bool.eqb_prop in H2.
Qed.
